(** * CachedInputFileSystem: a shallow embedding of lib/CachedInputFileSystem.js

    The development follows the source file top to bottom: [dirname],
    [runCallbacks], [OperationMergerBackend], [LRUCache], [CacheBackend],
    [createBackend] and the JSON reader synthesized by the facade.  JavaScript
    objects that are shared by reference (the nodes of the LRU list, the arrays
    of pending callbacks) live in explicit stores, so that aliasing is part of
    the model.  The first half of the file holds the definitions, the second
    half the lemmas and theorems.

    What lies outside the file is kept abstract:
    - the asynchronous provider calls back later, once per invocation, with
      any pair [(err, result)]: an invocation stays in [pending] until the
      event [complete] picks it;
    - the synchronous provider, the exception a caller's continuation may
      raise, and JSON parsing are the fields of the class [Environment];
    - a caller's continuation is known by its identity; what is handed to it
      is recorded in [delivered]; it does not call back into the backend
      while it runs.
    Numbers are integers and strings are byte strings. *)

From Stdlib Require Import ZArith Lia Ascii String.
From stdpp Require Import base option list gmap strings.

Local Open Scope Z_scope.
Local Open Scope nat_scope.

(** ** JavaScript values *)

(** The values that flow through the backends.  [VIter] is an iterable of
    strings (an Array or a Set), as handed to [purge]; [VBuffer] is a Buffer;
    [VObj] is any other object, known by identity only: a plain object such
    as the result of [stat], which is not iterable. *)
Inductive value : Type :=
| VUndefined
| VNull
| VBool (b : bool)
| VNum (n : Z)
| VStr (s : string)
| VBuffer (bytes : string)
| VIter (items : list string)
| VObj (id : nat)
| VTypeError (msg : string)
| VError (msg : string).

(** JavaScript truthiness, as tested by [if (x)] and [!x]. *)
Definition truthy (v : value) : bool :=
  match v with
  | VUndefined | VNull => false
  | VBool b => b
  | VNum n => negb (n =? 0)%Z
  | VStr s => negb (String.eqb s "")
  | VBuffer _ | VIter _ | VObj _ | VTypeError _ | VError _ => true
  end.

(** [typeof x === "string"] *)
Definition is_string (v : value) : bool :=
  match v with
  | VStr _ => true
  | _ => false
  end.

(** [x.length === 0] *)
Definition length_is_zero (v : value) : bool :=
  match v with
  | VStr s => Nat.eqb (String.length s) 0
  | VBuffer b => Nat.eqb (String.length b) 0
  | VIter l => Nat.eqb (List.length l) 0
  | _ => false
  end.

(** The outcome of running a piece of JavaScript: it returns or it throws. *)
Inductive completion (A : Type) : Type :=
| Normal (a : A)
| Thrown (e : value).
Arguments Normal {A} a.
Arguments Thrown {A} e.

(** ** dirname (lines 11-21) *)

Definition charCodeAt (path : string) (idx : nat) : option nat :=
  nat_of_ascii <$> String.get idx path.

(** The loop of lines 13-18, with [n = idx + 1]: the result is the index at
    which the loop breaks, or [None] when [idx] has dropped below zero. *)
Fixpoint dirname_scan (path : string) (n : nat) : option nat :=
  match n with
  | O => None
  | S idx =>
      match charCodeAt path idx with
      | Some c => if Nat.eqb c 47 || Nat.eqb c 92 then Some idx
                  else dirname_scan path idx
      | None => dirname_scan path idx
      end
  end.

Definition dirname (path : string) : string :=
  match dirname_scan path (String.length path) with
  | None => ""
  | Some idx => String.substring 0 idx path
  end.

(** ** LRUCache (lines 90-184) *)

Module LRUCache.
Section defs.
Context {K : Type} `{Countable K} {V : Type}.

(** class Node: the links are references into the node store. *)
Record Node : Type := mkNode {
  key : K;
  value : V;
  next : option nat;
  prev : option nat
}.

(** class LRUCache, together with the store holding every Node object that
    was ever allocated (unlinked nodes stay there as garbage). *)
Record t : Type := mk {
  cap : Z;
  map : gmap K nat;
  head : option nat;
  tail : option nat;
  nodes : gmap nat Node
}.

Definition new (capacity : Z) : t := mk capacity ∅ None None ∅.

Definition set_map (m : gmap K nat) (c : t) : t :=
  mk (cap c) m (head c) (tail c) (nodes c).
Definition set_head (h : option nat) (c : t) : t :=
  mk (cap c) (map c) h (tail c) (nodes c).
Definition set_tail (tl : option nat) (c : t) : t :=
  mk (cap c) (map c) (head c) tl (nodes c).
Definition set_nodes (ns : gmap nat Node) (c : t) : t :=
  mk (cap c) (map c) (head c) (tail c) ns.

(** Field reads and writes on the node object [r]. *)
Definition next_of (c : t) (r : nat) : option nat := nodes c !! r ≫= next.
Definition prev_of (c : t) (r : nat) : option nat := nodes c !! r ≫= prev.
Definition set_next (r : nat) (x : option nat) (c : t) : t :=
  set_nodes (alter (λ n, mkNode (key n) (value n) x (prev n)) r (nodes c)) c.
Definition set_prev (r : nat) (x : option nat) (c : t) : t :=
  set_nodes (alter (λ n, mkNode (key n) (value n) (next n) x) r (nodes c)) c.
Definition set_value (r : nat) (v : V) (c : t) : t :=
  set_nodes (alter (λ n, mkNode (key n) v (next n) (prev n)) r (nodes c)) c.

(** removeNode (lines 157-169): every field is read from the store at the
    moment the source reads it. *)
Definition removeNode (node : nat) (c : t) : t :=
  let c1 := match prev_of c node with
            | Some p => set_next p (next_of c node) c
            | None => set_head (next_of c node) c
            end in
  match next_of c1 node with
  | Some q => set_prev q (prev_of c1 node) c1
  | None => set_tail (prev_of c1 node) c1
  end.

(** offerNode (lines 171-183) *)
Definition offerNode (node : nat) (c : t) : t :=
  let c1 := match tail c with
            | Some tl => set_next tl (Some node) c
            | None => c
            end in
  let c2 := set_prev node (tail c1) c1 in
  let c3 := set_next node None c2 in
  let c4 := set_tail (Some node) c3 in
  match head c4 with
  | None => set_head (tail c4) c4
  | Some _ => c4
  end.

(** get (lines 109-121): [None] is the source's [undefined]. *)
Definition get (k : K) (c : t) : option V * t :=
  match map c !! k with
  | None => (None, c)
  | Some cachedNode =>
      let c' := offerNode cachedNode (removeNode cachedNode c) in
      (value <$> nodes c' !! cachedNode, c')
  end.

(** put (lines 123-143).  [None] stands for the TypeError of line 134 when
    [this.head] is null (a capacity below one on an empty cache). *)
Definition put (k : K) (v : V) (c : t) : option t :=
  match map c !! k with
  | Some cachedNode =>
      Some (offerNode cachedNode (removeNode cachedNode (set_value cachedNode v c)))
  | None =>
      c1 ← (if (Z.of_nat (size (map c)) >=? cap c)%Z then
              h ← head c;
              n ← nodes c !! h;
              Some (removeNode h (set_map (delete (key n) (map c)) c))
            else Some c);
      let node := fresh (dom (nodes c1)) in
      let c2 := set_nodes (<[node := mkNode k v None None]> (nodes c1)) c1 in
      let c3 := offerNode node c2 in
      Some (set_map (<[k := node]> (map c3)) c3)
  end.

Definition size (c : t) : nat := stdpp.base.size (map c).

(** purge (lines 149-155) *)
Definition purge (c : t) : t := mk (cap c) ∅ None None (nodes c).

(** The entries in list order, read off the links from [head] onwards: the
    recency order from least to most recently touched. *)
Fixpoint walk (fuel : nat) (ns : gmap nat Node) (cur : option nat) : list (K * V) :=
  match fuel, cur with
  | S fuel', Some r =>
      match ns !! r with
      | Some n => (key n, value n) :: walk fuel' ns (next n)
      | None => []
      end
  | _, _ => []
  end.

Definition entries (c : t) : list (K * V) := walk (size c) (nodes c) (head c).

(** *** Representation of the linked list

    A cell pairs a node reference with the key and value stored in it.
    [dseg ns pv l nx] says that the cells of [l] are linked in the store [ns]
    in this order, the first with predecessor [pv] and the last with
    successor [nx]. *)
Definition hd_ref (l : list (nat * (K * V))) (nx : option nat) : option nat :=
  match l with
  | [] => nx
  | x :: _ => Some x.1
  end.

Definition last_ref (pv : option nat) (l : list (nat * (K * V))) : option nat :=
  match last l with
  | None => pv
  | Some x => Some x.1
  end.

Fixpoint dseg (ns : gmap nat Node) (pv : option nat) (l : list (nat * (K * V)))
    (nx : option nat) : Prop :=
  match l with
  | [] => True
  | x :: l' =>
      ns !! x.1 = Some (mkNode x.2.1 x.2.2 (hd_ref l' nx) pv)
      ∧ dseg ns (Some x.1) l' nx
  end.

(** The list between [head] and [tail] is [l]. *)
Definition linked (c : t) (l : list (nat * (K * V))) : Prop :=
  NoDup l.*1
  ∧ dseg (nodes c) None l None
  ∧ head c = hd_ref l None
  ∧ tail c = last_ref None l.

(** The whole cache represents [l]: the list is linked, the keys are
    distinct, and the map sends each key to its node. *)
Definition repr (c : t) (l : list (nat * (K * V))) : Prop :=
  linked c l
  ∧ NoDup l.*2.*1
  ∧ ∀ k r, map c !! k = Some r ↔ ∃ v, (r, (k, v)) ∈ l.

Definition wf (c : t) : Prop := ∃ l, repr c l.

(** A cache as the backend keeps it: it represents a list no longer than
    its capacity, and the capacity is at least one. *)
Definition bounded (c : t) : Prop :=
  ∃ l, repr c l ∧ (1 ≤ cap c)%Z ∧ (Z.of_nat (length l) ≤ cap c)%Z.

(** *** The cache as the specification describes it

    An ordered list of entries, least recently touched first. *)
Definition spec_lookup (k : K) (l : list (K * V)) : option V :=
  snd <$> List.find (λ x, bool_decide (x.1 = k)) l.

Definition spec_remove (k : K) (l : list (K * V)) : list (K * V) :=
  List.filter (λ x, negb (bool_decide (x.1 = k))) l.

Definition spec_get (k : K) (l : list (K * V)) : option V * list (K * V) :=
  match spec_lookup k l with
  | Some v => (Some v, spec_remove k l ++ [(k, v)])
  | None => (None, l)
  end.

Definition spec_put (capacity : Z) (k : K) (v : V) (l : list (K * V)) : list (K * V) :=
  match spec_lookup k l with
  | Some _ => spec_remove k l ++ [(k, v)]
  | None =>
      (if (Z.of_nat (length l) >=? capacity)%Z then List.tl l else l) ++ [(k, v)]
  end.

(** The operations a client can issue, and a run of them. *)
Inductive op : Type :=
| Get (k : K)
| Put (k : K) (v : V).

Definition apply_op (o : op) (c : t) : option t :=
  match o with
  | Get k => Some (snd (get k c))
  | Put k v => put k v c
  end.

Fixpoint run (ops : list op) (c : t) : option t :=
  match ops with
  | [] => Some c
  | o :: ops' => c' ← apply_op o c; run ops' c'
  end.

(** Which keys the run touched, oldest first: every [put], and every [get]
    that found its key. *)
Fixpoint touch_log (ops : list op) (c : t) : list K :=
  match ops with
  | [] => []
  | Get k :: ops' =>
      match map c !! k with Some _ => [k] | None => [] end
        ++ touch_log ops' (snd (get k c))
  | Put k v :: ops' =>
      k :: match put k v c with
           | Some c' => touch_log ops' c'
           | None => []
           end
  end.

(** The keys ordered by their last touch, least recently touched first. *)
Definition touch (acc : list K) (k : K) : list K :=
  List.filter (λ x, negb (bool_decide (x = k))) acc ++ [k].

Definition recency (log : list K) : list K := fold_left touch log [].

End defs.
Arguments Node : clear implicits.
Arguments t K {_ _} V.
Arguments op : clear implicits.
End LRUCache.

(** ** Callbacks, the provider and the shared heap *)

(** A callback is either a continuation handed in by a caller, known by its
    identity only, or the closure of lines 356-367 around such a callback. *)
Inductive callback : Type :=
| CbUser (id : nat)
| CbJson (callback : callback).

(** The two call shapes of [provide]: [provide(path, callback)] and
    [provide(path, options, callback)], where [options] is not a function. *)
Inductive call_args : Type :=
| Args2 (path : value) (callback : callback)
| Args3 (path options : value) (callback : callback).

(** Lines 51-54 and 207-210: a function in second position is the callback. *)
Definition normalize (a : call_args) : value * value * callback :=
  match a with
  | Args2 path callback => (path, VUndefined, callback)
  | Args3 path options callback => (path, options, callback)
  end.

(** The function handed to the asynchronous provider as its callback. *)
Inductive continuation : Type :=
| KDirect (callback : callback)
  (* options bypass: the provider receives the caller's callback itself *)
| KMerged (path : string) (callbacks : nat).
  (* the arrow function of lines 73-76 and 240-245, which captures [path]
     and the array [callbacks] by reference *)

(** An invocation of the asynchronous provider that has not called back. *)
Record provider_call : Type := mkCall {
  pc_path : value;
  pc_options : value;
  pc_callback : continuation
}.

(** What happened at the provider, in order. *)
Inductive provider_event : Type :=
| AsyncCall (path options : value)
| AsyncDone (path : value)
| SyncCall (path options : value).

Record delivery : Type := mkDelivery {
  d_callback : callback;
  d_err : value;
  d_result : value
}.

(** The part of the JavaScript heap and of the environment that the backends
    share with their callers: the arrays of pending callbacks (by reference),
    the provider invocations still outstanding, the provider trace and the
    record of every callback invocation. *)
Record World : Type := mkWorld {
  arrays : gmap nat (list callback);
  pending : list provider_call;
  trace : list provider_event;
  delivered : list delivery
}.

Definition empty_world : World := mkWorld ∅ [] [] [].

Record state (B : Type) : Type := mkState {
  world : World;
  self : B
}.
Arguments mkState {B} world self.
Arguments world {B} s.
Arguments self {B} s.

(** The behaviour of everything outside the file: the synchronous provider
    (which may depend on all that happened at the provider before), the
    exception a caller's continuation raises when invoked, if any, and
    [JSON.parse(buffer.toString("utf-8"))]. *)
Class Environment : Type := {
  syncProvider : list provider_event → value → value → completion value;
  cb_throws : nat → value → value → option value;
  parse_json : value → completion value
}.

(** ** A state and exception monad

    A computation changes the state and returns or throws; the changes made
    before a throw persist, as in JavaScript. *)
Definition M (B A : Type) : Type := state B → completion A * state B.

Global Instance M_ret {B} : MRet (M B) := λ A a s, (Normal a, s).

Global Instance M_bind {B} : MBind (M B) := λ A A' k m s,
  match m s with
  | (Normal a, s') => k a s'
  | (Thrown e, s') => (Thrown e, s')
  end.

Definition throw {B A} (e : value) : M B A := λ s, (Thrown e, s).

(** try { m } catch (e) { ... }: the outcome of [m] as a value. *)
Definition try_catch {B A} (m : M B A) : M B (completion A) :=
  λ s, (Normal (m s).1, (m s).2).

Definition get_world {B} : M B World := λ s, (Normal (world s), s).
Definition get_self {B} : M B B := λ s, (Normal (self s), s).
Definition modify_world {B} (f : World → World) : M B unit :=
  λ s, (Normal tt, mkState (f (world s)) (self s)).
Definition modify_self {B} (f : B → B) : M B unit :=
  λ s, (Normal tt, mkState (world s) (f (self s))).

Definition set_arrays (a : gmap nat (list callback)) (w : World) : World :=
  mkWorld a (pending w) (trace w) (delivered w).
Definition set_pending (p : list provider_call) (w : World) : World :=
  mkWorld (arrays w) p (trace w) (delivered w).
Definition add_trace (e : provider_event) (w : World) : World :=
  mkWorld (arrays w) (pending w) (trace w ++ [e]) (delivered w).
Definition add_delivered (d : delivery) (w : World) : World :=
  mkWorld (arrays w) (pending w) (trace w) (delivered w ++ [d]).

Section backend.
Context `{Environment}.

(** Calling a callback.  The closure of lines 356-367 is run in place. *)
Fixpoint invoke {B} (cb : callback) (err result : value) : M B unit :=
  modify_world (add_delivered (mkDelivery cb err result));;
  match cb with
  | CbUser id =>
      match cb_throws id err result with
      | Some e => throw e
      | None => mret tt
      end
  | CbJson callback =>
      if truthy err then invoke callback err VUndefined
      else if negb (truthy result) || length_is_zero result
      then invoke callback (VError "No file content") VUndefined
      else match parse_json result with
           | Thrown e => invoke callback e VUndefined
           | Normal data => invoke callback VNull data
           end
  end.

(** [callbacks = [callback]]: a new array in the heap. *)
Definition new_array {B} (cbs : list callback) : M B nat :=
  w ← get_world;
  let r := fresh (dom (arrays w)) in
  modify_world (set_arrays (<[r := cbs]> (arrays w)));;
  mret r.

(** [callbacks.push(callback)] *)
Definition array_push {B} (r : nat) (cb : callback) : M B unit :=
  modify_world (λ w, set_arrays (alter (λ cbs, cbs ++ [cb]) r (arrays w)) w).

Definition read_array {B} (r : nat) : M B (list callback) :=
  w ← get_world; mret (default [] (arrays w !! r)).

(** The loop of lines 26-32. *)
Fixpoint deliver_each {B} (cbs : list callback) (err result error : value) : M B value :=
  match cbs with
  | [] => mret error
  | callback :: rest =>
      r ← try_catch (invoke callback err result);
      match r with
      | Normal _ => deliver_each rest err result error
      | Thrown e =>
          deliver_each rest err result (if negb (truthy error) then e else error)
      end
  end.

(** runCallbacks (lines 23-35), on the array at reference [callbacks]. *)
Definition runCallbacks {B} (callbacks : nat) (err result : value) : M B unit :=
  cbs ← read_array callbacks;
  match cbs with
  | [callback] => invoke callback err result
  | _ =>
      error ← deliver_each cbs err result VUndefined;
      modify_world (λ w, set_arrays (alter (λ _, []) callbacks (arrays w)) w);;
      if truthy error then throw error else mret tt
  end.

(** Invoking the asynchronous provider: it will call back later. *)
Definition call_provider {B} (path options : value) (k : continuation) : M B unit :=
  modify_world (λ w, add_trace (AsyncCall path options)
                       (set_pending (pending w ++ [mkCall path options k]) w)).

(** Invoking the synchronous provider. *)
Definition call_syncProvider {B} (path options : value) : M B value :=
  w ← get_world;
  modify_world (add_trace (SyncCall path options));;
  match syncProvider (trace w) path options with
  | Normal v => mret v
  | Thrown e => throw e
  end.

(** The provider calls back on its [i]-th outstanding invocation: the call
    leaves [pending] and its continuation is handed back. *)
Definition take_pending {B} (i : nat) : M B (option provider_call) :=
  w ← get_world;
  match pending w !! i with
  | None => mret None
  | Some pc =>
      modify_world (λ w, add_trace (AsyncDone (pc_path pc))
                           (set_pending (delete i (pending w)) w));;
      mret (Some pc)
  end.

End backend.

(** ** Observations on the provider trace *)

(** How many invocations of the asynchronous provider for the path [k] are
    outstanding. *)
Definition is_path (k : string) (p : value) : bool :=
  match p with
  | VStr s => String.eqb s k
  | _ => false
  end.

Definition count_path (k : string) (l : list provider_call) : nat :=
  length (List.filter (λ pc, is_path k (pc_path pc)) l).

Definition outstanding (k : string) (w : World) : nat :=
  count_path k (pending w).

(** One step of the check that no provider call for [k] starts while another
    is outstanding: the accumulator is the number of outstanding asynchronous
    calls, or [None] once two calls have overlapped. *)
Definition check_exclusive (k : string) (acc : option nat) (e : provider_event) : option nat :=
  n ← acc;
  match e with
  | AsyncCall p _ => if is_path k p then (if Nat.eqb n 0 then Some 1 else None) else Some n
  | AsyncDone p => if is_path k p then Some (Nat.pred n) else Some n
  | SyncCall p _ => if is_path k p then (if Nat.eqb n 0 then Some n else None) else Some n
  end.

Definition exclusive (k : string) (tr : list provider_event) : bool :=
  match fold_left (check_exclusive k) tr (Some 0) with
  | Some _ => true
  | None => false
  end.

(** ** OperationMergerBackend (lines 37-88) *)

Module OperationMergerBackend.
Section defs.
Context `{Environment}.

Record t : Type := mk {
  activeAsyncOperations : gmap string nat
}.

Definition new : t := mk ∅.

(** this.provide (lines 50-77) *)
Definition provide (a : call_args) : M t unit :=
  let '(path, options, callback) := normalize a in
  if truthy options then call_provider path options (KDirect callback)
  else
    match path with
    | VStr p =>
        b ← get_self;
        match activeAsyncOperations b !! p with
        | Some callbacks => array_push callbacks callback
        | None =>
            callbacks ← new_array [callback];
            modify_self (λ b, mk (<[p := callbacks]> (activeAsyncOperations b)));;
            call_provider path VUndefined (KMerged p callbacks)
        end
    | _ => invoke callback (VTypeError "path must be a string") VUndefined
    end.

(** this.provideSync (lines 80-82) *)
Definition provideSync (path options : value) : M t value :=
  call_syncProvider path options.

(** The provider calls back on its [i]-th outstanding invocation: either the
    caller's own callback runs, or the arrow function of lines 73-76. *)
Definition complete (i : nat) (err result : value) : M t unit :=
  pc ← take_pending i;
  match pc with
  | None => mret tt
  | Some pc =>
      match pc_callback pc with
      | KDirect callback => invoke callback err result
      | KMerged path callbacks =>
          modify_self (λ b, mk (delete path (activeAsyncOperations b)));;
          runCallbacks callbacks err result
      end
  end.

Definition purge (what : value) : M t unit := mret tt.
Definition purgeParent (what : value) : M t unit := mret tt.

(** [provide(k, callback)] issued for each continuation of [ids] in turn,
    with nothing else happening in between. *)
Definition provide_each (k : string) (ids : list nat) (s : state t) : state t :=
  fold_left (λ s i, (provide (Args2 (VStr k) (CbUser i)) s).2) ids s.

End defs.
End OperationMergerBackend.

(** ** CacheBackend (lines 186-310) *)

Module CacheBackend.
Section defs.
Context `{Environment}.

(** The object [{ err, result }] stored by [_storeResult]. *)
Record entry : Type := mkEntry {
  err : value;
  result : value
}.

Record t : Type := mk {
  duration : Z;
  activeAsyncOperations : gmap string nat;
  lruCache : LRUCache.t string entry
}.

Definition new (duration : Z) : t := mk duration ∅ (LRUCache.new duration).

Definition set_active (a : gmap string nat) (b : t) : t :=
  mk (duration b) a (lruCache b).
Definition set_lruCache (c : LRUCache.t string entry) (b : t) : t :=
  mk (duration b) (activeAsyncOperations b) c.

(** [this.lruCache.get(path)] *)
Definition lruCache_get (path : string) : M t (option entry) :=
  b ← get_self;
  modify_self (set_lruCache (LRUCache.get path (lruCache b)).2);;
  mret (LRUCache.get path (lruCache b)).1.

(** _storeResult (lines 307-309) *)
Definition _storeResult (path : string) (err result : value) : M t unit :=
  b ← get_self;
  match LRUCache.put path (mkEntry err result) (lruCache b) with
  | Some c => modify_self (set_lruCache c)
  | None => throw (VTypeError "Cannot read property 'key' of null")
  end.

(** provide (lines 206-246) *)
Definition provide (a : call_args) : M t unit :=
  let '(path, options, callback) := normalize a in
  match path with
  | VStr p =>
      if truthy options then call_provider path options (KDirect callback)
      else
        cacheEntry ← lruCache_get p;
        match cacheEntry with
        | Some cacheEntry =>
            if truthy (err cacheEntry) then invoke callback (err cacheEntry) VUndefined
            else invoke callback VNull (result cacheEntry)
        | None =>
            b ← get_self;
            match activeAsyncOperations b !! p with
            | Some callbacks => array_push callbacks callback
            | None =>
                callbacks ← new_array [callback];
                modify_self (λ b, set_active (<[p := callbacks]> (activeAsyncOperations b)) b);;
                call_provider path VUndefined (KMerged p callbacks)
            end
        end
  | _ => invoke callback (VTypeError "path must be a string") VUndefined
  end.

(** [if (callbacks) runCallbacks(callbacks, err, result)] *)
Definition run_adopted (callbacks : option nat) (err result : value) : M t unit :=
  match callbacks with
  | Some callbacks => runCallbacks callbacks err result
  | None => mret tt
  end.

(** provideSync (lines 248-281) *)
Definition provideSync (path options : value) : M t value :=
  match path with
  | VStr p =>
      if truthy options then call_syncProvider path options
      else
        cacheEntry ← lruCache_get p;
        match cacheEntry with
        | Some cacheEntry =>
            if truthy (err cacheEntry) then throw (err cacheEntry)
            else mret (result cacheEntry)
        | None =>
            b ← get_self;
            let callbacks := activeAsyncOperations b !! p in
            modify_self (λ b, set_active (delete p (activeAsyncOperations b)) b);;
            r ← try_catch (call_syncProvider path VUndefined);
            match r with
            | Thrown err =>
                _storeResult p err VUndefined;;
                run_adopted callbacks err VUndefined;;
                throw err
            | Normal result =>
                _storeResult p VUndefined result;;
                run_adopted callbacks VUndefined result;;
                mret result
            end
        end
  | _ => throw (VTypeError "path must be a string")
  end.

(** The provider calls back on its [i]-th outstanding invocation: either the
    caller's own callback runs, or the arrow function of lines 240-245. *)
Definition complete (i : nat) (err result : value) : M t unit :=
  pc ← take_pending i;
  match pc with
  | None => mret tt
  | Some pc =>
      match pc_callback pc with
      | KDirect callback => invoke callback err result
      | KMerged path callbacks =>
          modify_self (λ b, set_active (delete path (activeAsyncOperations b)) b);;
          _storeResult path err result;;
          runCallbacks callbacks err result
      end
  end.

Definition lruCache_purge : M t unit :=
  modify_self (λ b, set_lruCache (LRUCache.purge (lruCache b)) b).

(** purge (lines 283-291) *)
Definition purge (what : value) : M t unit :=
  if negb (truthy what) then lruCache_purge
  else match what with
       | VStr _ => lruCache_purge
       | _ => lruCache_purge
       end.

(** [set.add(x)]: a [Set] keeps each element once, in order of first
    insertion. *)
Definition set_add (set : list string) (x : string) : list string :=
  if bool_decide (x ∈ set) then set else set ++ [x].

(** purgeParent (lines 293-305).  The loop of lines 300-302 adds the parent
    of each item to a new [Set].  A Buffer is iterable too, over its bytes:
    an empty one leaves the set empty, and the first byte of any other one
    is a number, on which [dirname] ends in [path.slice(0, idx)] with no
    such method.  Booleans, numbers and plain objects are not iterable and
    make the [for ... of] throw. *)
Definition purgeParent (what : value) : M t unit :=
  if negb (truthy what) then purge VUndefined
  else match what with
       | VStr s => purge (VStr (dirname s))
       | VIter items => purge (VIter (fold_left set_add (dirname <$> items) []))
       | VBuffer bytes =>
           if Nat.eqb (String.length bytes) 0 then purge (VIter [])
           else throw (VTypeError "path.slice is not a function")
       | _ => throw (VTypeError "what is not iterable")
       end.

(** What callers and the provider can do to a backend, and runs of it. *)
Inductive event : Type :=
| Provide (a : call_args)
| ProvideSync (path options : value)
| Complete (i : nat) (err result : value)
| Purge (what : value)
| PurgeParent (what : value).

Definition exec (e : event) : M t value :=
  match e with
  | Provide a => provide a;; mret VUndefined
  | ProvideSync path options => provideSync path options
  | Complete i err result => complete i err result;; mret VUndefined
  | Purge what => purge what;; mret VUndefined
  | PurgeParent what => purgeParent what;; mret VUndefined
  end.

Definition run (es : list event) (s : state t) : state t :=
  fold_left (λ s e, (exec e s).2) es s.

(** What each event of a run returned or threw to its caller. *)
Fixpoint outcomes (es : list event) (s : state t) : list (completion value) :=
  match es with
  | [] => []
  | e :: es' => (exec e s).1 :: outcomes es' (exec e s).2
  end.

Definition init (duration : Z) : state t := mkState empty_world (new duration).

(** [provide(k, callback)] issued for each continuation of [ids] in turn,
    with nothing else happening in between. *)
Definition provide_each (k : string) (ids : list nat) (s : state t) : state t :=
  fold_left (λ s i, (provide (Args2 (VStr k) (CbUser i)) s).2) ids s.

(** The cached outcome for [k], if any, without touching the recency order. *)
Definition cached (s : state t) (k : string) : option entry :=
  LRUCache.spec_lookup k (LRUCache.entries (lruCache (self s))).

(** A lookup of a key without options, through [provide] with the
    continuation [id] or through [provideSync]. *)
Inductive lookup : Type :=
| ViaProvide (id : nat)
| ViaProvideSync.

Definition lookup_event (k : string) (l : lookup) : event :=
  match l with
  | ViaProvide id => Provide (Args2 (VStr k) (CbUser id))
  | ViaProvideSync => ProvideSync (VStr k) VUndefined
  end.

Definition provide_ids (ls : list lookup) : list nat :=
  omap (λ l, match l with ViaProvide id => Some id | ViaProvideSync => None end) ls.

(** What a lookup that replays the error [e] gives back to its caller:
    [provideSync] throws [e]; [provide] calls the continuation with [e] and
    returns, unless the continuation itself throws. *)
Definition replayed (e : value) (l : lookup) : completion value :=
  match l with
  | ViaProvideSync => Thrown e
  | ViaProvide id =>
      match cb_throws id e VUndefined with
      | Some x => Thrown x
      | None => Normal VUndefined
      end
  end.

(** The provider fails with [e] for the key [k] in state [s], and [s'] is the
    state after the backend has handled it: either an outstanding merged call
    calls back with [(e, r)], or a [provideSync] that misses the cache has the
    synchronous provider throw [e]. *)
Definition provider_failed (k : string) (e r : value) (s s' : state t) : Prop :=
  (∃ i a, pending (world s) !! i = Some (mkCall (VStr k) VUndefined (KMerged k a))
          ∧ s' = (complete i e r s).2)
  ∨ (cached s k = None
     ∧ syncProvider (trace (world s)) (VStr k) VUndefined = Thrown e
     ∧ r = VUndefined
     ∧ s' = (provideSync (VStr k) VUndefined s).2).

(** The pair handed to adopted continuations at lines 275 and 279, from the
    outcome of the synchronous provider. *)
Definition sync_err (o : completion value) : value :=
  match o with
  | Normal _ => VUndefined
  | Thrown e => e
  end.

Definition sync_result (o : completion value) : value :=
  match o with
  | Normal v => v
  | Thrown _ => VUndefined
  end.

(** An event that cannot put a synchronous provider call next to an
    outstanding asynchronous one: it carries no options, and a [provideSync]
    is for a key with no asynchronous call in flight. *)
Definition no_race (s : state t) (e : event) : bool :=
  match e with
  | Provide a => negb (truthy (normalize a).1.2)
  | ProvideSync path options =>
      negb (truthy options)
      && match path with
         | VStr p => bool_decide (activeAsyncOperations (self s) !! p = None)
         | _ => true
         end
  | _ => true
  end.

(** What holds of a backend as long as no event races: every outstanding
    provider call is a merged one, a key has one outstanding call exactly
    when it is in the registry, and the trace has seen no overlap. *)
Definition exclusive_inv (s : state t) : Prop :=
  Forall (λ pc, ∃ k r, pc = mkCall (VStr k) VUndefined (KMerged k r))
         (pending (world s))
  ∧ ∀ k, outstanding k (world s)
         = match activeAsyncOperations (self s) !! k with
           | Some _ => 1
           | None => 0
           end
         ∧ fold_left (check_exclusive k) (trace (world s)) (Some 0)
           = Some (outstanding k (world s)).

Fixpoint race_free (es : list event) (s : state t) : bool :=
  match es with
  | [] => true
  | e :: es' => no_race s e && race_free es' (exec e s).2
  end.

End defs.
End CacheBackend.

(** ** createBackend and the facade (lines 312-398) *)

Module CachedInputFileSystem.
Section defs.
Context `{Environment}.

Inductive backend : Type :=
| Caching (b : CacheBackend.t)
| Merging (b : OperationMergerBackend.t).

(** createBackend (lines 312-317) *)
Definition createBackend (duration : Z) : backend :=
  if (duration >? 0)%Z then Caching (CacheBackend.new duration)
  else Merging OperationMergerBackend.new.

(** The asynchronous readJson synthesized at lines 354-368, over the
    [provide] of the readFile backend. *)
Definition readJson_provider {B} (readFile : call_args → M B unit)
    (path : value) (callback : callback) : M B unit :=
  readFile (Args2 path (CbJson callback)).

(** Line 352: [this.fileSystem.readJson || ...]; [None] is a provider
    without [readJson]. *)
Definition select_readJson {B} (native : option (value → callback → M B unit))
    (readFile : call_args → M B unit) : value → callback → M B unit :=
  match native with
  | Some readJson => readJson
  | None => readJson_provider readFile
  end.

End defs.
End CachedInputFileSystem.

(** The deliveries of one outcome to the continuations [ids], in order. *)
Definition deliveries_to (ids : list nat) (err result : value) : list delivery :=
  (λ i, mkDelivery (CbUser i) err result) <$> ids.

Definition add_deliveries (ds : list delivery) (w : World) : World :=
  mkWorld (arrays w) (pending w) (trace w) (delivered w ++ ds).

(** ** A concrete environment

    The provider of the test suite: [statSync] returns a new object per call;
    the path "missing" does not exist.  Continuations do not throw. *)
Definition test_syncProvider (tr : list provider_event) (path options : value)
    : completion value :=
  match path with
  | VStr "missing" => Thrown (VError "ENOENT")
  | _ => Normal (VObj (length tr))
  end.

Definition test_env : Environment := {|
  syncProvider := test_syncProvider;
  cb_throws := λ _ _ _, None;
  parse_json := λ b,
    match b with
    | VBuffer "{}" => Normal (VObj 0)
    | _ => Thrown (VError "Unexpected token")
    end
|}.

(** ** Further observations *)

(** The characters at which [dirname] cuts: slash and backslash. *)
Definition is_separator (c : ascii) : bool :=
  Nat.eqb (nat_of_ascii c) 47 || Nat.eqb (nat_of_ascii c) 92.

Fixpoint no_separator (s : string) : bool :=
  match s with
  | EmptyString => true
  | String c s' => negb (is_separator c) && no_separator s'
  end.

Definition is_get {K V : Type} (o : LRUCache.op K V) : bool :=
  match o with
  | LRUCache.Get _ => true
  | LRUCache.Put _ _ => false
  end.

(** The key an LRU operation is about. *)
Definition op_key {K V : Type} (o : LRUCache.op K V) : K :=
  match o with
  | LRUCache.Get k => k
  | LRUCache.Put k _ => k
  end.

Section more_observations.
Context `{Environment}.

(** What the continuations [ids] throw when called with [(err, result)], in
    the order of the calls. *)
Definition thrown_by (ids : list nat) (err result : value) : list value :=
  omap (λ i, cb_throws i err result) ids.

Definition first_truthy (vs : list value) : option value := List.find truthy vs.

(** What a delivery to the continuations [ids] ends in: with one
    continuation, whatever it throws; otherwise the first truthy value
    thrown, if any. *)
Definition callbacks_outcome (ids : list nat) (err result : value) : completion unit :=
  match ids with
  | [i] => match cb_throws i err result with
           | Some e => Thrown e
           | None => Normal tt
           end
  | _ => match first_truthy (thrown_by ids err result) with
         | Some e => Thrown e
         | None => Normal tt
         end
  end.

End more_observations.

Section more_cache.
Context `{Environment}.
Import CacheBackend.

(** The provider answers for the key [k] in state [s], and [s'] is the state
    after the backend has handled it: an outstanding merged call calls back
    with [(e, r)], or a [provideSync] that misses the cache runs the
    synchronous provider, whose outcome is stored as [(e, r)]. *)
Definition provider_done (k : string) (e r : value) (s s' : state t) : Prop :=
  (∃ i a, pending (world s) !! i = Some (mkCall (VStr k) VUndefined (KMerged k a))
          ∧ s' = (complete i e r s).2)
  ∨ (cached s k = None
     ∧ e = sync_err (syncProvider (trace (world s)) (VStr k) VUndefined)
     ∧ r = sync_result (syncProvider (trace (world s)) (VStr k) VUndefined)
     ∧ s' = (provideSync (VStr k) VUndefined s).2).

(** What a lookup that replays the stored result [r] gives back to its
    caller: [provideSync] returns [r]; [provide] calls the continuation with
    [(null, r)] and returns, unless the continuation itself throws. *)
Definition replayed_result (r : value) (l : lookup) : completion value :=
  match l with
  | ViaProvideSync => Normal r
  | ViaProvide id =>
      match cb_throws id VNull r with
      | Some x => Thrown x
      | None => Normal VUndefined
      end
  end.

End more_cache.

(** ** Runs of an OperationMergerBackend *)

Module MergerRun.
Section defs.
Context `{Environment}.
Import OperationMergerBackend.

Inductive event : Type :=
| Provide (a : call_args)
| ProvideSync (path options : value)
| Complete (i : nat) (err result : value)
| Purge (what : value)
| PurgeParent (what : value).

Definition exec (e : event) : M t value :=
  match e with
  | Provide a => provide a;; mret VUndefined
  | ProvideSync path options => provideSync path options
  | Complete i err result => complete i err result;; mret VUndefined
  | Purge what => purge what;; mret VUndefined
  | PurgeParent what => purgeParent what;; mret VUndefined
  end.

Definition run (es : list event) (s : state t) : state t :=
  fold_left (λ s e, (exec e s).2) es s.

Definition init : state t := mkState empty_world new.

(** An asynchronous call that goes through the merger: it has no options. *)
Definition merges (e : event) : bool :=
  match e with
  | Provide a => negb (truthy (normalize a).1.2)
  | _ => true
  end.

(** Every outstanding provider call is a merged one, and a key has one
    outstanding call exactly when it is in the registry. *)
Definition registry_inv (s : state t) : Prop :=
  Forall (λ pc, ∃ k r, pc = mkCall (VStr k) VUndefined (KMerged k r))
         (pending (world s))
  ∧ ∀ k, outstanding k (world s)
         = match activeAsyncOperations (self s) !! k with
           | Some _ => 1
           | None => 0
           end.

End defs.
End MergerRun.

(** The asynchronous part of a provider trace. *)
Definition is_async_event (e : provider_event) : bool :=
  match e with
  | SyncCall _ _ => false
  | _ => true
  end.

Definition async_trace (w : World) : list provider_event :=
  List.filter is_async_event (trace w).

(** The asynchronous calls seen so far never overlapped on a key. *)
Definition async_trace_inv {B} (s : state B) : Prop :=
  ∀ k, fold_left (check_exclusive k) (async_trace (world s)) (Some 0)
       = Some (outstanding k (world s)).

Definition merger_inv_holds (s : state OperationMergerBackend.t) : Prop :=
  MergerRun.registry_inv s ∧ async_trace_inv s.

(** ** The facade: five backends and purge (lines 319-398) *)

Module Facade.
Section defs.
Context `{Environment}.

(** A backend with the part of the heap and of the provider it works on. *)
Inductive backend_state : Type :=
| BCaching (s : state CacheBackend.t)
| BMerging (s : state OperationMergerBackend.t).

Definition create (duration : Z) : backend_state :=
  match CachedInputFileSystem.createBackend duration with
  | CachedInputFileSystem.Caching b => BCaching (mkState empty_world b)
  | CachedInputFileSystem.Merging b => BMerging (mkState empty_world b)
  end.

Record t : Type := mk {
  _statBackend : backend_state;
  _readdirBackend : backend_state;
  _readFileBackend : backend_state;
  _readJsonBackend : backend_state;
  _readlinkBackend : backend_state
}.

(** The constructor (lines 320-389): one backend per operation, all with
    the same duration. *)
Definition new (duration : Z) : t :=
  mk (create duration) (create duration) (create duration) (create duration)
     (create duration).

Definition backend_purge (what : value) (b : backend_state)
    : completion unit * backend_state :=
  match b with
  | BCaching s => ((CacheBackend.purge what s).1, BCaching (CacheBackend.purge what s).2)
  | BMerging s =>
      ((OperationMergerBackend.purge what s).1,
       BMerging (OperationMergerBackend.purge what s).2)
  end.

Definition backend_purgeParent (what : value) (b : backend_state)
    : completion unit * backend_state :=
  match b with
  | BCaching s =>
      ((CacheBackend.purgeParent what s).1, BCaching (CacheBackend.purgeParent what s).2)
  | BMerging s =>
      ((OperationMergerBackend.purgeParent what s).1,
       BMerging (OperationMergerBackend.purgeParent what s).2)
  end.

(** purge (lines 391-397): the five calls in order; an exception ends it. *)
Definition purge (what : value) (fs : t) : completion unit * t :=
  let r1 := backend_purge what (_statBackend fs) in
  let fs1 := mk r1.2 (_readdirBackend fs) (_readFileBackend fs) (_readJsonBackend fs)
                (_readlinkBackend fs) in
  match r1.1 with
  | Thrown e => (Thrown e, fs1)
  | Normal _ =>
      let r2 := backend_purgeParent what (_readdirBackend fs1) in
      let fs2 := mk (_statBackend fs1) r2.2 (_readFileBackend fs1) (_readJsonBackend fs1)
                    (_readlinkBackend fs1) in
      match r2.1 with
      | Thrown e => (Thrown e, fs2)
      | Normal _ =>
          let r3 := backend_purge what (_readFileBackend fs2) in
          let fs3 := mk (_statBackend fs2) (_readdirBackend fs2) r3.2 (_readJsonBackend fs2)
                        (_readlinkBackend fs2) in
          match r3.1 with
          | Thrown e => (Thrown e, fs3)
          | Normal _ =>
              let r4 := backend_purge what (_readlinkBackend fs3) in
              let fs4 := mk (_statBackend fs3) (_readdirBackend fs3) (_readFileBackend fs3)
                            (_readJsonBackend fs3) r4.2 in
              match r4.1 with
              | Thrown e => (Thrown e, fs4)
              | Normal _ =>
                  let r5 := backend_purge what (_readJsonBackend fs4) in
                  (r5.1,
                   mk (_statBackend fs4) (_readdirBackend fs4) (_readFileBackend fs4)
                      r5.2 (_readlinkBackend fs4))
              end
          end
      end
  end.

(** The synchronous readJson synthesized at lines 371-375, over the
    [provideSync] of the readFile backend. *)
Definition readJsonSync_provider {B} (readFileSync : value → value → M B value)
    (path : value) : M B value :=
  buffer ← readFileSync path VUndefined;
  match parse_json buffer with
  | Normal data => mret data
  | Thrown e => throw e
  end.

(** What a backend has cached for a key; a merger has nothing. *)
Definition backend_cached (b : backend_state) (k : string) : option CacheBackend.entry :=
  match b with
  | BCaching s => CacheBackend.cached s k
  | BMerging _ => None
  end.

(** The part of a backend that a purge has no business with. *)
Definition backend_in_flight (b : backend_state) : World * gmap string nat :=
  match b with
  | BCaching s => (world s, CacheBackend.activeAsyncOperations (self s))
  | BMerging s => (world s, OperationMergerBackend.activeAsyncOperations (self s))
  end.

Definition backends (fs : t) : list backend_state :=
  [_statBackend fs; _readdirBackend fs; _readFileBackend fs; _readJsonBackend fs;
   _readlinkBackend fs].

End defs.
End Facade.

(** The arguments [purge] is written for: nothing, a path, or an iterable of
    paths. *)
Definition purgeable (what : value) : bool :=
  negb (truthy what)
  || match what with
     | VStr _ | VIter _ => true
     | _ => false
     end.

(** An environment in which continuation 1 throws an empty string and
    continuation 2 throws an Error. *)
Definition throwing_env : Environment := {|
  syncProvider := test_syncProvider;
  cb_throws := λ id _ _,
    match id with
    | 1 => Some (VStr "")
    | 2 => Some (VError "boom")
    | _ => None
    end;
  parse_json := λ _, Thrown (VError "Unexpected token")
|}.

(** ** Concurrent calls for one key, under any interleaving *)







Section concurrent_cache.
Context `{Environment}.
Import CacheBackend.








End concurrent_cache.

Section concurrent_merger.
Context `{Environment}.
Import OperationMergerBackend.





End concurrent_merger.

(** * Lemmas and theorems *)

(** ** The LRU cache against its list representation *)

Module LRUFacts.
Import LRUCache.
Section facts.
Context {K : Type} `{Countable K} {V : Type}.
Implicit Types (c : LRUCache.t K V) (l : list (nat * (K * V))) (ns : gmap nat (Node K V)).

Lemma hd_ref_app l1 l2 nx : hd_ref (l1 ++ l2) nx = hd_ref l1 (hd_ref l2 nx).
Proof. by destruct l1. Qed.

Lemma last_ref_cons pv x l : last_ref pv (x :: l) = last_ref (Some x.1) l.
Proof.
  unfold last_ref. destruct l as [|y l]; [done|].
  change (last (x :: y :: l)) with (last (y :: l)).
  by destruct (last (y :: l)) eqn:E; [|by apply last_None in E].
Qed.

Lemma last_ref_app pv l1 l2 : last_ref pv (l1 ++ l2) = last_ref (last_ref pv l1) l2.
Proof.
  revert pv. induction l1 as [|x l1 IH]; intros pv; [done|].
  rewrite <- app_comm_cons, !last_ref_cons. apply IH.
Qed.

Lemma last_ref_snoc pv l x : last_ref pv (l ++ [x]) = Some x.1.
Proof. by rewrite last_ref_app. Qed.

Lemma dseg_app ns pv l1 l2 nx :
  dseg ns pv (l1 ++ l2) nx ↔
  dseg ns pv l1 (hd_ref l2 nx) ∧ dseg ns (last_ref pv l1) l2 nx.
Proof.
  revert pv. induction l1 as [|x l1 IH]; intros pv.
  - simpl. unfold last_ref. simpl. tauto.
  - rewrite <- app_comm_cons. simpl. rewrite hd_ref_app, last_ref_cons, IH. tauto.
Qed.

Lemma dseg_ext ns ns' pv l nx :
  (∀ r, r ∈ l.*1 → ns' !! r = ns !! r) → dseg ns pv l nx → dseg ns' pv l nx.
Proof.
  revert pv. induction l as [|x l IH]; intros pv Hext; [done|].
  simpl. intros [Hx Hl]. split.
  - rewrite Hext; [done|]. rewrite fmap_cons. apply elem_of_cons. by left.
  - apply IH; [|done]. intros r Hr. apply Hext. rewrite fmap_cons.
    apply elem_of_cons. by right.
Qed.

Lemma dseg_alter_notin ns pv l nx f r :
  r ∉ l.*1 → dseg ns pv l nx → dseg (alter f r ns) pv l nx.
Proof.
  intros Hr. apply dseg_ext. intros r' Hr'.
  apply lookup_alter_ne. intros ->. done.
Qed.

Lemma dseg_insert_notin ns pv l nx n r :
  r ∉ l.*1 → dseg ns pv l nx → dseg (<[r:=n]> ns) pv l nx.
Proof.
  intros Hr. apply dseg_ext. intros r' Hr'.
  apply lookup_insert_ne. intros ->. done.
Qed.

(** Redirecting the successor link of the last cell. *)
Lemma dseg_set_next_last ns pv l x nx nx' :
  NoDup (l ++ [x]).*1 →
  dseg ns pv (l ++ [x]) nx →
  dseg (alter (λ n, mkNode (key n) (value n) nx' (prev n)) x.1 ns) pv (l ++ [x]) nx'.
Proof.
  rewrite fmap_app. intros [Hl [Hdisj _]]%NoDup_app.
  rewrite !dseg_app. simpl. intros [H1 [H2 _]]. split.
  - apply dseg_alter_notin; [|done]. intros Hin. apply (Hdisj _ Hin). 
    simpl. apply list_elem_of_singleton. done.
  - split; [|done]. rewrite lookup_alter_eq, H2. done.
Qed.

(** Redirecting the predecessor link of the first cell. *)
Lemma dseg_set_prev_first ns pv pv' l x nx :
  NoDup (x :: l).*1 →
  dseg ns pv (x :: l) nx →
  dseg (alter (λ n, mkNode (key n) (value n) (next n) pv') x.1 ns) pv' (x :: l) nx.
Proof.
  rewrite fmap_cons. intros [Hx Hl]%NoDup_cons.
  simpl. intros [H1 H2]. split.
  - rewrite lookup_alter_eq, H1. done.
  - by apply dseg_alter_notin.
Qed.

Lemma dseg_lookup ns pv l nx r k v :
  dseg ns pv l nx → (r, (k, v)) ∈ l →
  ∃ a b, ns !! r = Some (mkNode k v a b).
Proof.
  revert pv. induction l as [|x l IH]; intros pv Hd Hin.
  - by apply elem_of_nil in Hin.
  - destruct Hd as [Hx Hl]. apply elem_of_cons in Hin as [<-|Hin]; [eauto|].
    eapply IH; eauto.
Qed.

Lemma walk_dseg ns pv l :
  dseg ns pv l None → walk (length l) ns (hd_ref l None) = l.*2.
Proof.
  revert pv. induction l as [|x l IH]; intros pv; [done|].
  simpl. intros [Hx Hl]. rewrite Hx. simpl.
  f_equal; [by destruct x as [? []]|]. by eapply IH.
Qed.


Lemma list_snoc_cases {A} (xs : list A) : xs = [] ∨ ∃ ys y, xs = ys ++ [y].
Proof.
  induction xs as [|y ys _] using rev_ind; [by left|right; eauto].
Qed.

Lemma removeNode_linked c l1 x l2 :
  linked c (l1 ++ x :: l2) →
  linked (removeNode x.1 c) (l1 ++ l2)
  ∧ (∃ a b, nodes (removeNode x.1 c) !! x.1 = Some (mkNode x.2.1 x.2.2 a b))
  ∧ (∀ r, r ∉ (l1 ++ x :: l2).*1 → nodes (removeNode x.1 c) !! r = nodes c !! r)
  ∧ dom (nodes (removeNode x.1 c)) = dom (nodes c)
  ∧ map (removeNode x.1 c) = map c
  ∧ cap (removeNode x.1 c) = cap c.
Proof.
  intros (Hnd & Hseg & Hh & Ht).
  apply dseg_app in Hseg as [Hs1 [Hx Hs2]].
  rewrite hd_ref_app in Hh. rewrite last_ref_app in Ht.
  assert (Hnd' : NoDup (l1 ++ l2).*1).
  { rewrite fmap_app in *. rewrite fmap_cons in Hnd.
    apply NoDup_app in Hnd as (? & Hd & [? ?]%NoDup_cons).
    apply NoDup_app. split_and!; [done| |done].
    intros r Hr Hr2. apply (Hd r Hr). apply elem_of_cons. by right. }
  assert (Hx1 : x.1 ∉ l1.*1).
  { rewrite fmap_app, fmap_cons in Hnd.
    apply NoDup_app in Hnd as (? & Hd & ?). intros Hin. apply (Hd _ Hin).
    apply elem_of_cons. by left. }
  assert (Hx2 : x.1 ∉ l2.*1).
  { rewrite fmap_app, fmap_cons in Hnd.
    by apply NoDup_app in Hnd as (? & Hd & [? ?]%NoDup_cons). }
  assert (Hd12 : ∀ r, r ∈ l1.*1 → r ∉ l2.*1).
  { rewrite fmap_app in Hnd'. by apply NoDup_app in Hnd' as (? & ? & ?). }
  unfold removeNode.
  set (c1 := match prev_of c x.1 with
             | Some p => set_next p (next_of c x.1) c
             | None => set_head (next_of c x.1) c
             end).
  assert (Hc1 : dseg (nodes c1) None l1 (hd_ref l2 None)
                ∧ head c1 = hd_ref l1 (hd_ref l2 None)
                ∧ tail c1 = tail c
                ∧ (∀ r, r ∉ l1.*1 → nodes c1 !! r = nodes c !! r)
                ∧ dom (nodes c1) = dom (nodes c)
                ∧ map c1 = map c ∧ cap c1 = cap c).
  { subst c1. unfold prev_of, next_of. rewrite Hx. simpl.
    destruct (list_snoc_cases l1) as [->|(l1' & p & ->)].
    - simpl. unfold last_ref. simpl. done.
    - rewrite last_ref_snoc. simpl. split_and!; try done.
      + eapply dseg_set_next_last; [|exact Hs1].
        rewrite fmap_app in Hnd'. by apply NoDup_app in Hnd' as (? & ? & ?).
      + rewrite hd_ref_app in Hh. rewrite !hd_ref_app. simpl in *. 
        rewrite Hh. by destruct l1'.
      + intros r Hr. apply lookup_alter_ne. intros <-. apply Hr.
        rewrite fmap_app. apply elem_of_app. right. simpl. apply list_elem_of_singleton. done.
      + apply dom_alter_L. }
  destruct Hc1 as (Hd1 & Hh1 & Ht1 & Hfr1 & Hdom1 & Hm1 & Hcap1).
  assert (Hxc1 : nodes c1 !! x.1 = Some (mkNode x.2.1 x.2.2 (hd_ref l2 None) (last_ref None l1))).
  { by rewrite Hfr1. }
  unfold next_of, prev_of. rewrite Hxc1. simpl.
  destruct l2 as [|q l2]; simpl.
  - rewrite app_nil_r in *. split_and!; try done; [eauto|].
    intros r Hr. apply Hfr1. intros Hin. apply Hr. rewrite fmap_app. apply elem_of_app. by left.
  - assert (Hq : q.1 ∉ l1.*1).
    { intros Hin. apply (Hd12 _ Hin). rewrite fmap_cons. apply elem_of_cons. by left. }
    assert (Hqx : q.1 ≠ x.1).
    { intros Heq. apply Hx2. rewrite fmap_cons, <- Heq. apply elem_of_cons. by left. }
    split; [split_and!|split_and!]; simpl; try done.
    + apply dseg_app. split.
      * by apply dseg_alter_notin.
      * apply (dseg_set_prev_first _ (Some x.1)).
        -- rewrite fmap_app in Hnd'. by apply NoDup_app in Hnd' as (? & ? & ?).
        -- eapply dseg_ext; [|exact Hs2]. intros r Hr. apply Hfr1.
           intros Hin. by apply (Hd12 _ Hin).
    + by rewrite hd_ref_app.
    + rewrite Ht1, Ht, last_ref_app, !last_ref_cons. done.
    + rewrite lookup_alter_ne by done. eauto.
    + intros r Hr. rewrite lookup_alter_ne.
      * apply Hfr1. intros Hin. apply Hr. rewrite fmap_app. apply elem_of_app. by left.
      * intros <-. apply Hr. rewrite fmap_app, !fmap_cons. apply elem_of_app. right.
        apply elem_of_cons. right. apply elem_of_cons. by left.
    + rewrite dom_alter_L. done.
Qed.

Lemma offerNode_linked c l r k v a b :
  linked c l →
  r ∉ l.*1 →
  nodes c !! r = Some (mkNode k v a b) →
  linked (offerNode r c) (l ++ [(r, (k, v))])
  ∧ (∀ r', r' ∉ (l ++ [(r, (k, v))]).*1 → nodes (offerNode r c) !! r' = nodes c !! r')
  ∧ dom (nodes (offerNode r c)) = dom (nodes c)
  ∧ map (offerNode r c) = map c
  ∧ cap (offerNode r c) = cap c.
Proof.
  intros (Hnd & Hseg & Hh & Ht) Hr Hn.
  assert (Hnd' : NoDup (l ++ [(r, (k, v))]).*1).
  { rewrite fmap_app. apply NoDup_app. split_and!; [done| |apply NoDup_singleton].
    intros r' Hr' ->%list_elem_of_singleton. done. }
  unfold offerNode.
  set (c1 := match tail c with
             | Some tl => set_next tl (Some r) c
             | None => c
             end).
  assert (Hc1 : dseg (nodes c1) None l (Some r)
                ∧ head c1 = head c ∧ tail c1 = tail c
                ∧ (∀ r', r' ∉ l.*1 → nodes c1 !! r' = nodes c !! r')
                ∧ dom (nodes c1) = dom (nodes c)
                ∧ map c1 = map c ∧ cap c1 = cap c).
  { subst c1. rewrite Ht.
    destruct (list_snoc_cases l) as [->|(l' & p & ->)].
    - unfold last_ref. simpl. done.
    - rewrite last_ref_snoc. simpl. split_and!; try done.
      + by eapply dseg_set_next_last.
      + by rewrite Ht, last_ref_snoc.
      + intros r' Hr'. apply lookup_alter_ne. intros <-. apply Hr'.
        rewrite fmap_app. apply elem_of_app. right. simpl.
        by apply list_elem_of_singleton.
      + apply dom_alter_L. }
  destruct Hc1 as (Hd1 & Hh1 & Ht1 & Hfr1 & Hdom1 & Hm1 & Hcap1).
  assert (Hrc1 : nodes c1 !! r = Some (mkNode k v a b)) by by rewrite Hfr1.
  simpl. rewrite Hh1, Hh.
  assert (Hns : ∀ c', nodes (match hd_ref l None with
                            | None => set_head (Some r) c'
                            | Some _ => c'
                            end) = nodes c') by (intros; by destruct (hd_ref l None)).
  split_and!.
  - split_and!.
    + done.
    + rewrite Hns. simpl. apply dseg_app. split.
      * simpl. do 2 (apply dseg_alter_notin; [done|]). done.
      * simpl. split; [|done]. rewrite lookup_alter_eq, lookup_alter_eq, Hrc1. simpl.
        by rewrite Ht1, Ht.
    + rewrite hd_ref_app. destruct l; [done|]. simpl. by rewrite Hh1, Hh.
    + rewrite last_ref_snoc. by destruct (hd_ref l None).
  - intros r' Hr'. rewrite fmap_app in Hr'. apply not_elem_of_app in Hr' as [Hr1 Hr2].
    simpl in Hr2. rewrite list_elem_of_singleton in Hr2.
    rewrite Hns. simpl. rewrite !lookup_alter_ne by done. by apply Hfr1.
  - rewrite Hns. simpl. by rewrite !dom_alter_L.
  - by destruct (hd_ref l None).
  - by destruct (hd_ref l None).
Qed.

(** *** Facts about the specification-level list *)

Lemma spec_lookup_notin k (es : list (K * V)) :
  k ∉ es.*1 → spec_lookup k es = None.
Proof.
  unfold spec_lookup. induction es as [|e es IH]; [done|].
  rewrite fmap_cons, not_elem_of_cons. intros [Hne Hk]. simpl.
  rewrite bool_decide_eq_false_2 by done. by apply IH.
Qed.

Lemma spec_lookup_hit k v (es1 es2 : list (K * V)) :
  k ∉ es1.*1 → spec_lookup k (es1 ++ (k, v) :: es2) = Some v.
Proof.
  unfold spec_lookup. induction es1 as [|e es1 IH].
  - intros _. simpl. by rewrite bool_decide_eq_true_2.
  - rewrite fmap_cons, not_elem_of_cons. intros [Hne Hk]. simpl.
    rewrite bool_decide_eq_false_2 by done. by apply IH.
Qed.

Lemma spec_lookup_Some_elem k v (es : list (K * V)) :
  spec_lookup k es = Some v → (k, v) ∈ es.
Proof.
  unfold spec_lookup. induction es as [|[k' v'] es IH]; [done|]. simpl.
  case_bool_decide as Hk; simpl in *.
  - intros [= <-]. subst. apply elem_of_cons. by left.
  - intros Hf. apply elem_of_cons. right. by apply IH.
Qed.

Lemma spec_remove_notin k (es : list (K * V)) :
  k ∉ es.*1 → spec_remove k es = es.
Proof.
  unfold spec_remove. induction es as [|e es IH]; [done|].
  rewrite fmap_cons, not_elem_of_cons. intros [Hne Hk]. simpl.
  rewrite bool_decide_eq_false_2 by done. simpl. f_equal. by apply IH.
Qed.

Lemma spec_remove_hit k v (es1 es2 : list (K * V)) :
  k ∉ es1.*1 → k ∉ es2.*1 →
  spec_remove k (es1 ++ (k, v) :: es2) = es1 ++ es2.
Proof.
  intros H1 H2. unfold spec_remove. rewrite List.filter_app. simpl.
  rewrite bool_decide_eq_true_2 by done. simpl.
  fold (spec_remove k es1). fold (spec_remove k es2).
  by rewrite !spec_remove_notin.
Qed.

(** *** The cache against its representation *)

Lemma keys_of_index l :
  ((λ x : nat * (K * V), (x.2.1, x.1)) <$> l).*1 = l.*2.*1.
Proof. induction l as [|x l IH]; [done|]. simpl. by f_equal. Qed.

Lemma repr_map_eq c l :
  repr c l → map c = list_to_map ((λ x, (x.2.1, x.1)) <$> l).
Proof.
  intros (_ & Hk & Hm). apply map_eq. intros k.
  assert (Hnd : NoDup ((λ x : nat * (K * V), (x.2.1, x.1)) <$> l).*1).
  { by rewrite keys_of_index. }
  apply option_eq. intros r. rewrite Hm.
  rewrite <- (elem_of_list_to_map _ _ _ Hnd), list_elem_of_fmap. split.
  - intros [v Hv]. by exists (r, (k, v)).
  - intros ([r' [k' v']] & [= -> ->] & Hin). eauto.
Qed.

Lemma size_repr c l : repr c l → size c = length l.
Proof.
  intros Hr. unfold size. rewrite (repr_map_eq _ _ Hr).
  rewrite map_size_list_to_map, length_fmap; [done|].
  destruct Hr as (_ & Hk & _). by rewrite keys_of_index.
Qed.

Lemma entries_repr c l : repr c l → entries c = l.*2.
Proof.
  intros Hr. unfold entries. rewrite (size_repr _ _ Hr).
  destruct Hr as ((_ & Hd & Hh & _) & _). rewrite Hh. by eapply walk_dseg.
Qed.

Lemma repr_new capacity : repr (new capacity : LRUCache.t K V) [].
Proof.
  split_and!; [split_and!; try done; apply NoDup_nil_2|apply NoDup_nil_2|].
  intros k r. simpl. rewrite lookup_empty. split; [done|].
  intros [v Hv]. by apply elem_of_nil in Hv.
Qed.

Lemma repr_purge c : repr (purge c) [].
Proof.
  split_and!; [split_and!; try done; apply NoDup_nil_2|apply NoDup_nil_2|].
  intros k r. simpl. rewrite lookup_empty. split; [done|].
  intros [v Hv]. by apply elem_of_nil in Hv.
Qed.

Lemma repr_key_notin c l k :
  repr c l → map c !! k = None → k ∉ l.*2.*1.
Proof.
  intros (_ & _ & Hm) Hk Hin.
  apply list_elem_of_fmap in Hin as ([k' v] & Hkk & Hin).
  apply list_elem_of_fmap in Hin as ([r [k'' v']] & Heq & Hin).
  simpl in *. simplify_eq.
  assert (map c !! k'' = Some r) as Hs by (apply Hm; eauto). congruence.
Qed.

Lemma repr_of_linked_perm c c' l l' :
  repr c l → linked c' l' → map c' = map c → (l' ≡ₚ l) → repr c' l'.
Proof.
  intros (_ & Hk & Hm) Hl Hmap Hp. split_and!; [done| |].
  - by rewrite Hp.
  - intros k r. rewrite Hmap, Hm. by setoid_rewrite Hp.
Qed.

Lemma repr_cell_split c l k r :
  repr c l → map c !! k = Some r →
  ∃ l1 v l2, l = l1 ++ (r, (k, v)) :: l2 ∧ (k ∉ l1.*2.*1) ∧ (k ∉ l2.*2.*1).
Proof.
  intros (_ & Hk & Hm) Hr. apply Hm in Hr as [v Hv].
  apply list_elem_of_split in Hv as (l1 & l2 & ->).
  exists l1, v, l2. split; [done|].
  rewrite !fmap_app, !fmap_cons in Hk. simpl in Hk.
  apply NoDup_app in Hk as (_ & Hd & [H2 _]%NoDup_cons). split; [|done].
  intros Hin. apply (Hd _ Hin). apply elem_of_cons. by left.
Qed.

Lemma get_repr c l k :
  repr c l →
  ∃ l', repr (get k c).2 l'
        ∧ ((get k c).1, l'.*2) = spec_get k l.*2
        ∧ cap (get k c).2 = cap c.
Proof.
  intros Hr. unfold get. destruct (map c !! k) as [r|] eqn:Hk.
  - destruct (repr_cell_split _ _ _ _ Hr Hk) as (l1 & v & l2 & -> & Hk1 & Hk2).
    pose proof Hr as (Hl & _).
    destruct (removeNode_linked _ _ (r, (k, v)) _ Hl)
      as (Hl1 & (a & b & Hn1) & _ & _ & Hm1 & Hc1).
    simpl in *.
    assert (Hr1 : r ∉ (l1 ++ l2).*1).
    { destruct Hl as (Hnd & _). rewrite fmap_app in *. rewrite fmap_cons in Hnd.
      apply NoDup_app in Hnd as (_ & Hd & [Hx _]%NoDup_cons).
      intros [Hin|Hin]%elem_of_app; [|done].
      apply (Hd _ Hin). apply elem_of_cons. by left. }
    destruct (offerNode_linked _ _ _ _ _ _ _ Hl1 Hr1 Hn1) as (Hl2 & _ & _ & Hm2 & Hc2).
    exists ((l1 ++ l2) ++ [(r, (k, v))]). simpl. split_and!.
    + eapply repr_of_linked_perm; [exact Hr|done|by rewrite Hm2|].
      rewrite <- app_assoc. f_equiv. symmetry. apply Permutation_cons_append.
    + destruct Hl2 as (_ & Hd & _).
      destruct (dseg_lookup _ _ _ _ r k v Hd) as (a' & b' & ->).
      { apply elem_of_app. right. by apply list_elem_of_singleton. }
      simpl. unfold spec_get. rewrite !fmap_app, fmap_cons. simpl.
      rewrite spec_lookup_hit by done. by rewrite spec_remove_hit.
    + by rewrite Hc2.
  - exists l. simpl. split_and!; try done.
    unfold spec_get. rewrite spec_lookup_notin; [done|]. by eapply repr_key_notin.
Qed.

Lemma dseg_set_value ns pv l1 r k v0 v l2 nx :
  NoDup (l1 ++ (r, (k, v0)) :: l2).*1 →
  dseg ns pv (l1 ++ (r, (k, v0)) :: l2) nx →
  dseg (alter (λ n, mkNode (key n) v (next n) (prev n)) r ns) pv
       (l1 ++ (r, (k, v)) :: l2) nx.
Proof.
  rewrite fmap_app, fmap_cons. simpl.
  intros (_ & Hd & [Hr2 _]%NoDup_cons)%NoDup_app.
  rewrite !dseg_app. simpl. intros (H1 & H2 & H3). split_and!.
  - apply dseg_alter_notin; [|done]. intros Hin. apply (Hd _ Hin).
    apply elem_of_cons. by left.
  - by rewrite lookup_alter_eq, H2.
  - by apply dseg_alter_notin.
Qed.

Lemma repr_set_value c l1 r k v0 v l2 :
  repr c (l1 ++ (r, (k, v0)) :: l2) →
  repr (set_value r v c) (l1 ++ (r, (k, v)) :: l2).
Proof.
  intros ((Hnd & Hd & Hh & Ht) & Hk & Hm). split_and!.
  - split_and!; simpl.
    + by rewrite fmap_app, fmap_cons in *.
    + by apply (dseg_set_value _ _ _ _ _ v0).
    + rewrite Hh. by destruct l1.
    + rewrite Ht. by rewrite !last_ref_app, !last_ref_cons.
  - by rewrite !fmap_app, !fmap_cons in *.
  - intros k' r'. simpl. rewrite Hm. split; intros [v' Hv'].
    + apply elem_of_app in Hv' as [?|Hv']; [exists v'; apply elem_of_app; by left|].
      apply elem_of_cons in Hv' as [[= -> -> ->]|?].
      * exists v. apply elem_of_app. right. apply elem_of_cons. by left.
      * exists v'. apply elem_of_app. right. apply elem_of_cons. by right.
    + apply elem_of_app in Hv' as [?|Hv']; [exists v'; apply elem_of_app; by left|].
      apply elem_of_cons in Hv' as [[= -> -> ->]|?].
      * exists v0. apply elem_of_app. right. apply elem_of_cons. by left.
      * exists v'. apply elem_of_app. right. apply elem_of_cons. by right.
Qed.

(** Lines 133-136: dropping the head cell. *)
Lemma repr_evict c x l :
  repr c (x :: l) →
  repr (removeNode x.1 (set_map (delete x.2.1 (map c)) c)) l
  ∧ cap (removeNode x.1 (set_map (delete x.2.1 (map c)) c)) = cap c.
Proof.
  intros (Hl & Hk & Hm).
  assert (Hl0 : linked (set_map (delete x.2.1 (map c)) c) ([] ++ x :: l)) by done.
  destruct (removeNode_linked _ _ _ _ Hl0) as (Hl1 & _ & _ & _ & Hm1 & Hc1).
  simpl in *. apply NoDup_cons in Hk as [Hx Hk].
  split; [|done]. split_and!; [done|done|].
  intros k r. rewrite Hm1. destruct (decide (k = x.2.1)) as [->|Hne].
  - rewrite lookup_delete_eq. split; [done|]. intros [v Hv]. exfalso. apply Hx.
    apply list_elem_of_fmap. exists (x.2.1, v). split; [done|].
    apply list_elem_of_fmap. by exists (r, (x.2.1, v)).
  - rewrite lookup_delete_ne by done. rewrite Hm. split; intros [v Hv]; exists v.
    + apply elem_of_cons in Hv as [<-|?]; [done|done].
    + apply elem_of_cons. by right.
Qed.

(** Lines 138-141: linking a newly allocated node at the tail. *)
Lemma repr_insert_fresh c l k v :
  repr c l → map c !! k = None →
  let node := fresh (dom (nodes c)) in
  let c3 := offerNode node (set_nodes (<[node := mkNode k v None None]> (nodes c)) c) in
  repr (set_map (<[k := node]> (map c3)) c3) (l ++ [(node, (k, v))])
  ∧ cap (set_map (<[k := node]> (map c3)) c3) = cap c.
Proof.
  intros Hr Hk node c3. pose proof Hr as ((Hnd & Hd & Hh & Ht) & Hks & Hm).
  assert (Hfresh : node ∉ l.*1).
  { intros Hin. apply list_elem_of_fmap in Hin as ([r [k' v']] & Heq & Hin).
    simpl in Heq. subst r.
    destruct (dseg_lookup _ _ _ _ _ _ _ Hd Hin) as (a & b & Hn).
    apply (is_fresh (dom (nodes c))). apply elem_of_dom. by eexists. }
  assert (Hl2 : linked (set_nodes (<[node := mkNode k v None None]> (nodes c)) c) l).
  { split_and!; simpl; try done. by apply dseg_insert_notin. }
  assert (Hn2 : nodes (set_nodes (<[node := mkNode k v None None]> (nodes c)) c) !! node
                = Some (mkNode k v None None)) by (simpl; apply lookup_insert_eq).
  destruct (offerNode_linked _ _ _ _ _ _ _ Hl2 Hfresh Hn2) as (Hl3 & _ & _ & Hm3 & Hc3).
  fold c3 in Hl3, Hm3, Hc3. simpl in Hm3, Hc3.
  pose proof (repr_key_notin _ _ _ Hr Hk) as Hkn.
  split; [|done]. split_and!.
  - done.
  - rewrite !fmap_app. simpl. apply NoDup_app. split_and!; [done| |apply NoDup_singleton].
    intros k' Hin ->%list_elem_of_singleton. done.
  - intros k' r'. simpl. rewrite Hm3. destruct (decide (k' = k)) as [->|Hne].
    + rewrite lookup_insert_eq. split.
      * intros [= <-]. exists v. apply elem_of_app. right. by apply list_elem_of_singleton.
      * intros [v' [Hin|Hin]%elem_of_app].
        -- exfalso. apply Hkn. apply list_elem_of_fmap. exists (k, v'). split; [done|].
           apply list_elem_of_fmap. by exists (r', (k, v')).
        -- apply list_elem_of_singleton in Hin. by simplify_eq.
    + rewrite lookup_insert_ne by done. rewrite Hm. split; intros [v' Hv']; exists v'.
      * apply elem_of_app. by left.
      * apply elem_of_app in Hv' as [?|Hv']; [done|].
        apply list_elem_of_singleton in Hv'. by simplify_eq.
Qed.

Lemma put_repr c l k v :
  repr c l → (1 ≤ cap c)%Z →
  ∃ c' l', put k v c = Some c'
           ∧ repr c' l'
           ∧ l'.*2 = spec_put (cap c) k v l.*2
           ∧ cap c' = cap c.
Proof.
  intros Hr Hcap. unfold put. destruct (map c !! k) as [r|] eqn:Hk.
  - destruct (repr_cell_split _ _ _ _ Hr Hk) as (l1 & v0 & l2 & -> & Hk1 & Hk2).
    pose proof (repr_set_value _ _ _ _ _ v _ Hr) as Hr0.
    pose proof Hr0 as (Hl & _).
    destruct (removeNode_linked _ _ (r, (k, v)) _ Hl)
      as (Hl1 & (a & b & Hn1) & _ & _ & Hm1 & Hc1).
    simpl in *.
    assert (Hr1 : r ∉ (l1 ++ l2).*1).
    { destruct Hl as (Hnd & _). rewrite fmap_app in *. rewrite fmap_cons in Hnd.
      apply NoDup_app in Hnd as (_ & Hd & [Hx _]%NoDup_cons).
      intros [Hin|Hin]%elem_of_app; [|done].
      apply (Hd _ Hin). apply elem_of_cons. by left. }
    destruct (offerNode_linked _ _ _ _ _ _ _ Hl1 Hr1 Hn1) as (Hl2 & _ & _ & Hm2 & Hc2).
    eexists _, ((l1 ++ l2) ++ [(r, (k, v))]). split_and!; [done| | |].
    + eapply repr_of_linked_perm; [exact Hr0|done|by rewrite Hm2|].
      rewrite <- app_assoc. f_equiv. symmetry. apply Permutation_cons_append.
    + unfold spec_put. rewrite !fmap_app, fmap_cons. simpl.
      rewrite (spec_lookup_hit k v0) by done. by rewrite spec_remove_hit.
    + by rewrite Hc2.
  - pose proof (repr_key_notin _ _ _ Hr Hk) as Hkn.
    unfold spec_put. rewrite (spec_lookup_notin k l.*2) by done.
    rewrite length_fmap, <- (size_repr _ _ Hr). unfold size.
    destruct (Z.of_nat (stdpp.base.size (map c)) >=? cap c)%Z eqn:Hfull.
    + destruct l as [|x l].
      { apply size_repr in Hr. unfold size in Hr. simpl in Hr. lia. }
      pose proof Hr as ((_ & [Hx _] & Hh & _) & _). simpl in Hh, Hx.
      rewrite Hh. simpl. rewrite Hx. simpl.
      destruct (repr_evict _ _ _ Hr) as [Hr1 Hc1].
      assert (Hk1 : map (removeNode x.1 (set_map (delete x.2.1 (map c)) c)) !! k = None).
      { destruct (map (removeNode x.1 (set_map (delete x.2.1 (map c)) c)) !! k) as [r|] eqn:E;
          [|done].
        destruct Hr1 as (_ & _ & Hm1). apply Hm1 in E as [v' Hv']. exfalso. apply Hkn.
        apply list_elem_of_fmap. exists (k, v'). split; [done|].
        apply list_elem_of_fmap. exists (r, (k, v')). split; [done|].
        apply elem_of_cons. by right. }
      destruct (repr_insert_fresh _ _ k v Hr1 Hk1) as [Hr2 Hc2].
      eexists _, _. split_and!; [done|exact Hr2| |].
      * by rewrite fmap_app.
      * by rewrite Hc2.
    + simpl. destruct (repr_insert_fresh _ _ k v Hr Hk) as [Hr2 Hc2].
      eexists _, _. split_and!; [done|exact Hr2| |done].
      by rewrite fmap_app.
Qed.

(** *** Runs of operations *)

Lemma spec_put_length capacity k v (es : list (K * V)) :
  NoDup es.*1 → (1 ≤ capacity)%Z → (Z.of_nat (length es) ≤ capacity)%Z →
  (Z.of_nat (length (spec_put capacity k v es)) ≤ capacity)%Z.
Proof.
  intros Hnd Hc Hlen. unfold spec_put.
  destruct (spec_lookup k es) as [v0|] eqn:Hl.
  - apply spec_lookup_Some_elem in Hl.
    apply list_elem_of_split in Hl as (es1 & es2 & ->).
    rewrite fmap_app, fmap_cons in Hnd. simpl in Hnd.
    apply NoDup_app in Hnd as (_ & Hd & [H2 _]%NoDup_cons).
    rewrite spec_remove_hit; [|intros Hin; apply (Hd _ Hin), elem_of_cons; by left|done].
    rewrite !length_app in *. simpl in *. lia.
  - destruct (Z.of_nat (length es) >=? capacity)%Z eqn:E; rewrite length_app; simpl.
    + destruct es; simpl in *; lia.
    + lia.
Qed.

Lemma spec_get_length k (es : list (K * V)) :
  NoDup es.*1 → length (spec_get k es).2 = length es.
Proof.
  intros Hnd. unfold spec_get.
  destruct (spec_lookup k es) as [v0|] eqn:Hl; [|done].
  apply spec_lookup_Some_elem in Hl.
  apply list_elem_of_split in Hl as (es1 & es2 & ->).
  rewrite fmap_app, fmap_cons in Hnd. simpl in Hnd.
  apply NoDup_app in Hnd as (_ & Hd & [H2 _]%NoDup_cons). simpl.
  rewrite spec_remove_hit; [|intros Hin; apply (Hd _ Hin), elem_of_cons; by left|done].
  repeat (rewrite ?length_app; simpl). lia.
Qed.


Lemma bounded_new capacity : (1 ≤ capacity)%Z → bounded (new capacity : LRUCache.t K V).
Proof. intros Hc. exists []. split; [apply repr_new|]. simpl. lia. Qed.

Lemma bounded_purge c : (1 ≤ cap c)%Z → bounded (purge c).
Proof. intros Hc. exists []. split; [apply repr_purge|]. simpl. lia. Qed.

Lemma bounded_get c k : bounded c → bounded (get k c).2 ∧ cap (get k c).2 = cap c.
Proof.
  intros (l & Hr & Hc & Hlen).
  destruct (get_repr _ _ k Hr) as (l' & Hr' & Hs & Hcap). split; [|done].
  exists l'. rewrite Hcap. split_and!; [done..|].
  assert (length l' = length l) as ->; [|done].
  rewrite <- (length_fmap snd l'), <- (length_fmap snd l).
  assert (l'.*2 = (spec_get k l.*2).2) as -> by by rewrite <- Hs.
  apply spec_get_length. by destruct Hr as (_ & ? & _).
Qed.

Lemma bounded_put c k v :
  bounded c → ∃ c', put k v c = Some c' ∧ bounded c' ∧ cap c' = cap c.
Proof.
  intros (l & Hr & Hc & Hlen).
  destruct (put_repr _ _ k v Hr Hc) as (c' & l' & Hp & Hr' & Hs & Hcap).
  exists c'. split_and!; [done| |done]. exists l'. rewrite Hcap. split_and!; [done..|].
  rewrite <- (length_fmap snd l'), Hs. apply spec_put_length; [|done|by rewrite length_fmap].
  by destruct Hr as (_ & ? & _).
Qed.

Lemma bounded_run ops c :
  bounded c → ∃ c', run ops c = Some c' ∧ bounded c' ∧ cap c' = cap c.
Proof.
  revert c. induction ops as [|[k|k v] ops IH]; intros c Hb; simpl.
  - eauto.
  - destruct (bounded_get _ k Hb) as [Hb' Hc].
    destruct (IH _ Hb') as (c' & Hrun & Hb'' & Hc'). exists c'. split_and!; [done..|congruence].
  - destruct (bounded_put _ k v Hb) as (c1 & -> & Hb' & Hc). simpl.
    destruct (IH _ Hb') as (c' & Hrun & Hb'' & Hc'). exists c'. split_and!; [done..|congruence].
Qed.

Lemma bounded_size c : bounded c → (Z.of_nat (size c) ≤ cap c)%Z.
Proof. intros (l & Hr & Hc & Hlen). by rewrite (size_repr _ _ Hr). Qed.

(** *** Recency against the history of touches *)

Lemma keys_spec_remove k (es : list (K * V)) :
  (spec_remove k es).*1 = List.filter (λ x, negb (bool_decide (x = k))) es.*1.
Proof.
  unfold spec_remove. induction es as [|e es IH]; [done|]. simpl.
  destruct (bool_decide (e.1 = k)); simpl; [exact IH|f_equal; exact IH].
Qed.

Lemma filter_notin k (ks : list K) :
  k ∉ ks → List.filter (λ x, negb (bool_decide (x = k))) ks = ks.
Proof.
  induction ks as [|x ks IH]; [done|].
  rewrite not_elem_of_cons. intros [Hne Hk]. simpl.
  rewrite bool_decide_eq_false_2 by done. simpl. f_equal. by apply IH.
Qed.

Lemma touch_app (pre ks : list K) (k : K) :
  touch (pre ++ ks) k
  = List.filter (λ x, negb (bool_decide (x = k))) pre ++ touch ks k.
Proof. unfold touch. by rewrite List.filter_app, <- app_assoc. Qed.

Lemma spec_lookup_None_notin k (es : list (K * V)) :
  spec_lookup k es = None → k ∉ es.*1.
Proof.
  unfold spec_lookup. induction es as [|e es IH]; simpl.
  - intros _. apply not_elem_of_nil.
  - case_bool_decide; [done|]. intros Hf. apply not_elem_of_cons. split; [done|].
    by apply IH.
Qed.

Lemma spec_get_keys k (es : list (K * V)) :
  (spec_get k es).2.*1
  = match spec_lookup k es with
    | Some _ => touch es.*1 k
    | None => es.*1
    end.
Proof.
  unfold spec_get. destruct (spec_lookup k es); [|done]. simpl.
  rewrite fmap_app. simpl. by rewrite keys_spec_remove.
Qed.

Lemma spec_put_keys_suffix capacity k v (es : list (K * V)) :
  ∃ pre, touch es.*1 k = pre ++ (spec_put capacity k v es).*1.
Proof.
  unfold spec_put. destruct (spec_lookup k es) as [v0|] eqn:Hl.
  - exists []. simpl. rewrite fmap_app. simpl. by rewrite keys_spec_remove.
  - apply spec_lookup_None_notin in Hl. unfold touch. rewrite filter_notin by done.
    destruct (Z.of_nat (length es) >=? capacity)%Z.
    + destruct es as [|e es]; [by exists []|]. exists [e.1]. simpl.
      by rewrite fmap_app.
    + exists []. simpl. by rewrite fmap_app.
Qed.

Lemma get_hit_iff c l k :
  repr c l → is_Some (map c !! k) ↔ is_Some (spec_lookup k l.*2).
Proof.
  intros Hr. split.
  - intros [r Hk].
    destruct (repr_cell_split _ _ _ _ Hr Hk) as (l1 & v & l2 & -> & Hk1 & Hk2).
    rewrite fmap_app, fmap_cons. simpl. rewrite spec_lookup_hit by done. eauto.
  - intros [v Hv]. destruct (map c !! k) eqn:E; [eauto|].
    rewrite spec_lookup_notin in Hv; [done|]. by eapply repr_key_notin.
Qed.

Lemma run_recency ops c l acc :
  repr c l → (1 ≤ cap c)%Z →
  (∃ pre, acc = pre ++ l.*2.*1) →
  ∀ c', run ops c = Some c' →
  ∃ pre', fold_left touch (touch_log ops c) acc = pre' ++ (entries c').*1.
Proof.
  revert c l acc. induction ops as [|[k|k v] ops IH]; intros c l acc Hr Hc [pre ->] c' Hrun.
  - simpl in *. injection Hrun as <-. rewrite (entries_repr _ _ Hr). eauto.
  - simpl in Hrun. simpl.
    destruct (get_repr _ _ k Hr) as (l' & Hr' & Hs & Hcap).
    assert (Hk : l'.*2.*1 = (spec_get k l.*2).2.*1) by by rewrite <- Hs.
    rewrite spec_get_keys in Hk. rewrite fold_left_app.
    eapply (IH _ l'); [done|by rewrite Hcap| |done].
    pose proof (get_hit_iff _ _ k Hr) as Hiff.
    destruct (map c !! k) as [r|] eqn:Hm.
    + destruct (proj1 Hiff) as [v Hv]; [eauto|]. rewrite Hv in Hk. simpl.
      rewrite touch_app, Hk. eauto.
    + destruct (spec_lookup k l.*2) as [v|] eqn:Hv.
      { destruct (proj2 Hiff) as [? ?]; [eauto|done]. }
      simpl. rewrite Hk. eauto.
  - simpl in Hrun. simpl.
    destruct (put_repr _ _ k v Hr Hc) as (c1 & l' & Hp & Hr' & Hs & Hcap).
    rewrite Hp in *. simpl in Hrun.
    eapply (IH _ l'); [done|by rewrite Hcap| |done].
    rewrite touch_app, Hs.
    destruct (spec_put_keys_suffix (cap c) k v l.*2) as [pre' ->].
    rewrite app_assoc. eauto.
Qed.

(** *** Lookups without reordering *)

Lemma spec_lookup_app k (es1 es2 : list (K * V)) :
  spec_lookup k (es1 ++ es2)
  = match spec_lookup k es1 with
    | Some v => Some v
    | None => spec_lookup k es2
    end.
Proof.
  unfold spec_lookup. induction es1 as [|e es1 IH]; [done|]. simpl.
  by destruct (bool_decide (e.1 = k)).
Qed.

Lemma spec_lookup_cons_ne k k' v (es : list (K * V)) :
  k' ≠ k → spec_lookup k ((k', v) :: es) = spec_lookup k es.
Proof. intros Hne. unfold spec_lookup. simpl. by rewrite bool_decide_eq_false_2. Qed.

Lemma spec_lookup_cons_eq k v (es : list (K * V)) :
  spec_lookup k ((k, v) :: es) = Some v.
Proof. unfold spec_lookup. simpl. by rewrite bool_decide_eq_true_2. Qed.

(** A [get] moves an entry; it does not change what any key maps to. *)
Lemma spec_get_lookup k k' (es : list (K * V)) :
  NoDup es.*1 → spec_lookup k' (spec_get k es).2 = spec_lookup k' es.
Proof.
  intros Hnd. unfold spec_get. destruct (spec_lookup k es) as [v|] eqn:Hl; [|done].
  apply spec_lookup_Some_elem in Hl.
  apply list_elem_of_split in Hl as (es1 & es2 & ->).
  rewrite fmap_app, fmap_cons in Hnd. simpl in Hnd.
  apply NoDup_app in Hnd as (_ & Hd & [H2 _]%NoDup_cons).
  assert (H1 : k ∉ es1.*1) by (intros Hin; apply (Hd _ Hin), elem_of_cons; by left).
  simpl. rewrite spec_remove_hit by done.
  rewrite <- app_assoc, !spec_lookup_app.
  destruct (spec_lookup k' es1) as [v1|] eqn:E1; [done|].
  destruct (decide (k' = k)) as [->|Hne].
  - rewrite spec_lookup_cons_eq, (spec_lookup_notin k es2) by done.
    by rewrite spec_lookup_cons_eq.
  - rewrite !(spec_lookup_cons_ne k') by done.
    destruct (spec_lookup k' es2); [done|]. done.
Qed.

Lemma spec_put_lookup capacity k v (es : list (K * V)) :
  spec_lookup k (spec_put capacity k v es) = Some v.
Proof.
  unfold spec_put. destruct (spec_lookup k es) as [v0|] eqn:Hl.
  - rewrite spec_lookup_app. rewrite spec_lookup_notin.
    + apply spec_lookup_cons_eq.
    + rewrite keys_spec_remove. intros Hin%list_elem_of_In.
      apply List.filter_In in Hin as [_ Hin]. by rewrite bool_decide_eq_true_2 in Hin.
  - apply spec_lookup_None_notin in Hl. rewrite spec_lookup_app, spec_lookup_notin.
    + apply spec_lookup_cons_eq.
    + destruct (Z.of_nat (length es) >=? capacity)%Z; [|done].
      destruct es as [|e es]; [done|]. simpl in *.
      by apply not_elem_of_cons in Hl as [_ ?].
Qed.

Lemma bounded_get_lookup c k :
  bounded c →
  (get k c).1 = spec_lookup k (entries c)
  ∧ ∀ k', spec_lookup k' (entries (get k c).2) = spec_lookup k' (entries c).
Proof.
  intros (l & Hr & _).
  destruct (get_repr _ _ k Hr) as (l' & Hr' & Hs & _).
  rewrite (entries_repr _ _ Hr), (entries_repr _ _ Hr').
  assert (H1 : (get k c).1 = (spec_get k l.*2).1) by by rewrite <- Hs.
  assert (H2 : l'.*2 = (spec_get k l.*2).2) by by rewrite <- Hs.
  split.
  - rewrite H1. unfold spec_get. by destruct (spec_lookup k l.*2).
  - intros k'. rewrite H2. apply spec_get_lookup. by destruct Hr as (_ & ? & _).
Qed.

Lemma bounded_put_lookup c k v :
  bounded c →
  ∃ c', put k v c = Some c' ∧ bounded c' ∧ cap c' = cap c
        ∧ spec_lookup k (entries c') = Some v.
Proof.
  intros (l & Hr & Hc & Hlen).
  destruct (put_repr _ _ k v Hr Hc) as (c' & l' & Hp & Hr' & Hs & Hcap).
  destruct (bounded_put c k v) as (c'' & Hp' & Hb & _); [by exists l|].
  rewrite Hp in Hp'. injection Hp' as <-.
  exists c'. split_and!; try done.
  rewrite (entries_repr _ _ Hr'), Hs. apply spec_put_lookup.
Qed.

Lemma entries_purge c : entries (purge c) = [].
Proof. done. Qed.

(** C6: a cache of capacity at least one never holds more entries than its
    capacity; its entries are kept in order of last touch, so that they are
    always the most recently touched keys of the history; putting a new key
    into a full cache drops the first entry in that order, the least recently
    touched one; and a [get] that finds its key, like any [put], moves the
    touched entry to the most recently used end. *)
Theorem lru_bounded_and_ordered_by_recency (capacity : Z) (ops : list (op K V)) :
  (1 ≤ capacity)%Z →
  ∃ c, run ops (new capacity) = Some c
    ∧ (Z.of_nat (size c) ≤ capacity)%Z
    ∧ (∃ older, recency (touch_log ops (new capacity)) = older ++ (entries c).*1)
    ∧ (∀ k v, map c !! k = None → Z.of_nat (size c) = capacity →
         ∃ c', put k v c = Some c'
               ∧ entries c' = List.tl (entries c) ++ [(k, v)])
    ∧ (∀ k v, map c !! k = None → (Z.of_nat (size c) < capacity)%Z →
         ∃ c', put k v c = Some c' ∧ entries c' = entries c ++ [(k, v)])
    ∧ (∀ k v, is_Some (map c !! k) →
         ∃ c', put k v c = Some c'
               ∧ entries c' = spec_remove k (entries c) ++ [(k, v)])
    ∧ (∀ k v, (get k c).1 = Some v →
         entries (get k c).2 = spec_remove k (entries c) ++ [(k, v)]).
Proof.
  intros Hcap.
  destruct (bounded_run ops (new capacity) (bounded_new capacity Hcap))
    as (c & Hrun & Hb & Hc).
  simpl in Hc. exists c. split; [done|].
  pose proof (bounded_size _ Hb) as Hsz. rewrite Hc in Hsz. split; [done|].
  split.
  { eapply (run_recency ops (new capacity) [] []); [apply repr_new|done| |done].
    by exists []. }
  destruct Hb as (l & Hr & Hc1 & Hlen).
  assert (Hput : ∀ k v, ∃ c', put k v c = Some c'
                              ∧ entries c' = spec_put capacity k v (entries c)).
  { intros k v. destruct (put_repr _ _ k v Hr Hc1) as (c' & l' & Hp & Hr' & Hs & _).
    exists c'. split; [done|].
    by rewrite (entries_repr _ _ Hr'), (entries_repr _ _ Hr), Hs, Hc. }
  assert (Hmiss : ∀ k, map c !! k = None → spec_lookup k (entries c) = None).
  { intros k Hk. rewrite (entries_repr _ _ Hr). apply spec_lookup_notin.
    by eapply repr_key_notin. }
  assert (Hlen' : length (entries c) = size c).
  { by rewrite (entries_repr _ _ Hr), length_fmap, (size_repr _ _ Hr). }
  split_and!.
  - intros k v Hk Hfull. destruct (Hput k v) as (c' & Hp & He). exists c'.
    split; [done|]. rewrite He. unfold spec_put. rewrite (Hmiss k Hk), Hlen'.
    by destruct (Z.geb_spec (Z.of_nat (size c)) capacity); [|lia].
  - intros k v Hk Hroom. destruct (Hput k v) as (c' & Hp & He). exists c'.
    split; [done|]. rewrite He. unfold spec_put. rewrite (Hmiss k Hk), Hlen'.
    by destruct (Z.geb_spec (Z.of_nat (size c)) capacity); [lia|].
  - intros k v Hk. destruct (Hput k v) as (c' & Hp & He). exists c'.
    split; [done|]. rewrite He. unfold spec_put.
    apply (get_hit_iff _ _ k Hr) in Hk as [v0 Hv0].
    rewrite (entries_repr _ _ Hr). by rewrite Hv0.
  - intros k v Hg. destruct (get_repr _ _ k Hr) as (l' & Hr' & Hs & _).
    rewrite (entries_repr _ _ Hr'), (entries_repr _ _ Hr).
    assert (H1 : (get k c).1 = (spec_get k l.*2).1) by by rewrite <- Hs.
    assert (H2 : l'.*2 = (spec_get k l.*2).2) by by rewrite <- Hs.
    rewrite H2. rewrite Hg in H1. unfold spec_get in *.
    destruct (spec_lookup k l.*2) as [v0|]; [|done]. simpl in *. congruence.
Qed.

End facts.
End LRUFacts.

(** ** Callbacks and runCallbacks *)

(** Unfolds the monad of the backends down to functions on states. *)
Ltac munfold :=
  unfold mbind, M_bind, mret, M_ret, throw, try_catch, get_world, get_self,
    modify_world, modify_self in *.

Section world_facts.
Context `{Environment}.


Lemma invoke_user {B} i err result (s : state B) :
  invoke (CbUser i) err result s
  = (match cb_throws i err result with
     | Some e => Thrown e
     | None => Normal tt
     end,
     mkState (add_delivered (mkDelivery (CbUser i) err result) (world s)) (self s)).
Proof. simpl. munfold. simpl. by destruct (cb_throws i err result). Qed.

(** A callback invocation only adds to the record of deliveries. *)
Lemma invoke_frame {B} cb err result (s : state B) :
  self (invoke cb err result s).2 = self s
  ∧ arrays (world (invoke cb err result s).2) = arrays (world s)
  ∧ pending (world (invoke cb err result s).2) = pending (world s)
  ∧ trace (world (invoke cb err result s).2) = trace (world s)
  ∧ ∃ more, delivered (world (invoke cb err result s).2)
            = delivered (world s) ++ mkDelivery cb err result :: more.
Proof.
  revert err result s. induction cb as [i|cb IH]; intros err result s.
  - rewrite invoke_user. simpl. split_and!; try done. by exists [].
  - simpl. munfold. simpl.
    set (s1 := mkState (add_delivered (mkDelivery (CbJson cb) err result) (world s)) (self s)).
    assert (Hgen : ∀ e r,
      self (invoke cb e r s1).2 = self s
      ∧ arrays (world (invoke cb e r s1).2) = arrays (world s)
      ∧ pending (world (invoke cb e r s1).2) = pending (world s)
      ∧ trace (world (invoke cb e r s1).2) = trace (world s)
      ∧ ∃ more, delivered (world (invoke cb e r s1).2)
                = delivered (world s) ++ mkDelivery (CbJson cb) err result :: more).
    { intros e r. destruct (IH e r s1) as (H1 & H2 & H3 & H4 & more & H5).
      split_and!; try done. exists (mkDelivery cb e r :: more).
      rewrite H5. simpl. by rewrite <- app_assoc. }
    destruct (truthy err); [apply Hgen|].
    destruct (negb (truthy result) || length_is_zero result); [apply Hgen|].
    destruct (parse_json result); apply Hgen.
Qed.


Lemma add_deliveries_nil w : add_deliveries [] w = w.
Proof. destruct w. unfold add_deliveries. simpl. by rewrite app_nil_r. Qed.

Lemma add_deliveries_cons d ds w :
  add_deliveries ds (add_delivered d w) = add_deliveries (d :: ds) w.
Proof. unfold add_deliveries, add_delivered. simpl. by rewrite <- app_assoc. Qed.

Lemma deliver_each_cons {B} cb rest err result error (s : state B) :
  deliver_each (cb :: rest) err result error s
  = match (invoke cb err result s).1 with
    | Normal _ => deliver_each rest err result error (invoke cb err result s).2
    | Thrown e =>
        deliver_each rest err result (if negb (truthy error) then e else error)
          (invoke cb err result s).2
    end.
Proof.
  change (deliver_each (cb :: rest) err result error s)
    with (mbind (M := M B) (λ r : completion (),
            match r with
            | Normal _ => deliver_each rest err result error
            | Thrown e => deliver_each rest err result (if negb (truthy error) then e else error)
            end) (try_catch (invoke cb err result)) s).
  munfold. simpl. by destruct (invoke cb err result s).1.
Qed.

(** The loop reaches every continuation, whether or not one of them throws. *)
Lemma deliver_each_users {B} ids err result error (s : state B) :
  ∃ error', deliver_each (CbUser <$> ids) err result error s
            = (Normal error',
               mkState (add_deliveries (deliveries_to ids err result) (world s)) (self s)).
Proof.
  revert error s. induction ids as [|i ids IH]; intros error s.
  - exists error. simpl. munfold. rewrite add_deliveries_nil. by destruct s.
  - rewrite fmap_cons, deliver_each_cons, invoke_user. simpl.
    destruct (cb_throws i err result) as [e|]; simpl.
    + destruct (IH (if negb (truthy error) then e else error)
                  (mkState (add_delivered (mkDelivery (CbUser i) err result) (world s)) (self s)))
        as [error' ->].
      exists error'. simpl. by rewrite add_deliveries_cons.
    + destruct (IH error
                  (mkState (add_delivered (mkDelivery (CbUser i) err result) (world s)) (self s)))
        as [error' ->].
      exists error'. simpl. by rewrite add_deliveries_cons.
Qed.

Lemma runCallbacks_unfold {B} r err result (s : state B) :
  runCallbacks r err result s
  = match default [] (arrays (world s) !! r) with
    | [callback] => invoke callback err result s
    | cbs =>
        match deliver_each cbs err result VUndefined s with
        | (Normal error, s1) =>
            (if truthy error then Thrown error else Normal tt,
             mkState (set_arrays (alter (λ _, []) r (arrays (world s1))) (world s1))
                     (self s1))
        | (Thrown e, s1) => (Thrown e, s1)
        end
    end.
Proof.
  unfold runCallbacks, read_array. munfold. cbn [world].
  destruct (default [] (arrays (world s) !! r)) as [|cb [|cb' cbs]]; try done.
  destruct (deliver_each (cb :: cb' :: cbs) err result VUndefined s) as [[error|e] s1];
    [|done].
  by destruct (truthy error).
Qed.

(** runCallbacks delivers to every queued continuation, in queue order; it
    leaves the provider and the backend alone. *)
Lemma runCallbacks_users {B} r ids err result (s : state B) :
  arrays (world s) !! r = Some (CbUser <$> ids) →
  self (runCallbacks r err result s).2 = self s
  ∧ pending (world (runCallbacks r err result s).2) = pending (world s)
  ∧ trace (world (runCallbacks r err result s).2) = trace (world s)
  ∧ delivered (world (runCallbacks r err result s).2)
    = delivered (world s) ++ deliveries_to ids err result
  ∧ arrays (world (runCallbacks r err result s).2)
    = match ids with
      | [_] => arrays (world s)
      | _ => <[r := []]> (arrays (world s))
      end.
Proof.
  intros Hr. rewrite runCallbacks_unfold, Hr. cbn [from_option id].
  assert (Ha : alter (λ _, []) r (arrays (world s)) = <[r := []]> (arrays (world s))).
  { apply map_eq. intros r'. destruct (decide (r = r')) as [<-|Hne].
    * by rewrite lookup_alter_eq, lookup_insert_eq, Hr.
    * by rewrite lookup_alter_ne, lookup_insert_ne. }
  destruct ids as [|i [|j ids]].
  - cbn. rewrite app_nil_r. done.
  - cbn [fmap list_fmap]. rewrite invoke_user. done.
  - destruct (deliver_each_users (i :: j :: ids) err result VUndefined s) as [error' He].
    cbn [fmap list_fmap] in *. rewrite He. cbn.
    rewrite Ha. by destruct (truthy error').
Qed.

Lemma take_pending_last {B} (s : state B) p pc :
  pending (world s) = p ++ [pc] →
  take_pending (length p) s
  = (Normal (Some pc),
     mkState (add_trace (AsyncDone (pc_path pc)) (set_pending p (world s))) (self s)).
Proof.
  intros Hp. unfold take_pending. munfold. cbn [world self].
  rewrite Hp, list_lookup_middle by done. cbn [world self set_pending pending].
  rewrite Hp. do 2 f_equal.
  by rewrite delete_middle, app_nil_r.
Qed.

Lemma new_array_eq {B} cbs (s : state B) :
  new_array cbs s
  = (Normal (fresh (dom (arrays (world s)))),
     mkState (set_arrays (<[fresh (dom (arrays (world s))) := cbs]> (arrays (world s)))
                (world s)) (self s)).
Proof. done. Qed.
Lemma take_pending_lookup {B} (s : state B) i pc :
  pending (world s) !! i = Some pc →
  take_pending i s
  = (Normal (Some pc),
     mkState (add_trace (AsyncDone (pc_path pc))
                (set_pending (delete i (pending (world s))) (world s))) (self s)).
Proof.
  intros Hp. unfold take_pending. munfold. cbn [world self]. by rewrite Hp.
Qed.

Lemma take_pending_None {B} (s : state B) i :
  pending (world s) !! i = None → take_pending i s = (Normal None, s).
Proof.
  intros Hp. unfold take_pending. munfold. cbn [world self]. by rewrite Hp.
Qed.

(** The loop and runCallbacks leave the provider and the backend alone,
    whatever the callbacks are. *)
Lemma deliver_each_frame {B} cbs err result error (s : state B) :
  (∃ error', (deliver_each cbs err result error s).1 = Normal error')
  ∧ self (deliver_each cbs err result error s).2 = self s
  ∧ arrays (world (deliver_each cbs err result error s).2) = arrays (world s)
  ∧ pending (world (deliver_each cbs err result error s).2) = pending (world s)
  ∧ trace (world (deliver_each cbs err result error s).2) = trace (world s).
Proof.
  revert error s. induction cbs as [|cb cbs IH]; intros error s.
  - simpl. split_and!; try done. by eexists.
  - rewrite deliver_each_cons.
    destruct (invoke_frame cb err result s) as (H1 & H2 & H3 & H4 & _).
    destruct (invoke cb err result s).1 as [?|e].
    + destruct (IH error (invoke cb err result s).2) as (G0 & G1 & G2 & G3 & G4).
      rewrite G1, G2, G3, G4. done.
    + destruct (IH (if negb (truthy error) then e else error) (invoke cb err result s).2)
        as (G0 & G1 & G2 & G3 & G4).
      rewrite G1, G2, G3, G4. done.
Qed.

Lemma runCallbacks_frame {B} r err result (s : state B) :
  self (runCallbacks r err result s).2 = self s
  ∧ pending (world (runCallbacks r err result s).2) = pending (world s)
  ∧ trace (world (runCallbacks r err result s).2) = trace (world s).
Proof.
  rewrite runCallbacks_unfold.
  destruct (default [] (arrays (world s) !! r)) as [|cb [|cb' cbs]] eqn:E.
  - simpl. done.
  - by destruct (invoke_frame cb err result s) as (H1 & H2 & H3 & H4 & _).
  - destruct (deliver_each_frame (cb :: cb' :: cbs) err result VUndefined s)
      as ([error' G0] & G1 & G2 & G3 & G4).
    destruct (deliver_each (cb :: cb' :: cbs) err result VUndefined s) as [o s1].
    simpl in *. subst o. simpl. done.
Qed.
End world_facts.

Section monad_facts.

Lemma bind_normal {B A A'} (m : M B A) (k : A → M B A') s a s' :
  m s = (Normal a, s') → (m ≫= k) s = k a s'.
Proof. intros Hm. munfold. by rewrite Hm. Qed.

Lemma bind_thrown {B A A'} (m : M B A) (k : A → M B A') s e s' :
  m s = (Thrown e, s') → (m ≫= k) s = (Thrown e, s').
Proof. intros Hm. munfold. by rewrite Hm. Qed.

End monad_facts.

(** ** CacheBackend: cache, purge and merging *)

Section cache_facts.
Context `{Environment}.
Import CacheBackend.
Implicit Types (s : state CacheBackend.t).

Lemma lruCache_get_bounded k s :
  LRUCache.bounded (lruCache (self s)) →
  ∃ s', lruCache_get k s = (Normal (cached s k), s')
        ∧ world s' = world s
        ∧ activeAsyncOperations (self s') = activeAsyncOperations (self s)
        ∧ duration (self s') = duration (self s)
        ∧ LRUCache.bounded (lruCache (self s'))
        ∧ ∀ k', cached s' k' = cached s k'.
Proof.
  intros Hb. unfold lruCache_get. munfold. cbn [world self].
  destruct (LRUFacts.bounded_get_lookup _ k Hb) as [H1 H2].
  destruct (LRUFacts.bounded_get _ k Hb) as [Hb' _].
  eexists. split; [by rewrite H1|]. split_and!; try done.
Qed.

Lemma storeResult_bounded k e r s :
  LRUCache.bounded (lruCache (self s)) →
  ∃ s', _storeResult k e r s = (Normal tt, s')
        ∧ world s' = world s
        ∧ activeAsyncOperations (self s') = activeAsyncOperations (self s)
        ∧ duration (self s') = duration (self s)
        ∧ LRUCache.bounded (lruCache (self s'))
        ∧ cached s' k = Some (mkEntry e r).
Proof.
  intros Hb. unfold _storeResult. munfold. cbn [world self].
  destruct (LRUFacts.bounded_put_lookup _ k (mkEntry e r) Hb) as (c' & -> & Hb' & _ & Hl).
  eexists. split; [done|]. split_and!; done.
Qed.

Lemma purge_eq what s :
  purge what s
  = (Normal tt, mkState (world s) (set_lruCache (LRUCache.purge (lruCache (self s))) (self s))).
Proof.
  unfold purge. destruct (negb (truthy what)); [done|]. by destruct what.
Qed.

(** C4: whatever it is handed, purge empties the LRU. *)
Theorem purge_clears_whole_cache (what : value) s :
  (purge what s).1 = Normal tt
  ∧ world (purge what s).2 = world s
  ∧ LRUCache.size (lruCache (self (purge what s).2)) = 0
  ∧ LRUCache.entries (lruCache (self (purge what s).2)) = []
  ∧ ∀ k, cached (purge what s).2 k = None
         ∧ (LRUCache.get k (lruCache (self (purge what s).2))).1 = None.
Proof.
  rewrite purge_eq. cbn [fst snd world self lruCache set_lruCache].
  split_and!; try done.
Qed.

(** purgeParent either throws before it changes anything, or purges. *)
Lemma purgeParent_cases what s :
  (∃ e, purgeParent what s = (Thrown e, s))
  ∨ purgeParent what s
    = (Normal tt,
       mkState (world s) (set_lruCache (LRUCache.purge (lruCache (self s))) (self s))).
Proof.
  unfold purgeParent.
  destruct (negb (truthy what)); [right; apply purge_eq|].
  destruct what; try (left; by eexists); try (right; apply purge_eq).
  destruct (String.length bytes =? 0); [right; apply purge_eq|left; by eexists].
Qed.

Lemma purgeParent_iter items s :
  purgeParent (VIter items) s
  = (Normal tt, mkState (world s) (set_lruCache (LRUCache.purge (lruCache (self s))) (self s))).
Proof. unfold purgeParent. cbn [truthy negb]. apply purge_eq. Qed.

(** C5, as the code has it: the parent of "/a/b/c" is "/a/b", and purging by
    parent empties the whole LRU, so the entries for "/a" and "/a/b/c" go
    together with the one for "/a/b". *)
Theorem purgeParent_clears_whole_cache s :
  dirname "/a/b/c" = "/a/b"%string
  ∧ purgeParent (VIter ["/a/b/c"%string]) s = purge (VIter ["/a/b"%string]) s
  ∧ cached (purgeParent (VIter ["/a/b/c"%string]) s).2 "/a/b" = None
  ∧ cached (purgeParent (VIter ["/a/b/c"%string]) s).2 "/a" = None
  ∧ cached (purgeParent (VIter ["/a/b/c"%string]) s).2 "/a/b/c" = None.
Proof.
  split; [done|]. rewrite purgeParent_iter, purge_eq. done.
Qed.

(** The outcome replayed for a cached entry (lines 227-228, 259-260). *)
Lemma provide_hit k cb s e :
  LRUCache.bounded (lruCache (self s)) →
  cached s k = Some e →
  ∃ s', world s' = world s
        ∧ activeAsyncOperations (self s') = activeAsyncOperations (self s)
        ∧ LRUCache.bounded (lruCache (self s'))
        ∧ (∀ k', cached s' k' = cached s k')
        ∧ provide (Args2 (VStr k) cb) s
          = (if truthy (err e) then invoke cb (err e) VUndefined s'
             else invoke cb VNull (result e) s').
Proof.
  intros Hb Hc.
  destruct (lruCache_get_bounded k s Hb) as (s' & Hg & Hw & Ha & _ & Hb' & Hk).
  exists s'. split_and!; try done.
  unfold provide. cbn [normalize truthy].
  rewrite (bind_normal _ _ _ _ _ Hg), Hc. by destruct (truthy (err e)).
Qed.

(** C9, as the code has it: on a cache hit the continuation is called inside
    the [provide] call itself, with the stored outcome; nothing is handed to
    the provider and nothing is left to run later. *)
Theorem provide_hit_delivers_in_call k cb s e :
  LRUCache.bounded (lruCache (self s)) →
  cached s k = Some e →
  (∃ more,
     delivered (world (provide (Args2 (VStr k) cb) s).2)
     = delivered (world s)
       ++ mkDelivery cb (if truthy (err e) then err e else VNull)
                        (if truthy (err e) then VUndefined else result e) :: more)
  ∧ pending (world (provide (Args2 (VStr k) cb) s).2) = pending (world s)
  ∧ trace (world (provide (Args2 (VStr k) cb) s).2) = trace (world s)
  ∧ arrays (world (provide (Args2 (VStr k) cb) s).2) = arrays (world s).
Proof.
  intros Hb Hc.
  destruct (provide_hit k cb s e Hb Hc) as (s' & Hw & _ & _ & _ & ->).
  destruct (truthy (err e)).
  - destruct (invoke_frame cb (err e) VUndefined s') as (_ & H2 & H3 & H4 & more & H5).
    rewrite H2, H3, H4, H5, Hw. split_and!; eauto.
  - destruct (invoke_frame cb VNull (result e) s') as (_ & H2 & H3 & H4 & more & H5).
    rewrite H2, H3, H4, H5, Hw. split_and!; eauto.
Qed.

(** *** Merging in CacheBackend *)

(** Lines 237-245: a miss with nothing in flight starts the provider. *)
Lemma cache_provide_first k cb s :
  LRUCache.bounded (lruCache (self s)) →
  cached s k = None →
  activeAsyncOperations (self s) !! k = None →
  ∃ s', provide (Args2 (VStr k) cb) s = (Normal tt, s')
        ∧ arrays (world s')
          = <[fresh (dom (arrays (world s))) := [cb]]> (arrays (world s))
        ∧ pending (world s')
          = pending (world s)
            ++ [mkCall (VStr k) VUndefined (KMerged k (fresh (dom (arrays (world s)))))]
        ∧ trace (world s') = trace (world s) ++ [AsyncCall (VStr k) VUndefined]
        ∧ delivered (world s') = delivered (world s)
        ∧ activeAsyncOperations (self s')
          = <[k := fresh (dom (arrays (world s)))]> (activeAsyncOperations (self s))
        ∧ LRUCache.bounded (lruCache (self s'))
        ∧ ∀ k', cached s' k' = cached s k'.
Proof.
  intros Hb Hc Ha.
  destruct (lruCache_get_bounded k s Hb) as (s' & Hg & Hw & Ha' & _ & Hb' & Hk).
  unfold provide. cbn [normalize truthy].
  rewrite (bind_normal _ _ _ _ _ Hg), Hc.
  munfold. cbn [world self]. rewrite Ha', Ha. rewrite new_array_eq.
  cbn [world self]. eexists. split; [done|].
  cbn [world self arrays pending trace delivered set_arrays set_pending add_trace
       activeAsyncOperations lruCache set_active].
  rewrite Hw, Ha'. split_and!; try done.
Qed.

(** Lines 232-236: a miss with a call in flight only queues the callback. *)
Lemma cache_provide_join k cb s r :
  LRUCache.bounded (lruCache (self s)) →
  cached s k = None →
  activeAsyncOperations (self s) !! k = Some r →
  ∃ s', provide (Args2 (VStr k) cb) s = (Normal tt, s')
        ∧ arrays (world s') = alter (λ cbs, cbs ++ [cb]) r (arrays (world s))
        ∧ pending (world s') = pending (world s)
        ∧ trace (world s') = trace (world s)
        ∧ delivered (world s') = delivered (world s)
        ∧ activeAsyncOperations (self s') = activeAsyncOperations (self s)
        ∧ LRUCache.bounded (lruCache (self s'))
        ∧ ∀ k', cached s' k' = cached s k'.
Proof.
  intros Hb Hc Ha.
  destruct (lruCache_get_bounded k s Hb) as (s' & Hg & Hw & Ha' & _ & Hb' & Hk).
  unfold provide. cbn [normalize truthy].
  rewrite (bind_normal _ _ _ _ _ Hg), Hc.
  munfold. cbn [world self]. rewrite Ha', Ha. unfold array_push. munfold.
  eexists. split; [done|].
  cbn [world self arrays pending trace delivered set_arrays].
  rewrite Hw. split_and!; try done.
Qed.

Lemma cache_provide_each_join k ids s r acc :
  LRUCache.bounded (lruCache (self s)) →
  cached s k = None →
  activeAsyncOperations (self s) !! k = Some r →
  arrays (world s) !! r = Some (CbUser <$> acc) →
  arrays (world (provide_each k ids s)) !! r = Some (CbUser <$> (acc ++ ids))
  ∧ pending (world (provide_each k ids s)) = pending (world s)
  ∧ trace (world (provide_each k ids s)) = trace (world s)
  ∧ delivered (world (provide_each k ids s)) = delivered (world s)
  ∧ activeAsyncOperations (self (provide_each k ids s)) = activeAsyncOperations (self s)
  ∧ LRUCache.bounded (lruCache (self (provide_each k ids s)))
  ∧ cached (provide_each k ids s) k = None.
Proof.
  revert s acc. induction ids as [|i ids IH]; intros s acc Hb Hc Ha Hr.
  - simpl. rewrite app_nil_r. done.
  - destruct (cache_provide_join k (CbUser i) s r Hb Hc Ha)
      as (s' & Hp & Har & Hpe & Htr & Hde & Hac & Hb' & Hk).
    unfold provide_each. cbn [fold_left]. rewrite Hp. cbn [snd].
    fold (provide_each k ids s').
    destruct (IH s' (acc ++ [i])) as (H1 & H2 & H3 & H4 & H5 & H6 & H7).
    + done.
    + by rewrite Hk.
    + by rewrite Hac.
    + rewrite Har, lookup_alter_eq, Hr. simpl. by rewrite fmap_app.
    + rewrite H1, H2, H3, H4, H5, <- app_assoc. split_and!; try done; congruence.
Qed.

(** Lines 240-245: the completion of a merged call. *)
Lemma cache_complete_merged k r ids p err result s :
  LRUCache.bounded (lruCache (self s)) →
  pending (world s) = p ++ [mkCall (VStr k) VUndefined (KMerged k r)] →
  arrays (world s) !! r = Some (CbUser <$> ids) →
  delivered (world (complete (length p) err result s).2)
  = delivered (world s) ++ deliveries_to ids err result
  ∧ trace (world (complete (length p) err result s).2)
    = trace (world s) ++ [AsyncDone (VStr k)]
  ∧ pending (world (complete (length p) err result s).2) = p
  ∧ activeAsyncOperations (self (complete (length p) err result s).2)
    = delete k (activeAsyncOperations (self s))
  ∧ LRUCache.bounded (lruCache (self (complete (length p) err result s).2))
  ∧ cached (complete (length p) err result s).2 k = Some (mkEntry err result).
Proof.
  intros Hb Hp Hr. unfold complete.
  rewrite (bind_normal _ _ _ _ _ (take_pending_last s p _ Hp)).
  cbn [pc_callback pc_path].
  set (s1 := mkState (add_trace (AsyncDone (VStr k)) (set_pending p (world s))) (self s)).
  set (s2 := mkState (world s1) (set_active (delete k (activeAsyncOperations (self s1))) (self s1))).
  assert (Hb2 : LRUCache.bounded (lruCache (self s2))) by done.
  destruct (storeResult_bounded k err result s2 Hb2) as (s3 & Hst & Hw3 & Ha3 & _ & Hb3 & Hc3).
  assert (Hstep : (modify_self (λ b, set_active (delete k (activeAsyncOperations b)) b)
                   ≫= (λ _ : (), _storeResult k err result
                   ≫= (λ _ : (), runCallbacks r err result))) s1
                  = runCallbacks r err result s3).
  { munfold. cbn [world self]. fold s2. munfold. by rewrite Hst. }
  rewrite Hstep.
  assert (Hr3 : arrays (world s3) !! r = Some (CbUser <$> ids)) by by rewrite Hw3.
  destruct (runCallbacks_users r ids err result s3 Hr3) as (H1 & H2 & H3 & H4 & H5).
  rewrite H2, H3, H4, Hw3. unfold cached. rewrite H1.
  rewrite Ha3. split_and!; try done.
Qed.

End cache_facts.

(** ** The order of the type check and the options bypass *)

Section type_check.
Context `{Environment}.

(** C10: CacheBackend checks the type of the path before it looks at the
    options, in [provide] and in [provideSync]; OperationMergerBackend looks
    at the options first and hands a path that is not a string to the
    provider. *)
Theorem path_type_check_order (path options : value) (cb : callback)
    (s : state CacheBackend.t) (m : state OperationMergerBackend.t) :
  is_string path = false →
  (CacheBackend.provide (Args3 path options cb) s
   = invoke cb (VTypeError "path must be a string") VUndefined s
   ∧ (∃ more,
        delivered (world (CacheBackend.provide (Args3 path options cb) s).2)
        = delivered (world s)
          ++ mkDelivery cb (VTypeError "path must be a string") VUndefined :: more)
   ∧ pending (world (CacheBackend.provide (Args3 path options cb) s).2) = pending (world s)
   ∧ trace (world (CacheBackend.provide (Args3 path options cb) s).2) = trace (world s))
  ∧ CacheBackend.provideSync path options s
    = (Thrown (VTypeError "path must be a string"), s)
  ∧ (truthy options = true →
     OperationMergerBackend.provide (Args3 path options cb) m
     = (Normal tt,
        mkState (add_trace (AsyncCall path options)
                   (set_pending (pending (world m) ++ [mkCall path options (KDirect cb)])
                      (world m)))
                (self m))).
Proof.
  intros Hp.
  assert (Hprov : CacheBackend.provide (Args3 path options cb) s
                  = invoke cb (VTypeError "path must be a string") VUndefined s).
  { unfold CacheBackend.provide. cbn [normalize]. by destruct path. }
  split_and!.
  - done.
  - rewrite Hprov.
    destruct (invoke_frame cb (VTypeError "path must be a string") VUndefined s)
      as (_ & _ & _ & _ & more & ->). eauto.
  - rewrite Hprov.
    by destruct (invoke_frame cb (VTypeError "path must be a string") VUndefined s)
      as (_ & _ & -> & _).
  - rewrite Hprov.
    by destruct (invoke_frame cb (VTypeError "path must be a string") VUndefined s)
      as (_ & _ & _ & -> & _).
  - unfold CacheBackend.provideSync. by destruct path.
  - intros Ho. unfold OperationMergerBackend.provide. cbn [normalize]. rewrite Ho.
    done.
Qed.

End type_check.

(** ** OperationMergerBackend: merging *)

Section merger_facts.
Context `{Environment}.
Import OperationMergerBackend.
Implicit Types (s : state OperationMergerBackend.t).

(** Lines 72-76: nothing in flight, so the provider is started. *)
Lemma merger_provide_first k cb s :
  activeAsyncOperations (self s) !! k = None →
  ∃ s', provide (Args2 (VStr k) cb) s = (Normal tt, s')
        ∧ arrays (world s')
          = <[fresh (dom (arrays (world s))) := [cb]]> (arrays (world s))
        ∧ pending (world s')
          = pending (world s)
            ++ [mkCall (VStr k) VUndefined (KMerged k (fresh (dom (arrays (world s)))))]
        ∧ trace (world s') = trace (world s) ++ [AsyncCall (VStr k) VUndefined]
        ∧ delivered (world s') = delivered (world s)
        ∧ activeAsyncOperations (self s')
          = <[k := fresh (dom (arrays (world s)))]> (activeAsyncOperations (self s)).
Proof.
  intros Ha. unfold provide. cbn [normalize truthy].
  munfold. cbn [world self]. rewrite Ha, new_array_eq.
  cbn [world self]. eexists. split; [done|]. done.
Qed.

(** Lines 67-71: a call in flight, so the callback is only queued. *)
Lemma merger_provide_join k cb s r :
  activeAsyncOperations (self s) !! k = Some r →
  ∃ s', provide (Args2 (VStr k) cb) s = (Normal tt, s')
        ∧ arrays (world s') = alter (λ cbs, cbs ++ [cb]) r (arrays (world s))
        ∧ pending (world s') = pending (world s)
        ∧ trace (world s') = trace (world s)
        ∧ delivered (world s') = delivered (world s)
        ∧ activeAsyncOperations (self s') = activeAsyncOperations (self s).
Proof.
  intros Ha. unfold provide. cbn [normalize truthy].
  munfold. cbn [world self]. rewrite Ha. unfold array_push. munfold.
  eexists. split; [done|]. done.
Qed.

Lemma merger_provide_each_join k ids s r acc :
  activeAsyncOperations (self s) !! k = Some r →
  arrays (world s) !! r = Some (CbUser <$> acc) →
  arrays (world (provide_each k ids s)) !! r = Some (CbUser <$> (acc ++ ids))
  ∧ pending (world (provide_each k ids s)) = pending (world s)
  ∧ trace (world (provide_each k ids s)) = trace (world s)
  ∧ delivered (world (provide_each k ids s)) = delivered (world s)
  ∧ activeAsyncOperations (self (provide_each k ids s)) = activeAsyncOperations (self s).
Proof.
  revert s acc. induction ids as [|i ids IH]; intros s acc Ha Hr.
  - simpl. rewrite app_nil_r. done.
  - destruct (merger_provide_join k (CbUser i) s r Ha)
      as (s' & Hp & Har & Hpe & Htr & Hde & Hac).
    unfold provide_each. cbn [fold_left]. rewrite Hp. cbn [snd].
    fold (provide_each k ids s').
    destruct (IH s' (acc ++ [i])) as (H1 & H2 & H3 & H4 & H5).
    + by rewrite Hac.
    + rewrite Har, lookup_alter_eq, Hr. simpl. by rewrite fmap_app.
    + rewrite H1, H2, H3, H4, H5, <- app_assoc. split_and!; try done; congruence.
Qed.

(** Lines 73-76: the completion of a merged call. *)
Lemma merger_complete_merged k r ids p err result s :
  pending (world s) = p ++ [mkCall (VStr k) VUndefined (KMerged k r)] →
  arrays (world s) !! r = Some (CbUser <$> ids) →
  delivered (world (complete (length p) err result s).2)
  = delivered (world s) ++ deliveries_to ids err result
  ∧ trace (world (complete (length p) err result s).2)
    = trace (world s) ++ [AsyncDone (VStr k)]
  ∧ pending (world (complete (length p) err result s).2) = p
  ∧ activeAsyncOperations (self (complete (length p) err result s).2)
    = delete k (activeAsyncOperations (self s)).
Proof.
  intros Hp Hr. unfold complete.
  rewrite (bind_normal _ _ _ _ _ (take_pending_last s p _ Hp)).
  cbn [pc_callback pc_path].
  set (s1 := mkState (add_trace (AsyncDone (VStr k)) (set_pending p (world s))) (self s)).
  set (s2 := mkState (world s1) (mk (delete k (activeAsyncOperations (self s1))))).
  assert (Hstep : (modify_self (λ b, mk (delete k (activeAsyncOperations b)))
                   ≫= (λ _ : (), runCallbacks r err result)) s1
                  = runCallbacks r err result s2) by done.
  rewrite Hstep.
  assert (Hr2 : arrays (world s2) !! r = Some (CbUser <$> ids)) by done.
  destruct (runCallbacks_users r ids err result s2 Hr2) as (H1 & H2 & H3 & H4 & H5).
  rewrite H1, H2, H3, H4. done.
Qed.

End merger_facts.


(** ** Cached errors *)

Section negative_caching.
Context `{Environment}.
Import CacheBackend.
Implicit Types (s : state CacheBackend.t).

(** Lines 256-261: a cached error is thrown again. *)
Lemma provideSync_hit_error k s e :
  LRUCache.bounded (lruCache (self s)) →
  cached s k = Some e →
  truthy (err e) = true →
  ∃ s', provideSync (VStr k) VUndefined s = (Thrown (err e), s')
        ∧ world s' = world s
        ∧ LRUCache.bounded (lruCache (self s'))
        ∧ ∀ k', cached s' k' = cached s k'.
Proof.
  intros Hb Hc He.
  destruct (lruCache_get_bounded k s Hb) as (s' & Hg & Hw & Ha & _ & Hb' & Hk).
  exists s'. split_and!; try done.
  unfold provideSync. cbn [truthy].
  by rewrite (bind_normal _ _ _ _ _ Hg), Hc, He.
Qed.

(** Lines 224-229: a cached error is handed to the continuation again. *)
Lemma provide_hit_error k i s e :
  LRUCache.bounded (lruCache (self s)) →
  cached s k = Some e →
  truthy (err e) = true →
  ∃ s', provide (Args2 (VStr k) (CbUser i)) s
        = (match cb_throws i (err e) VUndefined with
           | Some x => Thrown x
           | None => Normal tt
           end, s')
        ∧ world s' = add_delivered (mkDelivery (CbUser i) (err e) VUndefined) (world s)
        ∧ LRUCache.bounded (lruCache (self s'))
        ∧ ∀ k', cached s' k' = cached s k'.
Proof.
  intros Hb Hc He.
  destruct (provide_hit k (CbUser i) s e Hb Hc) as (s' & Hw & _ & Hb' & Hk & ->).
  rewrite He, invoke_user. eexists. split; [done|].
  cbn [world self]. rewrite Hw. done.
Qed.

Lemma replay_run k e r s (ls : list lookup) :
  truthy e = true →
  LRUCache.bounded (lruCache (self s)) →
  cached s k = Some (mkEntry e r) →
  outcomes (lookup_event k <$> ls) s = replayed e <$> ls
  ∧ delivered (world (run (lookup_event k <$> ls) s))
    = delivered (world s) ++ deliveries_to (provide_ids ls) e VUndefined
  ∧ trace (world (run (lookup_event k <$> ls) s)) = trace (world s)
  ∧ pending (world (run (lookup_event k <$> ls) s)) = pending (world s)
  ∧ cached (run (lookup_event k <$> ls) s) k = Some (mkEntry e r).
Proof.
  intros He. revert s. induction ls as [|l ls IH]; intros s Hb Hc.
  - simpl. rewrite app_nil_r. done.
  - rewrite fmap_cons. cbn [outcomes run fold_left].
    fold (run (lookup_event k <$> ls) (exec (lookup_event k l) s).2).
    destruct l as [i|]; cbn [lookup_event exec].
    + destruct (provide_hit_error k i s _ Hb Hc He) as (s' & Hp & Hw & Hb' & Hk).
      rewrite (surjective_pairing (provide _ s)) in Hp.
      injection Hp as Hp1 Hp2.
      assert (Hx1 : ((provide (Args2 (VStr k) (CbUser i)) ≫= λ _ : (), mret VUndefined) s).1
                    = replayed e (ViaProvide i)).
      { munfold. destruct (provide (Args2 (VStr k) (CbUser i)) s) as [o s0].
        simpl in *. subst o. by destruct (cb_throws i e VUndefined). }
      assert (Hx2 : ((provide (Args2 (VStr k) (CbUser i)) ≫= λ _ : (), mret VUndefined) s).2
                    = s').
      { munfold. destruct (provide (Args2 (VStr k) (CbUser i)) s) as [o s0].
        simpl in *. subst s0. by destruct o. }
      rewrite Hx1, Hx2.
      destruct (IH s' Hb') as (G1 & G2 & G3 & G4 & G5); [by rewrite Hk|].
      rewrite G1, G2, G3, G4, G5, Hw. cbn [provide_ids omap deliveries_to fmap list_fmap].
      simpl. rewrite <- app_assoc. done.
    + destruct (provideSync_hit_error k s _ Hb Hc He) as (s' & Hp & Hw & Hb' & Hk).
      rewrite Hp. cbn [fst snd err].
      destruct (IH s' Hb') as (G1 & G2 & G3 & G4 & G5); [by rewrite Hk|].
      rewrite G1, G2, G3, G4, G5, Hw. done.
Qed.

(** Lines 263-280, once the cache has missed. *)
Lemma provideSync_miss_eq k options s s1 :
  truthy options = false →
  lruCache_get k s = (Normal None, s1) →
  provideSync (VStr k) options s
  = match syncProvider (trace (world s1)) (VStr k) VUndefined with
    | Thrown e =>
        (_storeResult k e VUndefined;;
         run_adopted (activeAsyncOperations (self s1) !! k) e VUndefined;;
         throw e)
          (mkState (add_trace (SyncCall (VStr k) VUndefined) (world s1))
                   (set_active (delete k (activeAsyncOperations (self s1))) (self s1)))
    | Normal v =>
        (_storeResult k VUndefined v;;
         run_adopted (activeAsyncOperations (self s1) !! k) VUndefined v;;
         mret v)
          (mkState (add_trace (SyncCall (VStr k) VUndefined) (world s1))
                   (set_active (delete k (activeAsyncOperations (self s1))) (self s1)))
    end.
Proof.
  intros Ho Hg. unfold provideSync. rewrite Ho.
  rewrite (bind_normal _ _ _ _ _ Hg).
  unfold call_syncProvider. munfold. cbn [world self].
  by destruct (syncProvider (trace (world s1)) (VStr k) VUndefined).
Qed.

(** Both ways of storing a provider failure leave the error in the cache. *)
Lemma provider_failed_cached k e r s s' :
  LRUCache.bounded (lruCache (self s)) →
  provider_failed k e r s s' →
  LRUCache.bounded (lruCache (self s')) ∧ cached s' k = Some (mkEntry e r).
Proof.
  intros Hb [(i & a & Hp & ->)|(Hc & Hsync & -> & ->)].
  - unfold complete. rewrite (bind_normal _ _ _ _ _ (take_pending_lookup s i _ Hp)).
    cbn [pc_callback pc_path].
    set (s1 := mkState (add_trace (AsyncDone (VStr k))
                          (set_pending (delete i (pending (world s))) (world s))) (self s)).
    set (s2 := mkState (world s1)
                 (set_active (delete k (activeAsyncOperations (self s1))) (self s1))).
    assert (Hb2 : LRUCache.bounded (lruCache (self s2))) by done.
    destruct (storeResult_bounded k e r s2 Hb2) as (s3 & Hst & Hw3 & Ha3 & _ & Hb3 & Hc3).
    assert (Hstep : (modify_self (λ b, set_active (delete k (activeAsyncOperations b)) b)
                     ≫= (λ _ : (), _storeResult k e r
                     ≫= (λ _ : (), runCallbacks a e r))) s1
                    = runCallbacks a e r s3).
    { munfold. cbn [world self]. fold s2. munfold. by rewrite Hst. }
    rewrite Hstep. destruct (runCallbacks_frame a e r s3) as (H1 & _).
    unfold cached. by rewrite H1.
  - destruct (lruCache_get_bounded k s Hb) as (s1 & Hg & Hw & Ha & _ & Hb1 & Hk).
    rewrite Hc in Hg. rewrite (provideSync_miss_eq k VUndefined s s1 eq_refl Hg), Hw, Hsync.
    set (s3 := mkState (add_trace (SyncCall (VStr k) VUndefined) (world s))
                 (set_active (delete k (activeAsyncOperations (self s1))) (self s1))).
    assert (Hb3 : LRUCache.bounded (lruCache (self s3))) by done.
    destruct (storeResult_bounded k e VUndefined s3 Hb3)
      as (s4 & Hst & Hw4 & Ha4 & _ & Hb4 & Hc4).
    rewrite (bind_normal _ _ _ _ _ Hst).
    unfold run_adopted.
    destruct (activeAsyncOperations (self s1) !! k) as [cbs|].
    + destruct (runCallbacks_frame cbs e VUndefined s4) as (H1 & _).
      munfold.
      destruct (runCallbacks cbs e VUndefined s4) as [[?|?] s5]; simpl in *;
        unfold cached; by rewrite H1.
    + done.
Qed.

(** C7, as the code has it: a provider failure for [k] is stored as a
    negative outcome, on the asynchronous and on the synchronous path, and
    the lookups of [k] that follow replay that error without a provider call.
    The entry stays only as long as nothing else is stored or purged: the
    statement covers the lookups of [k] that come directly after. *)
Theorem provider_error_is_cached_and_replayed k e r s s' (ls : list lookup) :
  truthy e = true →
  LRUCache.bounded (lruCache (self s)) →
  provider_failed k e r s s' →
  cached s' k = Some (mkEntry e r)
  ∧ outcomes (lookup_event k <$> ls) s' = replayed e <$> ls
  ∧ delivered (world (run (lookup_event k <$> ls) s'))
    = delivered (world s') ++ deliveries_to (provide_ids ls) e VUndefined
  ∧ trace (world (run (lookup_event k <$> ls) s')) = trace (world s')
  ∧ pending (world (run (lookup_event k <$> ls) s')) = pending (world s')
  ∧ cached (run (lookup_event k <$> ls) s') k = Some (mkEntry e r).
Proof.
  intros He Hb Hf.
  destruct (provider_failed_cached k e r s s' Hb Hf) as [Hb' Hc'].
  split; [done|]. by apply replay_run.
Qed.

End negative_caching.

(** ** One provider call per key *)

Section exclusivity.
Context `{Environment}.
Import CacheBackend.
Implicit Types (s : state CacheBackend.t).

Lemma is_path_eq k k' : is_path k (VStr k') = true ↔ k' = k.
Proof. simpl. apply String.eqb_eq. Qed.

Lemma is_path_refl k : is_path k (VStr k) = true.
Proof. by apply is_path_eq. Qed.

Lemma is_path_ne k k' : k' ≠ k → is_path k (VStr k') = false.
Proof. intros Hne. simpl. by apply String.eqb_neq. Qed.


Lemma count_path_app k l1 l2 :
  count_path k (l1 ++ l2) = count_path k l1 + count_path k l2.
Proof. unfold count_path. by rewrite List.filter_app, length_app. Qed.

Lemma count_path_singleton k pc :
  count_path k [pc] = if is_path k (pc_path pc) then 1 else 0.
Proof. unfold count_path. simpl. by destruct (is_path k (pc_path pc)). Qed.

Lemma count_path_delete k (l : list provider_call) i pc :
  l !! i = Some pc →
  count_path k l
  = count_path k (delete i l) + (if is_path k (pc_path pc) then 1 else 0).
Proof.
  revert i. induction l as [|x l IH]; intros i Hi; [done|].
  destruct i as [|i]; simpl in *.
  - injection Hi as ->. unfold count_path. simpl.
    destruct (is_path k (pc_path pc)); simpl; lia.
  - specialize (IH i Hi). unfold count_path in *. simpl.
    destruct (is_path k (pc_path x)); simpl; lia.
Qed.

(** What [lruCache.get] and [_storeResult] leave alone. *)
Lemma lruCache_get_frame k s :
  ∃ x, (lruCache_get k s).1 = Normal x
       ∧ world (lruCache_get k s).2 = world s
       ∧ activeAsyncOperations (self (lruCache_get k s).2)
         = activeAsyncOperations (self s).
Proof. unfold lruCache_get. munfold. simpl. eauto. Qed.

Lemma storeResult_frame k e r s :
  world (_storeResult k e r s).2 = world s
  ∧ activeAsyncOperations (self (_storeResult k e r s).2)
    = activeAsyncOperations (self s).
Proof.
  unfold _storeResult. munfold. cbn [world self].
  by destruct (LRUCache.put k (mkEntry e r) (lruCache (self s))).
Qed.

Lemma exclusive_inv_frame s s' :
  pending (world s') = pending (world s) →
  trace (world s') = trace (world s) →
  activeAsyncOperations (self s') = activeAsyncOperations (self s) →
  exclusive_inv s → exclusive_inv s'.
Proof.
  intros Hp Ht Ha [H1 H2]. unfold exclusive_inv, outstanding in *.
  rewrite Hp, Ht, Ha. done.
Qed.

Lemma lruCache_get_pair k s :
  ∃ x s1, lruCache_get k s = (Normal x, s1)
          ∧ world s1 = world s
          ∧ activeAsyncOperations (self s1) = activeAsyncOperations (self s).
Proof. unfold lruCache_get. munfold. simpl. eauto. Qed.

Lemma exclusive_inv_provide a s :
  exclusive_inv s →
  truthy (normalize a).1.2 = false →
  exclusive_inv (provide a s).2.
Proof.
  intros Hinv Ho. unfold provide.
  destruct (normalize a) as [[path options] cb]. simpl in Ho.
  assert (Hinvoke : ∀ e r s0,
            pending (world s0) = pending (world s) →
            trace (world s0) = trace (world s) →
            activeAsyncOperations (self s0) = activeAsyncOperations (self s) →
            exclusive_inv (invoke cb e r s0).2).
  { intros e r s0 Hp Ht Ha.
    destruct (invoke_frame cb e r s0) as (H1 & H2 & H3 & H4 & _).
    eapply exclusive_inv_frame; [| | |exact Hinv]; congruence. }
  destruct path; try (by apply Hinvoke).
  rewrite Ho.
  destruct (lruCache_get_pair s0 s) as (x & s1 & Hg & Hw & Ha).
  rewrite (bind_normal _ _ _ _ _ Hg).
  destruct x as [e|].
  { destruct (truthy (err e)); apply Hinvoke; congruence. }
  munfold. cbn [world self].
  destruct (activeAsyncOperations (self s1) !! s0) as [r|] eqn:Hact.
  - unfold array_push. munfold. cbn [world self snd].
    eapply exclusive_inv_frame; [| | |exact Hinv]; simpl; congruence.
  - rewrite new_array_eq. cbn [world self snd].
    unfold call_provider. munfold. cbn [world self snd].
    destruct Hinv as [Hall Hk]. split.
    + cbn [world self pending add_trace set_pending set_arrays]. rewrite Hw.
      apply Forall_app. split; [done|]. apply Forall_singleton. eauto.
    + intros k. specialize (Hk k). destruct Hk as [Hk1 Hk2].
      unfold outstanding in *.
      cbn [world self pending trace add_trace set_pending set_arrays
           activeAsyncOperations set_active].
      rewrite Hw, Ha, count_path_app, fold_left_app, Hk2. rewrite Ha in Hact.
      rewrite !count_path_singleton.
      cbn [pc_path fold_left check_exclusive mbind option_bind].
      destruct (decide (s0 = k)) as [->|Hne].
      * rewrite is_path_refl, lookup_insert_eq. rewrite Hact in Hk1.
        rewrite Hk1. simpl. done.
      * rewrite is_path_ne by done. rewrite lookup_insert_ne by done.
        simpl. rewrite Nat.add_0_r. done.
Qed.

Lemma exclusive_inv_provideSync path options s :
  exclusive_inv s →
  no_race s (ProvideSync path options) = true →
  exclusive_inv (provideSync path options s).2.
Proof.
  intros Hinv Hnr. simpl in Hnr. apply andb_true_iff in Hnr as [Ho Hp].
  apply negb_true_iff in Ho.
  destruct path; try (by unfold provideSync).
  apply bool_decide_eq_true in Hp.
  destruct (lruCache_get_pair s0 s) as (x & s1 & Hg & Hw & Ha).
  destruct x as [e|].
  { unfold provideSync. rewrite Ho, (bind_normal _ _ _ _ _ Hg).
    destruct (truthy (err e)); (eapply exclusive_inv_frame; [| | |exact Hinv]);
      simpl; congruence. }
  rewrite (provideSync_miss_eq s0 options s s1 Ho Hg).
  rewrite Ha, Hp. unfold run_adopted.
  set (s3 := mkState (add_trace (SyncCall (VStr s0) VUndefined) (world s1))
               (set_active (delete s0 (activeAsyncOperations (self s))) (self s1))).
  assert (Hinv3 : exclusive_inv s3).
  { destruct Hinv as [Hall Hk]. split.
    - subst s3. cbn [world self pending add_trace]. by rewrite Hw.
    - intros k. specialize (Hk k). destruct Hk as [Hk1 Hk2].
      unfold outstanding in *. subst s3.
      cbn [world self pending trace add_trace activeAsyncOperations set_active].
      rewrite Hw, fold_left_app, Hk2.
      rewrite delete_id by done. split; [done|].
      cbn [fold_left check_exclusive mbind option_bind].
      destruct (decide (s0 = k)) as [->|Hne].
      + rewrite is_path_refl. rewrite Hp in Hk1. by rewrite Hk1.
      + by rewrite is_path_ne. }
  assert (Hst : ∀ e r, exclusive_inv (_storeResult s0 e r s3).2).
  { intros e r. destruct (storeResult_frame s0 e r s3) as [G1 G2].
    eapply exclusive_inv_frame; [| | |exact Hinv3]; congruence. }
  destruct (syncProvider (trace (world s1)) (VStr s0) VUndefined) as [v|e].
  - munfold. specialize (Hst VUndefined v).
    destruct (_storeResult s0 VUndefined v s3) as [[?|?] s4]; done.
  - munfold. specialize (Hst e VUndefined).
    destruct (_storeResult s0 e VUndefined s3) as [[?|?] s4]; done.
Qed.

Lemma exclusive_inv_complete i e r s :
  exclusive_inv s → exclusive_inv (complete i e r s).2.
Proof.
  intros Hinv. unfold complete.
  destruct (pending (world s) !! i) as [pc|] eqn:Hi.
  2:{ by rewrite (bind_normal _ _ _ _ _ (take_pending_None s i Hi)). }
  rewrite (bind_normal _ _ _ _ _ (take_pending_lookup s i pc Hi)).
  pose proof Hinv as [Hall Hk].
  pose proof (proj1 (Forall_lookup _ _) Hall i pc Hi) as (k & a & ->).
  cbn [pc_callback pc_path].
  set (s2 := mkState (add_trace (AsyncDone (VStr k))
                        (set_pending (delete i (pending (world s))) (world s)))
               (set_active (delete k (activeAsyncOperations (self s))) (self s))).
  assert (Hinv2 : exclusive_inv s2).
  { split.
    - subst s2. cbn [world self pending add_trace set_pending].
      by apply Forall_delete.
    - intros k'. specialize (Hk k'). destruct Hk as [Hk1 Hk2].
      unfold outstanding in *. subst s2.
      cbn [world self pending trace add_trace set_pending activeAsyncOperations set_active].
      rewrite fold_left_app, Hk2.
      pose proof (count_path_delete k' _ i _ Hi) as Hc. cbn [pc_path] in Hc.
      cbn [fold_left check_exclusive mbind option_bind].
      destruct (decide (k = k')) as [->|Hne].
      + rewrite is_path_refl in *. rewrite lookup_delete_eq.
        destruct (activeAsyncOperations (self s) !! k'); [|lia].
        assert (Hz : count_path k' (delete i (pending (world s))) = 0) by lia.
        rewrite Hz in *. split; [done|]. by rewrite Hc.
      + rewrite is_path_ne in * by done. rewrite lookup_delete_ne by done.
        rewrite Nat.add_0_r in Hc. rewrite <- Hc. done. }
  munfold. cbn [world self]. fold s2.
  destruct (storeResult_frame k e r s2) as [G1 G2].
  destruct (_storeResult k e r s2) as [[?|?] s3] eqn:Hst; cbn [snd] in *.
  - destruct (runCallbacks_frame a e r s3) as (F1 & F2 & F3).
    eapply exclusive_inv_frame; [| | |exact Hinv2]; congruence.
  - eapply exclusive_inv_frame; [| | |exact Hinv2]; congruence.
Qed.

Lemma exclusive_inv_purge what s :
  exclusive_inv s → exclusive_inv (purge what s).2.
Proof. intros Hinv. by rewrite purge_eq. Qed.

Lemma exclusive_inv_purgeParent what s :
  exclusive_inv s → exclusive_inv (purgeParent what s).2.
Proof.
  intros Hinv. destruct (purgeParent_cases what s) as [[e ->]| ->]; [done|].
  rewrite <- (purge_eq what). by apply exclusive_inv_purge.
Qed.

Lemma exclusive_inv_exec ev s :
  exclusive_inv s → no_race s ev = true → exclusive_inv (exec ev s).2.
Proof.
  intros Hinv Hnr. destruct ev as [a|path options|i e r|what|what]; cbn [exec].
  - simpl in Hnr. apply negb_true_iff in Hnr.
    pose proof (exclusive_inv_provide a s Hinv Hnr) as Hp.
    munfold. by destruct (provide a s) as [[?|?] ?].
  - by apply exclusive_inv_provideSync.
  - pose proof (exclusive_inv_complete i e r s Hinv) as Hp.
    munfold. by destruct (complete i e r s) as [[?|?] ?].
  - pose proof (exclusive_inv_purge what s Hinv) as Hp.
    munfold. by destruct (purge what s) as [[?|?] ?].
  - pose proof (exclusive_inv_purgeParent what s Hinv) as Hp.
    munfold. by destruct (purgeParent what s) as [[?|?] ?].
Qed.

Lemma exclusive_inv_run es s :
  exclusive_inv s → race_free es s = true → exclusive_inv (run es s).
Proof.
  revert s. induction es as [|ev es IH]; intros s Hinv Hrf; [done|].
  simpl in Hrf. apply andb_true_iff in Hrf as [Hnr Hrf].
  cbn [run fold_left]. apply IH; [|done]. by apply exclusive_inv_exec.
Qed.

Lemma exclusive_inv_init d : exclusive_inv (init d).
Proof.
  split; [apply Forall_nil_2|]. intros k. cbn. by rewrite lookup_empty.
Qed.

(** C3, as the code has it: as long as no call carries options and no
    [provideSync] is issued for a key that has an asynchronous call in
    flight, at most one provider call per key is outstanding at any time.
    (A [provideSync] for a key in flight does run the synchronous provider
    next to the outstanding call.) *)
Theorem one_outstanding_call_per_key (d : Z) (es : list event) (k : string) :
  race_free es (init d) = true →
  exclusive k (trace (world (run es (init d)))) = true
  ∧ outstanding k (world (run es (init d))) ≤ 1.
Proof.
  intros Hrf.
  destruct (exclusive_inv_run es (init d) (exclusive_inv_init d) Hrf) as [_ Hk].
  destruct (Hk k) as [Hk1 Hk2]. unfold exclusive. rewrite Hk2. split; [done|].
  rewrite Hk1. destruct (activeAsyncOperations (self (run es (init d))) !! k); lia.
Qed.

End exclusivity.

(** ** The synthesized readJson *)

Section read_json.
Context `{Environment}.

(** C8: for a provider without [readJson], the asynchronous readJson built
    at lines 354-367 reads through [readFile]; when [readFile] delivers
    [(err, buffer)], it answers its callback with the read error if there is one,
    with the error "No file content" if the buffer is missing or empty, with
    the exception of the parse if parsing throws, and with the parsed value
    otherwise. *)
Theorem synthesized_readJson_outcomes {B} (readFile : call_args → M B unit)
    (path : value) (callback : callback) (err buffer : value) (s : state B) :
  let s1 := mkState (add_delivered (mkDelivery (CbJson callback) err buffer) (world s))
                    (self s) in
  CachedInputFileSystem.select_readJson None readFile path callback
  = readFile (Args2 path (CbJson callback))
  ∧ (truthy err = true →
     invoke (CbJson callback) err buffer s = invoke callback err VUndefined s1)
  ∧ (truthy err = false →
     truthy buffer = false ∨ length_is_zero buffer = true →
     invoke (CbJson callback) err buffer s
     = invoke callback (VError "No file content") VUndefined s1)
  ∧ (truthy err = false → truthy buffer = true → length_is_zero buffer = false →
     ∀ e, parse_json buffer = Thrown e →
          invoke (CbJson callback) err buffer s = invoke callback e VUndefined s1)
  ∧ (truthy err = false → truthy buffer = true → length_is_zero buffer = false →
     ∀ data, parse_json buffer = Normal data →
             invoke (CbJson callback) err buffer s = invoke callback VNull data s1).
Proof.
  intros s1. split; [done|].
  assert (Heq : invoke (CbJson callback) err buffer s
                = (if truthy err then invoke callback err VUndefined
                   else if negb (truthy buffer) || length_is_zero buffer
                        then invoke callback (VError "No file content") VUndefined
                        else match parse_json buffer with
                             | Thrown e => invoke callback e VUndefined
                             | Normal data => invoke callback VNull data
                             end) s1) by done.
  rewrite Heq. split_and!.
  - by intros ->.
  - intros -> [->| ->]; [done|]. by rewrite orb_true_r.
  - by intros -> -> -> e ->.
  - by intros -> -> -> data ->.
Qed.

End read_json.

(** ** A synchronous call that takes over an asynchronous one *)

Section sync_steal.
Context `{Environment}.
Import CacheBackend.
Implicit Types (s : state CacheBackend.t).

(** A [provideSync] that misses the cache while continuations are queued for
    its key takes the key out of the registry and hands the provider's
    outcome to each of them. *)
Lemma provideSync_adopts k r ids s :
  LRUCache.bounded (lruCache (self s)) →
  cached s k = None →
  activeAsyncOperations (self s) !! k = Some r →
  arrays (world s) !! r = Some (CbUser <$> ids) →
  let o := syncProvider (trace (world s)) (VStr k) VUndefined in
  let s1 := (provideSync (VStr k) VUndefined s).2 in
  delivered (world s1)
  = delivered (world s) ++ deliveries_to ids (sync_err o) (sync_result o)
  ∧ trace (world s1) = trace (world s) ++ [SyncCall (VStr k) VUndefined]
  ∧ pending (world s1) = pending (world s)
  ∧ activeAsyncOperations (self s1) !! k = None
  ∧ LRUCache.bounded (lruCache (self s1))
  ∧ arrays (world s1) !! r = Some (match ids with
                                   | [i] => [CbUser i]
                                   | _ => []
                                   end).
Proof.
  intros Hb Hc Ha Hr o s1.
  destruct (lruCache_get_bounded k s Hb) as (s0 & Hg & Hw & Ha0 & _ & Hb0 & Hk).
  rewrite Hc in Hg. subst s1.
  rewrite (provideSync_miss_eq k VUndefined s s0 eq_refl Hg), Hw, Ha0, Ha.
  fold o. unfold run_adopted.
  set (s3 := mkState (add_trace (SyncCall (VStr k) VUndefined) (world s))
               (set_active (delete k (activeAsyncOperations (self s))) (self s0))).
  assert (Hb3 : LRUCache.bounded (lruCache (self s3))) by done.
  assert (Hgen : ∀ e v (tail : M t value),
    (∀ s', (tail s').2 = s') →
    let s' := ((_storeResult k e v;; runCallbacks r e v;; tail) s3).2 in
    delivered (world s') = delivered (world s) ++ deliveries_to ids e v
    ∧ trace (world s') = trace (world s) ++ [SyncCall (VStr k) VUndefined]
    ∧ pending (world s') = pending (world s)
    ∧ activeAsyncOperations (self s') !! k = None
    ∧ LRUCache.bounded (lruCache (self s'))
    ∧ arrays (world s') !! r = Some (match ids with
                                     | [i] => [CbUser i]
                                     | _ => []
                                     end)).
  { intros e v tail Htail.
    destruct (storeResult_bounded k e v s3 Hb3) as (s4 & Hst & Hw4 & Ha4 & _ & Hb4 & _).
    rewrite (bind_normal _ _ _ _ _ Hst).
    assert (Hr4 : arrays (world s4) !! r = Some (CbUser <$> ids)) by by rewrite Hw4.
    destruct (runCallbacks_users r ids e v s4 Hr4) as (H1 & H2 & H3 & H4 & H5).
    assert (Hs' : ((runCallbacks r e v;; tail) s4).2 = (runCallbacks r e v s4).2).
    { munfold. destruct (runCallbacks r e v s4) as [[?|?] s5]; [apply Htail|done]. }
    cbn zeta. rewrite Hs', H1, H2, H3, H4, H5, Hw4, Ha4.
    split_and!; try done.
    - subst s3. cbn. apply lookup_delete_eq.
    - destruct ids as [|i [|j ids]]; subst s3; cbn;
        [apply lookup_insert_eq|done|apply lookup_insert_eq]. }
  destruct o as [v|e]; cbn [sync_err sync_result]; by apply Hgen.
Qed.

(** With two or more continuations adopted, the array is emptied (line 33),
    so the completion of the outstanding call finds nobody to deliver to. *)
Lemma completion_after_steal_many k r i s e v :
  LRUCache.bounded (lruCache (self s)) →
  pending (world s) !! i = Some (mkCall (VStr k) VUndefined (KMerged k r)) →
  arrays (world s) !! r = Some [] →
  delivered (world (complete i e v s).2) = delivered (world s).
Proof.
  intros Hb Hp Hr. unfold complete.
  rewrite (bind_normal _ _ _ _ _ (take_pending_lookup s i _ Hp)).
  cbn [pc_callback pc_path].
  set (s1 := mkState (add_trace (AsyncDone (VStr k))
                        (set_pending (delete i (pending (world s))) (world s))) (self s)).
  set (s2 := mkState (world s1)
               (set_active (delete k (activeAsyncOperations (self s1))) (self s1))).
  assert (Hb2 : LRUCache.bounded (lruCache (self s2))) by done.
  destruct (storeResult_bounded k e v s2 Hb2) as (s3 & Hst & Hw3 & Ha3 & _ & Hb3 & Hc3).
  assert (Hstep : (modify_self (λ b, set_active (delete k (activeAsyncOperations b)) b)
                   ≫= (λ _ : (), _storeResult k e v
                   ≫= (λ _ : (), runCallbacks r e v))) s1
                  = runCallbacks r e v s3).
  { munfold. cbn [world self]. fold s2. munfold. by rewrite Hst. }
  rewrite Hstep.
  assert (Hr3 : arrays (world s3) !! r = Some (CbUser <$> [])) by by rewrite Hw3.
  destruct (runCallbacks_users r [] e v s3 Hr3) as (_ & _ & _ & H4 & _).
  rewrite H4, Hw3. cbn. by rewrite app_nil_r.
Qed.

(** With a single continuation adopted, line 24 returns before the array is
    emptied: the completion of the outstanding call delivers to the same
    continuation once more. *)
Lemma completion_after_steal_one k r i j s e v :
  LRUCache.bounded (lruCache (self s)) →
  pending (world s) !! i = Some (mkCall (VStr k) VUndefined (KMerged k r)) →
  arrays (world s) !! r = Some [CbUser j] →
  delivered (world (complete i e v s).2)
  = delivered (world s) ++ [mkDelivery (CbUser j) e v].
Proof.
  intros Hb Hp Hr. unfold complete.
  rewrite (bind_normal _ _ _ _ _ (take_pending_lookup s i _ Hp)).
  cbn [pc_callback pc_path].
  set (s1 := mkState (add_trace (AsyncDone (VStr k))
                        (set_pending (delete i (pending (world s))) (world s))) (self s)).
  set (s2 := mkState (world s1)
               (set_active (delete k (activeAsyncOperations (self s1))) (self s1))).
  assert (Hb2 : LRUCache.bounded (lruCache (self s2))) by done.
  destruct (storeResult_bounded k e v s2 Hb2) as (s3 & Hst & Hw3 & Ha3 & _ & Hb3 & Hc3).
  assert (Hstep : (modify_self (λ b, set_active (delete k (activeAsyncOperations b)) b)
                   ≫= (λ _ : (), _storeResult k e v
                   ≫= (λ _ : (), runCallbacks r e v))) s1
                  = runCallbacks r e v s3).
  { munfold. cbn [world self]. fold s2. munfold. by rewrite Hst. }
  rewrite Hstep.
  assert (Hr3 : arrays (world s3) !! r = Some (CbUser <$> [j])) by by rewrite Hw3.
  destruct (runCallbacks_users r [j] e v s3 Hr3) as (_ & _ & _ & H4 & _).
  rewrite H4, Hw3. done.
Qed.

End sync_steal.

(** ** Reachable states *)

Section reachable.
Context `{Environment}.
Import CacheBackend.
Implicit Types (s : state CacheBackend.t).

Lemma bounded_frame s s' :
  lruCache (self s') = lruCache (self s) →
  LRUCache.bounded (lruCache (self s)) → LRUCache.bounded (lruCache (self s')).
Proof. by intros ->. Qed.

Lemma bounded_provide a s :
  LRUCache.bounded (lruCache (self s)) →
  LRUCache.bounded (lruCache (self (provide a s).2)).
Proof.
  intros Hb. unfold provide. destruct (normalize a) as [[path options] cb].
  assert (Hinvoke : ∀ e r s0, LRUCache.bounded (lruCache (self s0)) →
                              LRUCache.bounded (lruCache (self (invoke cb e r s0).2))).
  { intros e r s0 Hb0. destruct (invoke_frame cb e r s0) as (H1 & _). by rewrite H1. }
  destruct path; try (by apply Hinvoke).
  destruct (truthy options); [done|].
  destruct (lruCache_get_bounded s0 s Hb) as (s1 & Hg & Hw & Ha & _ & Hb1 & Hk).
  rewrite (bind_normal _ _ _ _ _ Hg).
  destruct (cached s s0) as [e|].
  { destruct (truthy (err e)); by apply Hinvoke. }
  munfold. cbn [world self].
  destruct (activeAsyncOperations (self s1) !! s0); done.
Qed.

Lemma bounded_storeResult k e r s :
  LRUCache.bounded (lruCache (self s)) →
  LRUCache.bounded (lruCache (self (_storeResult k e r s).2)).
Proof.
  intros Hb. destruct (storeResult_bounded k e r s Hb) as (s' & -> & _ & _ & _ & Hb' & _).
  done.
Qed.

Lemma bounded_provideSync path options s :
  LRUCache.bounded (lruCache (self s)) →
  LRUCache.bounded (lruCache (self (provideSync path options s).2)).
Proof.
  intros Hb. destruct path; try (by unfold provideSync).
  destruct (truthy options) eqn:Ho.
  { unfold provideSync. rewrite Ho. unfold call_syncProvider. munfold. cbn [world self].
    by destruct (syncProvider (trace (world s)) (VStr s0) options). }
  destruct (lruCache_get_bounded s0 s Hb) as (s1 & Hg & Hw & Ha & _ & Hb1 & Hk).
  destruct (cached s s0) as [e|] eqn:Hc.
  { unfold provideSync. rewrite Ho, (bind_normal _ _ _ _ _ Hg).
    by destruct (truthy (err e)). }
  rewrite (provideSync_miss_eq s0 options s s1 Ho Hg).
  set (s3 := mkState (add_trace (SyncCall (VStr s0) VUndefined) (world s1))
               (set_active (delete s0 (activeAsyncOperations (self s1))) (self s1))).
  assert (Hb3 : LRUCache.bounded (lruCache (self s3))) by done.
  assert (Hgen : ∀ e v (tail : M t value),
    (∀ s', (tail s').2 = s') →
    LRUCache.bounded (lruCache (self
      ((_storeResult s0 e v;;
        run_adopted (activeAsyncOperations (self s1) !! s0) e v;; tail) s3).2))).
  { intros e v tail Htail.
    destruct (storeResult_bounded s0 e v s3 Hb3) as (s4 & Hst & _ & _ & _ & Hb4 & _).
    rewrite (bind_normal _ _ _ _ _ Hst). unfold run_adopted.
    destruct (activeAsyncOperations (self s1) !! s0) as [r|].
    - destruct (runCallbacks_frame r e v s4) as (H1 & _).
      munfold. destruct (runCallbacks r e v s4) as [[?|?] s5]; cbn [snd] in *.
      + rewrite Htail. by rewrite H1.
      + by rewrite H1.
    - munfold. by rewrite Htail. }
  destruct (syncProvider (trace (world s1)) (VStr s0) VUndefined); by apply Hgen.
Qed.

Lemma bounded_complete i e r s :
  LRUCache.bounded (lruCache (self s)) →
  LRUCache.bounded (lruCache (self (complete i e r s).2)).
Proof.
  intros Hb. unfold complete.
  destruct (pending (world s) !! i) as [pc|] eqn:Hi.
  2:{ by rewrite (bind_normal _ _ _ _ _ (take_pending_None s i Hi)). }
  rewrite (bind_normal _ _ _ _ _ (take_pending_lookup s i pc Hi)).
  destruct (pc_callback pc) as [cb|k a].
  - destruct (invoke_frame cb e r
      (mkState (add_trace (AsyncDone (pc_path pc))
                  (set_pending (delete i (pending (world s))) (world s))) (self s)))
      as (H1 & _).
    by rewrite H1.
  - munfold. cbn [world self].
    set (s2 := mkState _ (set_active _ (self s))).
    assert (Hb2 : LRUCache.bounded (lruCache (self s2))) by done.
    destruct (storeResult_bounded k e r s2 Hb2) as (s3 & -> & _ & _ & _ & Hb3 & _).
    destruct (runCallbacks_frame a e r s3) as (H1 & _). by rewrite H1.
Qed.

Lemma bounded_exec ev s :
  LRUCache.bounded (lruCache (self s)) →
  LRUCache.bounded (lruCache (self (exec ev s).2)).
Proof.
  intros Hb. destruct ev as [a|path options|i e r|what|what]; cbn [exec].
  - pose proof (bounded_provide a s Hb) as Hp.
    munfold. by destruct (provide a s) as [[?|?] ?].
  - by apply bounded_provideSync.
  - pose proof (bounded_complete i e r s Hb) as Hp.
    munfold. by destruct (complete i e r s) as [[?|?] ?].
  - munfold. rewrite purge_eq. cbn. apply LRUFacts.bounded_purge. by destruct Hb as (? & ? & ? & ?).
  - munfold. destruct (purgeParent_cases what s) as [[e ->]| ->]; [done|].
    cbn. apply LRUFacts.bounded_purge. by destruct Hb as (? & ? & ? & ?).
Qed.

(** Every state a backend made by [createBackend] can reach keeps its LRU
    within capacity. *)
Lemma bounded_reachable (d : Z) es :
  (0 < d)%Z → LRUCache.bounded (lruCache (self (run es (init d)))).
Proof.
  intros Hd.
  assert (Hgen : ∀ s, LRUCache.bounded (lruCache (self s)) →
                      LRUCache.bounded (lruCache (self (run es s)))).
  { induction es as [|ev es IH]; intros s Hb; [done|].
    cbn [run fold_left]. apply IH. by apply bounded_exec. }
  apply Hgen. apply LRUFacts.bounded_new. lia.
Qed.

End reachable.

(** ** The scenarios of the test suite, run on the model *)

Section scenarios.
Import CacheBackend.

(** C2 on the code: one continuation is waiting for "k" when [provideSync]
    takes over; it receives the synchronous outcome, and then the outcome of
    the asynchronous call as well, since line 24 returns without emptying the
    array that the completion closure still holds. *)
Theorem sync_steal_single_continuation_delivered_twice :
  let s := run (H := test_env)
             [Provide (Args2 (VStr "k") (CbUser 0));
              ProvideSync (VStr "k") VUndefined;
              Complete 0 VNull (VObj 77)] (init 1000) in
  delivered (world s)
  = [mkDelivery (CbUser 0) VUndefined (VObj 1);
     mkDelivery (CbUser 0) VNull (VObj 77)]
  ∧ trace (world s)
    = [AsyncCall (VStr "k") VUndefined; SyncCall (VStr "k") VUndefined;
       AsyncDone (VStr "k")].
Proof. vm_compute. done. Qed.

(** With two continuations waiting, each is served once. *)
Example sync_steal_two_continuations :
  let s := run (H := test_env)
             [Provide (Args2 (VStr "k") (CbUser 0));
              Provide (Args2 (VStr "k") (CbUser 1));
              ProvideSync (VStr "k") VUndefined;
              Complete 0 VNull (VObj 77)] (init 1000) in
  delivered (world s)
  = [mkDelivery (CbUser 0) VUndefined (VObj 1);
     mkDelivery (CbUser 1) VUndefined (VObj 1)].
Proof. vm_compute. done. Qed.

(** C3 refuted: a [provideSync] for a key with an asynchronous call in flight
    runs the synchronous provider while that call is still outstanding. *)
Lemma sync_call_overlaps_outstanding_call :
  let s := run (H := test_env)
             [Provide (Args2 (VStr "k") (CbUser 0));
              ProvideSync (VStr "k") VUndefined] (init 1000) in
  trace (world s) = [AsyncCall (VStr "k") VUndefined; SyncCall (VStr "k") VUndefined]
  ∧ outstanding "k" (world s) = 1
  ∧ exclusive "k" (trace (world s)) = false.
Proof. vm_compute. done. Qed.

(** C5 refuted: the entries for "/a" and "/a/b/c" are gone as well. *)
Lemma purgeParent_drops_unrelated_entries :
  let s := run (H := test_env)
             [ProvideSync (VStr "/a") VUndefined;
              ProvideSync (VStr "/a/b") VUndefined;
              ProvideSync (VStr "/a/b/c") VUndefined] (init 1000) in
  let s' := run (H := test_env) [PurgeParent (VIter ["/a/b/c"%string])] s in
  cached s "/a" = Some (mkEntry VUndefined (VObj 0))
  ∧ cached s "/a/b" = Some (mkEntry VUndefined (VObj 1))
  ∧ cached s "/a/b/c" = Some (mkEntry VUndefined (VObj 2))
  ∧ cached s' "/a/b" = None
  ∧ cached s' "/a" = None
  ∧ cached s' "/a/b/c" = None.
Proof. vm_compute. done. Qed.

(** C7 refuted: with capacity one, storing "b" evicts the cached error of
    "missing"; no purge happened, and the next lookup of "missing" calls the
    provider again. *)
Lemma cached_error_lost_without_purge :
  let s1 := run (H := test_env) [ProvideSync (VStr "missing") VUndefined] (init 1) in
  let s2 := run (H := test_env) [ProvideSync (VStr "b") VUndefined] s1 in
  let s3 := run (H := test_env) [ProvideSync (VStr "missing") VUndefined] s2 in
  cached s1 "missing" = Some (mkEntry (VError "ENOENT") VUndefined)
  ∧ cached s2 "missing" = None
  ∧ trace (world s3)
    = [SyncCall (VStr "missing") VUndefined; SyncCall (VStr "b") VUndefined;
       SyncCall (VStr "missing") VUndefined].
Proof. vm_compute. done. Qed.

(** C9 refuted: on a hit the continuation has already run when [provide]
    returns, and nothing is left pending. *)
Lemma cache_hit_calls_back_before_returning :
  let s := run (H := test_env) [ProvideSync (VStr "a") VUndefined] (init 10) in
  let s' := (provide (H := test_env) (Args2 (VStr "a") (CbUser 3)) s).2 in
  cached s "a" = Some (mkEntry VUndefined (VObj 0))
  ∧ delivered (world s) = []
  ∧ delivered (world s') = [mkDelivery (CbUser 3) VNull (VObj 0)]
  ∧ delivered (world s') ≠ delivered (world s)
  ∧ pending (world s') = [].
Proof. vm_compute. split_and!; done. Qed.

(** The invariant at work on a run without races. *)
Lemma one_outstanding_call_per_key_witness :
  let es := [Provide (Args2 (VStr "a") (CbUser 0));
             Provide (Args2 (VStr "a") (CbUser 1));
             ProvideSync (VStr "b") VUndefined;
             Complete 0 VNull (VObj 7);
             ProvideSync (VStr "a") VUndefined;
             Purge VUndefined;
             Provide (Args2 (VStr "a") (CbUser 2))] in
  race_free (H := test_env) es (init 1000) = true
  ∧ exclusive "a" (trace (world (run (H := test_env) es (init 1000)))) = true
  ∧ outstanding "a" (world (run (H := test_env) es (init 1000))) ≤ 1.
Proof.
  intros es.
  assert (Hrf : race_free (H := test_env) es (init 1000) = true) by (vm_compute; reflexivity).
  split; [exact Hrf|].
  exact (one_outstanding_call_per_key (H := test_env) 1000 es "a" Hrf).
Defined.

(** The replay theorem at work: the synchronous provider fails for
    "missing", and three lookups follow. *)
Lemma provider_error_is_cached_and_replayed_witness :
  let s := init 1 in
  let s' := (provideSync (H := test_env) (VStr "missing") VUndefined s).2 in
  let ls := [ViaProvideSync; ViaProvide 0; ViaProvideSync] in
  truthy (VError "ENOENT") = true
  ∧ LRUCache.bounded (lruCache (self s))
  ∧ provider_failed (H := test_env) "missing" (VError "ENOENT") VUndefined s s'
  ∧ cached s' "missing" = Some (mkEntry (VError "ENOENT") VUndefined)
  ∧ outcomes (H := test_env) (lookup_event "missing" <$> ls) s'
    = [Thrown (VError "ENOENT"); Normal VUndefined; Thrown (VError "ENOENT")]
  ∧ trace (world (run (H := test_env) (lookup_event "missing" <$> ls) s')) = trace (world s').
Proof.
  intros s s' ls.
  assert (He : truthy (VError "ENOENT") = true) by reflexivity.
  assert (Hb : LRUCache.bounded (lruCache (self s))) by (apply LRUFacts.bounded_new; lia).
  assert (Hf : provider_failed (H := test_env) "missing" (VError "ENOENT") VUndefined s s').
  { right. split_and!; reflexivity. }
  destruct (provider_error_is_cached_and_replayed (H := test_env)
              "missing" (VError "ENOENT") VUndefined s s' ls He Hb Hf)
    as (H1 & H2 & _ & H4 & _).
  split_and!; [exact He|exact Hb|exact Hf|exact H1|exact H2|exact H4].
Defined.

(** The hit theorem at work on a cached success. *)
Lemma provide_hit_delivers_in_call_witness :
  let s := run (H := test_env) [ProvideSync (VStr "a") VUndefined] (init 10) in
  let e := mkEntry VUndefined (VObj 0) in
  LRUCache.bounded (lruCache (self s))
  ∧ cached s "a" = Some e
  ∧ (∃ more,
       delivered (world (provide (H := test_env) (Args2 (VStr "a") (CbUser 3)) s).2)
       = delivered (world s) ++ mkDelivery (CbUser 3) VNull (VObj 0) :: more)
  ∧ pending (world (provide (H := test_env) (Args2 (VStr "a") (CbUser 3)) s).2)
    = pending (world s).
Proof.
  intros s e.
  assert (Hb : LRUCache.bounded (lruCache (self s)))
    by (apply (bounded_reachable (H := test_env)); lia).
  assert (Hc : cached s "a" = Some e) by (vm_compute; reflexivity).
  destruct (provide_hit_delivers_in_call (H := test_env) "a" (CbUser 3) s e Hb Hc)
    as (H1 & H2 & _).
  split_and!; [exact Hb|exact Hc|exact H1|exact H2].
Defined.

(** The type check at work on an undefined path with options. *)
Lemma path_type_check_order_witness :
  let s := init 1000 in
  let m := mkState empty_world OperationMergerBackend.new in
  is_string VUndefined = false
  ∧ provideSync (H := test_env) VUndefined (VObj 1) s
    = (Thrown (VTypeError "path must be a string"), s)
  ∧ trace (world (provide (H := test_env) (Args3 VUndefined (VObj 1) (CbUser 0)) s).2) = []
  ∧ trace (world (OperationMergerBackend.provide (H := test_env)
                    (Args3 VUndefined (VObj 1) (CbUser 0)) m).2)
    = [AsyncCall VUndefined (VObj 1)].
Proof.
  intros s m.
  assert (Hp : is_string VUndefined = false) by reflexivity.
  destruct (path_type_check_order (H := test_env) VUndefined (VObj 1) (CbUser 0) s m Hp)
    as ((_ & _ & _ & H1) & H2 & H3).
  split_and!; [exact Hp|exact H2|exact H1|].
  by rewrite (H3 eq_refl).
Defined.

(** The LRU theorem at work on a cache of capacity two. *)
Lemma lru_bounded_and_ordered_by_recency_witness :
  (1 ≤ 2)%Z
  ∧ ∃ c, LRUCache.run [LRUCache.Put "a"%string 1; LRUCache.Put "b"%string 2;
                       LRUCache.Get "a"%string; LRUCache.Put "c"%string 3]
                      (LRUCache.new 2) = Some c
         ∧ (Z.of_nat (LRUCache.size c) ≤ 2)%Z.
Proof.
  assert (Hc : (1 ≤ 2)%Z) by lia.
  split; [exact Hc|].
  destruct (LRUFacts.lru_bounded_and_ordered_by_recency (K := string) (V := nat) 2
              [LRUCache.Put "a"%string 1; LRUCache.Put "b"%string 2;
               LRUCache.Get "a"%string; LRUCache.Put "c"%string 3] Hc)
    as (c & H1 & H2 & _).
  exists c. split; [exact H1|exact H2].
Defined.

(** The synthesized readJson over a caching readFile backend, for each of
    the four outcomes. *)
Example readJson_end_to_end :
  let readJson := CachedInputFileSystem.select_readJson None (provide (H := test_env)) in
  let s := (readJson (VStr "/p.json") (CbUser 0) (init 1000)).2 in
  let answer err buffer :=
    last (delivered (world (complete (H := test_env) 0 err buffer s).2)) in
  answer (VError "EACCES") VUndefined
  = Some (mkDelivery (CbUser 0) (VError "EACCES") VUndefined)
  ∧ answer VNull (VBuffer "")
    = Some (mkDelivery (CbUser 0) (VError "No file content") VUndefined)
  ∧ answer VNull VUndefined
    = Some (mkDelivery (CbUser 0) (VError "No file content") VUndefined)
  ∧ answer VNull (VBuffer "{")
    = Some (mkDelivery (CbUser 0) (VError "Unexpected token") VUndefined)
  ∧ answer VNull (VBuffer "{}") = Some (mkDelivery (CbUser 0) VNull (VObj 0)).
Proof. vm_compute. done. Qed.

Example lru_run_entries :
  LRUCache.entries <$>
    LRUCache.run [LRUCache.Put "a"%string 1; LRUCache.Put "b"%string 2;
                  LRUCache.Get "a"%string; LRUCache.Put "c"%string 3]
                 (LRUCache.new 2)
  = Some [("a"%string, 1); ("c"%string, 3)].
Proof. vm_compute. done. Qed.

Example dirname_examples :
  dirname "/a/b/c" = "/a/b"%string
  ∧ dirname "/a" = ""%string
  ∧ dirname "a" = ""%string
  ∧ dirname "C:\dir\file" = "C:\dir"%string.
Proof. done. Qed.

End scenarios.

(** ** dirname *)

Section dirname_facts.

Lemma get_append_right (s1 s2 : string) n :
  String.get (String.length s1 + n) (s1 ++ s2) = String.get n s2.
Proof. induction s1 as [|c s1 IH]; [done|]. simpl. apply IH. Qed.

Lemma substring_append_left (s1 s2 : string) :
  String.substring 0 (String.length s1) (s1 ++ s2) = s1.
Proof.
  induction s1 as [|c s1 IH]; simpl.
  - by destruct s2.
  - by rewrite IH.
Qed.

Lemma no_separator_get s i c :
  no_separator s = true → String.get i s = Some c → is_separator c = false.
Proof.
  revert i. induction s as [|c' s IH]; intros i Hs Hi; [done|].
  simpl in Hs. apply andb_true_iff in Hs as [Hc Hs].
  destruct i as [|i]; simpl in Hi.
  - injection Hi as <-. by apply negb_true_iff.
  - by apply (IH i).
Qed.

Lemma dirname_scan_no_separator s n :
  no_separator s = true → dirname_scan s n = None.
Proof.
  intros Hs. induction n as [|n IH]; [done|]. simpl. unfold charCodeAt.
  destruct (String.get n s) as [c|] eqn:Hc; simpl; [|done].
  apply (no_separator_get _ _ _ Hs) in Hc. unfold is_separator in Hc.
  by rewrite Hc.
Qed.

Lemma dirname_scan_join dir sep name m :
  is_separator sep = true → no_separator name = true →
  dirname_scan (dir ++ String sep name) (String.length dir + S m)
  = Some (String.length dir).
Proof.
  intros Hsep Hname. induction m as [|m IH].
  - rewrite Nat.add_1_r. simpl. unfold charCodeAt.
    rewrite <- (Nat.add_0_r (String.length dir)) at 1.
    rewrite get_append_right. simpl. unfold is_separator in Hsep. by rewrite Hsep.
  - rewrite Nat.add_succ_r. simpl. unfold charCodeAt.
    rewrite get_append_right. simpl.
    destruct (String.get m name) as [c|] eqn:Hc; simpl.
    + apply (no_separator_get _ _ _ Hname) in Hc. unfold is_separator in Hc.
      rewrite Hc. apply IH.
    + apply IH.
Qed.

Lemma length_append (s1 s2 : string) :
  String.length (s1 ++ s2) = String.length s1 + String.length s2.
Proof. induction s1 as [|c s1 IH]; [done|]. simpl. by rewrite IH. Qed.

Lemma dirname_join_eq dir sep name :
  is_separator sep = true → no_separator name = true →
  dirname (dir ++ String sep name) = dir.
Proof.
  intros Hsep Hname. unfold dirname. rewrite length_append. simpl.
  rewrite (dirname_scan_join dir sep name _ Hsep Hname).
  apply substring_append_left.
Qed.

(** A string has no separator, or splits at its last one. *)
Lemma split_last_separator s :
  no_separator s = true
  ∨ ∃ dir sep name, is_separator sep = true ∧ no_separator name = true
                    ∧ s = (dir ++ String sep name)%string.
Proof.
  induction s as [|c s IH]; [by left|].
  destruct IH as [Hs|(dir & sep & name & Hsep & Hname & ->)].
  - destruct (is_separator c) eqn:Hc.
    + right. exists ""%string, c, s. done.
    + left. simpl. by rewrite Hc.
  - right. exists (String c dir), sep, name. done.
Qed.

(** X1: [dirname] cuts a path at its last slash or backslash: a path without
    a separator has the empty parent; any other path is its parent, followed
    by a separator and a last segment without separators. *)
Theorem dirname_splits_at_last_separator (path : string) :
  (no_separator path = true ∧ dirname path = ""%string)
  ∨ (∃ sep name, is_separator sep = true ∧ no_separator name = true
                 ∧ path = (dirname path ++ String sep name)%string).
Proof.
  destruct (split_last_separator path) as [Hs|(dir & sep & name & Hsep & Hname & ->)].
  - left. split; [done|]. unfold dirname. by rewrite dirname_scan_no_separator.
  - right. exists sep, name. by rewrite dirname_join_eq.
Qed.

(** X2: the parent of a directory joined with a segment is that directory,
    for either separator, whatever the directory contains. *)
Theorem dirname_of_joined_path (dir : string) (sep : ascii) (name : string) :
  is_separator sep = true → no_separator name = true →
  dirname (dir ++ String sep name) = dir.
Proof. apply dirname_join_eq. Qed.

End dirname_facts.

(** ** More on the LRU cache *)

Section lru_more.
Context {K : Type} `{Countable K} {V : Type}.
Import LRUCache.
Implicit Types (c : LRUCache.t K V) (es : list (K * V)).

Lemma bounded_put_entries c k v :
  bounded c →
  ∃ c', put k v c = Some c' ∧ bounded c' ∧ cap c' = cap c
        ∧ entries c' = spec_put (cap c) k v (entries c).
Proof.
  intros (l & Hr & Hc & Hlen).
  destruct (LRUFacts.put_repr _ _ k v Hr Hc) as (c' & l' & Hp & Hr' & Hs & Hcap).
  destruct (LRUFacts.bounded_put c k v) as (c'' & Hp' & Hb & _); [by exists l|].
  rewrite Hp in Hp'. injection Hp' as <-.
  exists c'. split_and!; try done.
  by rewrite (LRUFacts.entries_repr _ _ Hr'), (LRUFacts.entries_repr _ _ Hr).
Qed.

Lemma bounded_get_entries c k :
  bounded c →
  bounded (get k c).2 ∧ cap (get k c).2 = cap c
  ∧ (get k c).1 = spec_lookup k (entries c)
  ∧ entries (get k c).2 = (spec_get k (entries c)).2.
Proof.
  intros Hb. destruct (LRUFacts.bounded_get _ k Hb) as [Hb' Hc].
  destruct (LRUFacts.bounded_get_lookup _ k Hb) as [Hl _].
  destruct Hb as (l & Hr & _).
  destruct (LRUFacts.get_repr _ _ k Hr) as (l' & Hr' & Hs & _).
  split_and!; try done.
  rewrite (LRUFacts.entries_repr _ _ Hr'), (LRUFacts.entries_repr _ _ Hr).
  by rewrite <- Hs.
Qed.

Lemma bounded_entries_NoDup c : bounded c → NoDup (entries c).*1.
Proof.
  intros (l & Hr & _). rewrite (LRUFacts.entries_repr _ _ Hr).
  by destruct Hr as (_ & ? & _).
Qed.

Lemma run_app (ops1 ops2 : list (op K V)) c :
  run (ops1 ++ ops2) c = run ops1 c ≫= run ops2.
Proof.
  revert c. induction ops1 as [|o ops1 IH]; intros c; [done|].
  simpl. destruct (apply_op o c) as [c'|]; [apply IH|done].
Qed.

Lemma spec_remove_length k es : length (spec_remove k es) ≤ length es.
Proof.
  unfold spec_remove. induction es as [|e es IH]; [done|]. simpl.
  destruct (negb (bool_decide (e.1 = k))); simpl; lia.
Qed.

Lemma spec_remove_app k es1 es2 :
  spec_remove k (es1 ++ es2) = spec_remove k es1 ++ spec_remove k es2.
Proof. unfold spec_remove. apply List.filter_app. Qed.

Lemma spec_remove_cons_ne k k' v es :
  k' ≠ k → spec_remove k ((k', v) :: es) = (k', v) :: spec_remove k es.
Proof. intros Hne. unfold spec_remove. simpl. by rewrite bool_decide_eq_false_2. Qed.

(** Touching another key moves an entry at most one place towards the
    least recently used end. *)
Lemma spec_put_keeps capacity k v k' v' es1 es2 :
  k' ≠ k → (Z.of_nat (length es2) + 1 < capacity)%Z →
  ∃ es1' es2', spec_put capacity k' v' (es1 ++ (k, v) :: es2) = es1' ++ (k, v) :: es2'
               ∧ length es2' ≤ S (length es2).
Proof.
  intros Hne Hlen. unfold spec_put.
  destruct (spec_lookup k' (es1 ++ (k, v) :: es2)) as [v0|].
  - rewrite spec_remove_app, spec_remove_cons_ne by done.
    exists (spec_remove k' es1), (spec_remove k' es2 ++ [(k', v')]).
    rewrite <- app_assoc. split; [done|].
    rewrite length_app. simpl. pose proof (spec_remove_length k' es2). lia.
  - destruct (Z.of_nat (length (es1 ++ (k, v) :: es2)) >=? capacity)%Z eqn:Hfull.
    + destruct es1 as [|e es1].
      { simpl in Hfull. apply Z.geb_le in Hfull. lia. }
      exists es1, (es2 ++ [(k', v')]). simpl. rewrite <- app_assoc. split; [done|].
      rewrite length_app. simpl. lia.
    + exists es1, (es2 ++ [(k', v')]). rewrite <- app_assoc. split; [done|].
      rewrite length_app. simpl. lia.
Qed.

Lemma spec_get_keeps k v k' es1 es2 :
  k' ≠ k →
  ∃ es1' es2', (spec_get k' (es1 ++ (k, v) :: es2)).2 = es1' ++ (k, v) :: es2'
               ∧ length es2' ≤ S (length es2).
Proof.
  intros Hne. unfold spec_get.
  destruct (spec_lookup k' (es1 ++ (k, v) :: es2)) as [v0|]; simpl.
  - rewrite spec_remove_app, spec_remove_cons_ne by done.
    exists (spec_remove k' es1), (spec_remove k' es2 ++ [(k', v0)]).
    rewrite <- app_assoc. split; [done|].
    rewrite length_app. simpl. pose proof (spec_remove_length k' es2). lia.
  - exists es1, es2. split; [done|]. lia.
Qed.

Lemma entry_survives ops c k v es1 es2 :
  bounded c →
  entries c = es1 ++ (k, v) :: es2 →
  Forall (λ o, op_key o ≠ k) ops →
  (Z.of_nat (length es2) + Z.of_nat (length ops) < cap c)%Z →
  ∃ c', run ops c = Some c' ∧ bounded c' ∧ (get k c').1 = Some v.
Proof.
  revert c es1 es2. induction ops as [|o ops IH]; intros c es1 es2 Hb He Hk Hlen.
  - exists c. split_and!; try done.
    destruct (bounded_get_entries c k Hb) as (_ & _ & -> & _).
    pose proof (bounded_entries_NoDup c Hb) as Hnd. rewrite He in *.
    rewrite fmap_app, fmap_cons in Hnd. simpl in Hnd.
    apply NoDup_app in Hnd as (_ & Hd & _).
    apply LRUFacts.spec_lookup_hit. intros Hin. apply (Hd _ Hin), elem_of_cons. by left.
  - apply Forall_cons in Hk as [Hko Hk]. simpl in Hlen.
    destruct o as [k'|k' v']; simpl in Hko; simpl.
    + destruct (bounded_get_entries c k' Hb) as (Hb' & Hc' & _ & He').
      rewrite He in He'.
      destruct (spec_get_keeps k v k' es1 es2 Hko) as (es1' & es2' & Hs & Hl).
      rewrite Hs in He'.
      apply (IH _ es1' es2'); try done. rewrite Hc'. lia.
    + destruct (bounded_put_entries c k' v' Hb) as (c1 & -> & Hb' & Hc' & He').
      rewrite He in He'.
      destruct (spec_put_keeps (cap c) k v k' v' es1 es2 Hko) as (es1' & es2' & Hs & Hl);
        [lia|].
      rewrite Hs in He'. simpl.
      apply (IH _ es1' es2'); try done. rewrite Hc'. lia.
Qed.

(** X3: an entry survives any operations on other keys as long as fewer of
    them follow its last [put] than the capacity: the next [get] still
    returns the value that was put. *)
Theorem lru_entry_survives_fewer_than_capacity_ops (capacity : Z)
    (before after : list (op K V)) (k : K) (v : V) :
  (1 ≤ capacity)%Z →
  Forall (λ o, op_key o ≠ k) after →
  (Z.of_nat (length after) < capacity)%Z →
  ∃ c, run (before ++ Put k v :: after) (new capacity) = Some c
       ∧ (get k c).1 = Some v.
Proof.
  intros Hcap Hk Hlen.
  destruct (LRUFacts.bounded_run before (new capacity) (LRUFacts.bounded_new capacity Hcap))
    as (c0 & Hrun0 & Hb0 & Hc0).
  destruct (bounded_put_entries c0 k v Hb0) as (c1 & Hp & Hb1 & Hc1 & He1).
  assert (Hsplit : ∃ es1, entries c1 = es1 ++ [(k, v)]).
  { rewrite He1. unfold spec_put. destruct (spec_lookup k (entries c0)); eauto. }
  destruct Hsplit as [es1 Hes1].
  destruct (entry_survives after c1 k v es1 [] Hb1 Hes1 Hk) as (c & Hrun & _ & Hg).
  { rewrite Hc1, Hc0. simpl. lia. }
  exists c. split; [|done].
  rewrite run_app, Hrun0. simpl. rewrite Hp. simpl. done.
Qed.

(** X4: [put] then [get] gives back the value, in any cache reached from an
    empty one of capacity at least one; and a [get] changes no answer: after
    it, every key is found or missed as before and with the same value, and
    a [get] that misses leaves the cache exactly as it was. *)
Theorem lru_put_get_round_trip (capacity : Z) (ops : list (op K V)) :
  (1 ≤ capacity)%Z →
  ∃ c, run ops (new capacity) = Some c
       ∧ (∀ k v, ∃ c', put k v c = Some c' ∧ (get k c').1 = Some v)
       ∧ (∀ k k', (get k' (get k c).2).1 = (get k' c).1)
       ∧ (∀ k, (get k c).1 = None → (get k c).2 = c).
Proof.
  intros Hcap.
  destruct (LRUFacts.bounded_run ops (new capacity) (LRUFacts.bounded_new capacity Hcap))
    as (c & Hrun & Hb & Hc).
  exists c. split_and!; [done| | |].
  - intros k v.
    destruct (LRUFacts.bounded_put_lookup c k v Hb) as (c' & Hp & Hb' & _ & Hl).
    exists c'. split; [done|].
    destruct (LRUFacts.bounded_get_lookup c' k Hb') as [-> _]. done.
  - intros k k'.
    destruct (LRUFacts.bounded_get c k Hb) as [Hb' _].
    destruct (LRUFacts.bounded_get_lookup c k Hb) as [_ Hsame].
    destruct (LRUFacts.bounded_get_lookup c k' Hb) as [-> _].
    destruct (LRUFacts.bounded_get_lookup _ k' Hb') as [-> _].
    apply Hsame.
  - intros k Hg. unfold get in *. destruct (map c !! k) as [r|] eqn:Hm; [|done].
    exfalso. destruct Hb as (l & Hr & _).
    destruct (proj1 (LRUFacts.get_hit_iff c l k Hr)) as [v Hv]; [eauto|].
    destruct (LRUFacts.get_repr c l k Hr) as (l' & _ & Hs & _).
    unfold get in Hs. rewrite Hm in Hs. simpl in Hs, Hg. rewrite Hg in Hs.
    unfold spec_get in Hs. rewrite Hv in Hs. done.
Qed.

(** X5: the map and the linked list stay in step: in any cache reached from
    an empty one of capacity at least one, the keys along the list are
    distinct, the list is as long as the map is large, and a key is in the
    map exactly when it is on the list. *)
Theorem lru_map_and_list_agree (capacity : Z) (ops : list (op K V)) :
  (1 ≤ capacity)%Z →
  ∃ c, run ops (new capacity) = Some c
       ∧ NoDup (entries c).*1
       ∧ length (entries c) = size c
       ∧ (∀ k, is_Some (map c !! k) ↔ k ∈ (entries c).*1)
       ∧ (head c = None ↔ entries c = [])
       ∧ (tail c = None ↔ entries c = []).
Proof.
  intros Hcap.
  destruct (LRUFacts.bounded_run ops (new capacity) (LRUFacts.bounded_new capacity Hcap))
    as (c & Hrun & Hb & Hc).
  exists c. split; [done|]. pose proof (bounded_entries_NoDup c Hb) as Hnd.
  destruct Hb as (l & Hr & _). rewrite (LRUFacts.entries_repr _ _ Hr) in *.
  split_and!.
  - done.
  - by rewrite length_fmap, (LRUFacts.size_repr _ _ Hr).
  - intros k. destruct Hr as (_ & _ & Hm). split.
    + intros [r Hk]. apply Hm in Hk as [v Hv].
      apply list_elem_of_fmap. exists (k, v). split; [done|].
      apply list_elem_of_fmap. by exists (r, (k, v)).
    + intros Hin. apply list_elem_of_fmap in Hin as ([k' v] & -> & Hin).
      apply list_elem_of_fmap in Hin as ([r [k'' v']] & Heq & Hin).
      simpl in *. simplify_eq. exists r. apply Hm. eauto.
  - destruct Hr as ((_ & _ & Hh & _) & _). rewrite Hh. by destruct l.
  - destruct Hr as ((_ & _ & _ & Ht) & _). rewrite Ht.
    destruct (LRUFacts.list_snoc_cases l) as [->|(l0 & x & ->)]; [done|].
    rewrite LRUFacts.last_ref_snoc, fmap_app. simpl. split; [done|].
    intros Habs. by apply app_eq_nil in Habs as [_ ?].
Qed.

Lemma put_new_without_capacity (capacity : Z) (k : K) (v : V) :
  (capacity ≤ 0)%Z → put k v (new capacity) = None.
Proof.
  intros Hcap. unfold put. simpl. rewrite lookup_empty. simpl.
  rewrite map_size_empty.
  change (Z.of_nat 0) with 0%Z.
  destruct (Z.geb_spec 0 capacity); [done|lia].
Qed.

(** X6: a cache with a capacity below one can hold nothing and breaks on
    the first [put]: the cache is empty, line 132 finds it full, and line 134
    reads [key] of a null head.  A run goes through exactly when it has no
    [put], and then the cache is still the new one. *)
Theorem lru_put_throws_without_capacity (capacity : Z) (ops : list (op K V)) :
  (capacity ≤ 0)%Z →
  run ops (new capacity) = if forallb is_get ops then Some (new capacity) else None.
Proof.
  intros Hcap. induction ops as [|[k|k v] ops IH]; [done| |].
  - simpl. apply IH.
  - simpl. by rewrite put_new_without_capacity.
Qed.

End lru_more.

(** ** What runCallbacks throws *)

Section run_callbacks_outcome.
Context `{Environment}.

Lemma deliver_each_error {B} ids err result error (s : state B) :
  ∃ error', (deliver_each (CbUser <$> ids) err result error s).1 = Normal error'
            ∧ (truthy error = true → error' = error)
            ∧ (truthy error = false →
               match first_truthy (thrown_by ids err result) with
               | Some e => error' = e
               | None => truthy error' = false
               end).
Proof.
  revert error s. induction ids as [|i ids IH]; intros error s.
  - exists error. simpl. split_and!; done.
  - rewrite fmap_cons, deliver_each_cons, invoke_user. cbn [fst snd].
    unfold thrown_by, first_truthy. cbn [omap list_omap].
    destruct (cb_throws i err result) as [e|]; cbn [fst snd].
    + destruct (IH (if negb (truthy error) then e else error)
                  (mkState (add_delivered (mkDelivery (CbUser i) err result) (world s)) (self s)))
        as (error' & -> & Ht & Hf).
      exists error'. split; [done|]. split.
      * intros Hte. rewrite Hte in *. simpl in *. by apply Ht.
      * intros Hfe. rewrite Hfe in *. simpl in *.
        destruct (truthy e) eqn:Hte; [by apply Ht|]. by apply Hf.
    + destruct (IH error
                  (mkState (add_delivered (mkDelivery (CbUser i) err result) (world s)) (self s)))
        as (error' & -> & Ht & Hf).
      exists error'. done.
Qed.

Lemma runCallbacks_users_outcome {B} (r : nat) (ids : list nat)
    (err result : value) (s : state B) :
  arrays (world s) !! r = Some (CbUser <$> ids) →
  (runCallbacks r err result s).1 = callbacks_outcome ids err result.
Proof.
  intros Hr. unfold callbacks_outcome.
  rewrite runCallbacks_unfold, Hr. cbn [from_option id].
  destruct ids as [|i [|j ids]].
  - done.
  - cbn [fmap list_fmap]. by rewrite invoke_user.
  - destruct (deliver_each_error (i :: j :: ids) err result VUndefined s)
      as (error' & He & _ & Hf).
    specialize (Hf eq_refl). cbn [fmap list_fmap] in *.
    destruct (deliver_each (CbUser i :: CbUser j :: (CbUser <$> ids)) err result VUndefined s)
      as [o s1].
    cbn [fst] in He. subst o. cbn [fst].
    destruct (first_truthy (thrown_by (i :: j :: ids) err result)) as [e|] eqn:Hft.
    + subst error'. apply List.find_some in Hft as [_ ->]. done.
    + by rewrite Hf.
Qed.

(** X7: runCallbacks calls every queued continuation once, in order, also
    when some of them throw.  With one continuation queued, whatever that
    one throws goes to the caller and the array keeps its element; otherwise
    the array is emptied and the first truthy value thrown is thrown again
    at the end, a falsy one being dropped. *)
Theorem runCallbacks_delivers_to_all_then_rethrows {B} (r : nat) (ids : list nat)
    (err result : value) (s : state B) :
  arrays (world s) !! r = Some (CbUser <$> ids) →
  delivered (world (runCallbacks r err result s).2)
  = delivered (world s) ++ deliveries_to ids err result
  ∧ (runCallbacks r err result s).1 = callbacks_outcome ids err result
  ∧ arrays (world (runCallbacks r err result s).2) !! r
    = Some match ids with
           | [i] => [CbUser i]
           | _ => []
           end.
Proof.
  intros Hr.
  destruct (runCallbacks_users r ids err result s Hr) as (_ & _ & _ & Hd & Ha).
  split; [done|]. split; [by apply runCallbacks_users_outcome|].
  rewrite Ha. destruct ids as [|i [|j ids]]; [apply lookup_insert_eq|done|apply lookup_insert_eq].
Qed.

End run_callbacks_outcome.

(** ** More on CacheBackend *)

Section cache_more.
Context `{Environment}.
Import CacheBackend.
Implicit Types (s : state CacheBackend.t).

(** Lines 240-245 for any outstanding merged call. *)
Lemma complete_merged_eq k a i e r s :
  LRUCache.bounded (lruCache (self s)) →
  pending (world s) !! i = Some (mkCall (VStr k) VUndefined (KMerged k a)) →
  ∃ s3, complete i e r s = runCallbacks a e r s3
        ∧ world s3 = add_trace (AsyncDone (VStr k))
                       (set_pending (delete i (pending (world s))) (world s))
        ∧ activeAsyncOperations (self s3) = delete k (activeAsyncOperations (self s))
        ∧ LRUCache.bounded (lruCache (self s3))
        ∧ cached s3 k = Some (mkEntry e r).
Proof.
  intros Hb Hp. unfold complete.
  rewrite (bind_normal _ _ _ _ _ (take_pending_lookup s i _ Hp)).
  cbn [pc_callback pc_path].
  set (s1 := mkState (add_trace (AsyncDone (VStr k))
                        (set_pending (delete i (pending (world s))) (world s))) (self s)).
  set (s2 := mkState (world s1)
               (set_active (delete k (activeAsyncOperations (self s1))) (self s1))).
  assert (Hb2 : LRUCache.bounded (lruCache (self s2))) by done.
  destruct (storeResult_bounded k e r s2 Hb2) as (s3 & Hst & Hw3 & Ha3 & _ & Hb3 & Hc3).
  exists s3. split_and!; try done.
  munfold. cbn [world self]. fold s2. munfold. by rewrite Hst.
Qed.

(** X8: a completion always stores its outcome for its key, whatever was
    cached for the key before (for instance by a [provideSync] in the
    meantime), and takes the key out of the registry, whichever call
    registered it; the outstanding call is gone and the provider trace
    records the completion. *)
Theorem completion_stores_its_outcome k a i e r s :
  LRUCache.bounded (lruCache (self s)) →
  pending (world s) !! i = Some (mkCall (VStr k) VUndefined (KMerged k a)) →
  cached (complete i e r s).2 k = Some (mkEntry e r)
  ∧ activeAsyncOperations (self (complete i e r s).2) !! k = None
  ∧ pending (world (complete i e r s).2) = delete i (pending (world s))
  ∧ trace (world (complete i e r s).2) = trace (world s) ++ [AsyncDone (VStr k)]
  ∧ LRUCache.bounded (lruCache (self (complete i e r s).2)).
Proof.
  intros Hb Hp.
  destruct (complete_merged_eq k a i e r s Hb Hp) as (s3 & -> & Hw & Ha & Hb3 & Hc).
  destruct (runCallbacks_frame a e r s3) as (H1 & H2 & H3).
  unfold cached in *. rewrite H1, H2, H3, Hw, Ha. split_and!; try done.
  apply lookup_delete_eq.
Qed.

(** What [provideSync] leaves behind on a miss. *)
Lemma provideSync_miss_state k s :
  LRUCache.bounded (lruCache (self s)) →
  cached s k = None →
  let o := syncProvider (trace (world s)) (VStr k) VUndefined in
  LRUCache.bounded (lruCache (self (provideSync (VStr k) VUndefined s).2))
  ∧ cached (provideSync (VStr k) VUndefined s).2 k
    = Some (mkEntry (sync_err o) (sync_result o))
  ∧ trace (world (provideSync (VStr k) VUndefined s).2)
    = trace (world s) ++ [SyncCall (VStr k) VUndefined]
  ∧ pending (world (provideSync (VStr k) VUndefined s).2) = pending (world s).
Proof.
  intros Hb Hc o.
  destruct (lruCache_get_bounded k s Hb) as (s1 & Hg & Hw & Ha & _ & Hb1 & Hk).
  rewrite Hc in Hg. rewrite (provideSync_miss_eq k VUndefined s s1 eq_refl Hg), Hw.
  fold o.
  set (s3 := mkState (add_trace (SyncCall (VStr k) VUndefined) (world s))
               (set_active (delete k (activeAsyncOperations (self s1))) (self s1))).
  assert (Hb3 : LRUCache.bounded (lruCache (self s3))) by done.
  assert (Hgen : ∀ e v (tail : M t value),
    (∀ s', (tail s').2 = s') →
    let s' := ((_storeResult k e v;;
                run_adopted (activeAsyncOperations (self s1) !! k) e v;; tail) s3).2 in
    LRUCache.bounded (lruCache (self s'))
    ∧ cached s' k = Some (mkEntry e v)
    ∧ trace (world s') = trace (world s) ++ [SyncCall (VStr k) VUndefined]
    ∧ pending (world s') = pending (world s)).
  { intros e v tail Htail.
    destruct (storeResult_bounded k e v s3 Hb3) as (s4 & Hst & Hw4 & Ha4 & _ & Hb4 & Hc4).
    rewrite (bind_normal _ _ _ _ _ Hst). unfold run_adopted.
    destruct (activeAsyncOperations (self s1) !! k) as [cbs|].
    - destruct (runCallbacks_frame cbs e v s4) as (H1 & H2 & H3).
      assert (Hs' : ((runCallbacks cbs e v;; tail) s4).2 = (runCallbacks cbs e v s4).2).
      { munfold. destruct (runCallbacks cbs e v s4) as [[?|?] s5]; [apply Htail|done]. }
      cbn zeta. rewrite Hs'. unfold cached in *. rewrite H1, H2, H3, Hw4. done.
    - assert (Hs' : ((mret ();; tail) s4).2 = s4) by (munfold; apply Htail).
      cbn zeta. rewrite Hs', Hw4. done. }
  destruct o as [v|e]; cbn [sync_err sync_result]; by apply Hgen.
Qed.

Lemma provider_done_cached k e r s s' :
  LRUCache.bounded (lruCache (self s)) →
  provider_done k e r s s' →
  LRUCache.bounded (lruCache (self s')) ∧ cached s' k = Some (mkEntry e r).
Proof.
  intros Hb [(i & a & Hp & ->)|(Hc & -> & -> & ->)].
  - destruct (complete_merged_eq k a i e r s Hb Hp) as (s3 & -> & Hw & Ha & Hb3 & Hc).
    destruct (runCallbacks_frame a e r s3) as (H1 & _).
    unfold cached in *. by rewrite H1.
  - by destruct (provideSync_miss_state k s Hb Hc) as (? & ? & _).
Qed.

(** Lines 258-260: a cached result is returned. *)
Lemma provideSync_hit_result k s e :
  LRUCache.bounded (lruCache (self s)) →
  cached s k = Some e →
  truthy (err e) = false →
  ∃ s', provideSync (VStr k) VUndefined s = (Normal (result e), s')
        ∧ world s' = world s
        ∧ LRUCache.bounded (lruCache (self s'))
        ∧ ∀ k', cached s' k' = cached s k'.
Proof.
  intros Hb Hc He.
  destruct (lruCache_get_bounded k s Hb) as (s' & Hg & Hw & Ha & _ & Hb' & Hk).
  exists s'. split_and!; try done.
  unfold provideSync. cbn [truthy].
  by rewrite (bind_normal _ _ _ _ _ Hg), Hc, He.
Qed.

Lemma provide_hit_result k i s e :
  LRUCache.bounded (lruCache (self s)) →
  cached s k = Some e →
  truthy (err e) = false →
  ∃ s', provide (Args2 (VStr k) (CbUser i)) s
        = (match cb_throws i VNull (result e) with
           | Some x => Thrown x
           | None => Normal tt
           end, s')
        ∧ world s' = add_delivered (mkDelivery (CbUser i) VNull (result e)) (world s)
        ∧ LRUCache.bounded (lruCache (self s'))
        ∧ ∀ k', cached s' k' = cached s k'.
Proof.
  intros Hb Hc He.
  destruct (provide_hit k (CbUser i) s e Hb Hc) as (s' & Hw & _ & Hb' & Hk & ->).
  rewrite He, invoke_user. eexists. split; [done|].
  cbn [world self]. rewrite Hw. done.
Qed.

Lemma replay_result_run k e r s (ls : list lookup) :
  truthy e = false →
  LRUCache.bounded (lruCache (self s)) →
  cached s k = Some (mkEntry e r) →
  outcomes (lookup_event k <$> ls) s = replayed_result r <$> ls
  ∧ delivered (world (run (lookup_event k <$> ls) s))
    = delivered (world s) ++ deliveries_to (provide_ids ls) VNull r
  ∧ trace (world (run (lookup_event k <$> ls) s)) = trace (world s)
  ∧ pending (world (run (lookup_event k <$> ls) s)) = pending (world s)
  ∧ cached (run (lookup_event k <$> ls) s) k = Some (mkEntry e r).
Proof.
  intros He. revert s. induction ls as [|l ls IH]; intros s Hb Hc.
  - simpl. rewrite app_nil_r. done.
  - rewrite fmap_cons. cbn [outcomes run fold_left].
    fold (run (lookup_event k <$> ls) (exec (lookup_event k l) s).2).
    destruct l as [i|]; cbn [lookup_event exec].
    + destruct (provide_hit_result k i s _ Hb Hc He) as (s' & Hp & Hw & Hb' & Hk).
      rewrite (surjective_pairing (provide _ s)) in Hp.
      injection Hp as Hp1 Hp2. cbn [result] in *.
      assert (Hx1 : ((provide (Args2 (VStr k) (CbUser i)) ≫= λ _ : (), mret VUndefined) s).1
                    = replayed_result r (ViaProvide i)).
      { munfold. destruct (provide (Args2 (VStr k) (CbUser i)) s) as [o s0].
        simpl in *. subst o. by destruct (cb_throws i VNull r). }
      assert (Hx2 : ((provide (Args2 (VStr k) (CbUser i)) ≫= λ _ : (), mret VUndefined) s).2
                    = s').
      { munfold. destruct (provide (Args2 (VStr k) (CbUser i)) s) as [o s0].
        simpl in *. subst s0. by destruct o. }
      rewrite Hx1, Hx2.
      destruct (IH s' Hb') as (G1 & G2 & G3 & G4 & G5); [by rewrite Hk|].
      rewrite G1, G2, G3, G4, G5, Hw. cbn [provide_ids omap deliveries_to fmap list_fmap].
      simpl. rewrite <- app_assoc. done.
    + destruct (provideSync_hit_result k s _ Hb Hc He) as (s' & Hp & Hw & Hb' & Hk).
      rewrite Hp. cbn [fst snd result].
      destruct (IH s' Hb') as (G1 & G2 & G3 & G4 & G5); [by rewrite Hk|].
      rewrite G1, G2, G3, G4, G5, Hw. done.
Qed.

(** X9: once the provider has answered for [k] without an error, on the
    asynchronous or on the synchronous path, the lookups of [k] that follow
    are served from the cache shared by both paths: [provideSync] returns the
    stored result, [provide] hands [(null, result)] to its continuation, and
    the provider is not called.  A falsy value in the error position counts
    as no error, also when the synchronous provider threw it. *)
Theorem provider_result_is_cached_and_replayed k e r s s' (ls : list lookup) :
  truthy e = false →
  LRUCache.bounded (lruCache (self s)) →
  provider_done k e r s s' →
  cached s' k = Some (mkEntry e r)
  ∧ outcomes (lookup_event k <$> ls) s' = replayed_result r <$> ls
  ∧ delivered (world (run (lookup_event k <$> ls) s'))
    = delivered (world s') ++ deliveries_to (provide_ids ls) VNull r
  ∧ trace (world (run (lookup_event k <$> ls) s')) = trace (world s')
  ∧ pending (world (run (lookup_event k <$> ls) s')) = pending (world s').
Proof.
  intros He Hb Hd.
  destruct (provider_done_cached k e r s s' Hb Hd) as [Hb' Hc'].
  split; [done|].
  by destruct (replay_result_run k e r s' ls He Hb' Hc') as (? & ? & ? & ? & _).
Qed.

(** X10: a purge does not reach a call in flight: the registry, the queued
    continuations and the outstanding call stay, the completion that follows
    delivers to every queued continuation, and its outcome goes into the
    cache that was just emptied. *)
Theorem purge_leaves_calls_in_flight k i0 ids what e r s :
  LRUCache.bounded (lruCache (self s)) →
  cached s k = None →
  activeAsyncOperations (self s) !! k = None →
  let s1 := provide_each k (i0 :: ids) s in
  let s2 := (purge what s1).2 in
  let s3 := (complete (length (pending (world s))) e r s2).2 in
  activeAsyncOperations (self s2) = activeAsyncOperations (self s1)
  ∧ world s2 = world s1
  ∧ (∀ k', cached s2 k' = None)
  ∧ delivered (world s3) = delivered (world s) ++ deliveries_to (i0 :: ids) e r
  ∧ cached s3 k = Some (mkEntry e r).
Proof.
  intros Hb Hc Ha s1 s2 s3.
  destruct (cache_provide_first k (CbUser i0) s Hb Hc Ha)
    as (s' & Hp & Har & Hpe & Htr & Hde & Hac & Hb' & Hk).
  assert (Hs1 : s1 = provide_each k ids s').
  { subst s1. unfold provide_each. cbn [fold_left]. by rewrite Hp. }
  destruct (cache_provide_each_join k ids s' (fresh (dom (arrays (world s)))) [i0])
    as (H1 & H2 & H3 & H4 & H5 & H6 & H7).
  { done. } { by rewrite Hk. } { by rewrite Hac, lookup_insert_eq. }
  { by rewrite Har, lookup_insert_eq. }
  rewrite <- Hs1 in *. rewrite Hpe in H2. rewrite Hde in H4.
  assert (Hs2 : s2 = mkState (world s1)
                       (set_lruCache (LRUCache.purge (lruCache (self s1))) (self s1))).
  { subst s2. by rewrite purge_eq. }
  assert (Hb2 : LRUCache.bounded (lruCache (self s2))).
  { rewrite Hs2. cbn. apply LRUFacts.bounded_purge. by destruct H6 as (? & ? & ? & ?). }
  assert (Hp2 : pending (world s2)
                = pending (world s)
                  ++ [mkCall (VStr k) VUndefined (KMerged k (fresh (dom (arrays (world s)))))])
    by by rewrite Hs2.
  assert (Hr2 : arrays (world s2) !! fresh (dom (arrays (world s)))
                = Some (CbUser <$> ([i0] ++ ids))) by by rewrite Hs2.
  destruct (cache_complete_merged k _ _ _ e r s2 Hb2 Hp2 Hr2)
    as (G1 & _ & _ & _ & _ & G6).
  fold s3 in G1, G6. rewrite G1, G6, Hs2. cbn [world self]. rewrite H4.
  split_and!; done.
Qed.

(** The backend reaches its LRU through [get], [put] and [purge] only: what
    these three keep, every event keeps. *)
Section lru_invariant.
Variable P : LRUCache.t string entry → Prop.
Hypothesis P_get : ∀ c k, P c → P (LRUCache.get k c).2.
Hypothesis P_put : ∀ c k v c', P c → LRUCache.put k v c = Some c' → P c'.
Hypothesis P_purge : ∀ c, P c → P (LRUCache.purge c).

Lemma lru_inv_invoke cb e r s :
  P (lruCache (self s)) → P (lruCache (self (invoke cb e r s).2)).
Proof. destruct (invoke_frame cb e r s) as (-> & _). done. Qed.

Lemma lru_inv_runCallbacks a e r s :
  P (lruCache (self s)) → P (lruCache (self (runCallbacks a e r s).2)).
Proof. destruct (runCallbacks_frame a e r s) as (-> & _). done. Qed.

Lemma lru_inv_storeResult k e r s :
  P (lruCache (self s)) → P (lruCache (self (_storeResult k e r s).2)).
Proof.
  intros HP. unfold _storeResult. munfold. cbn [world self].
  destruct (LRUCache.put k (mkEntry e r) (lruCache (self s))) as [c'|] eqn:Hput; [|done].
  cbn. by eapply P_put.
Qed.

Lemma lru_inv_provide a s :
  P (lruCache (self s)) → P (lruCache (self (provide a s).2)).
Proof.
  intros HP. unfold provide. destruct (normalize a) as [[path options] cb].
  destruct path; try (by apply lru_inv_invoke).
  destruct (truthy options); [done|].
  unfold lruCache_get. munfold. cbn [world self].
  set (s1 := mkState (world s) (set_lruCache _ (self s))).
  assert (HP1 : P (lruCache (self s1))) by (cbn; by apply P_get).
  destruct ((LRUCache.get s0 (lruCache (self s))).1) as [e|].
  - destruct (truthy (err e)); by apply lru_inv_invoke.
  - destruct (activeAsyncOperations (self s1) !! s0); done.
Qed.

Lemma lru_inv_provideSync path options s :
  P (lruCache (self s)) → P (lruCache (self (provideSync path options s).2)).
Proof.
  intros HP. unfold provideSync. destruct path; try done.
  destruct (truthy options).
  { unfold call_syncProvider. munfold. cbn [world self].
    by destruct (syncProvider (trace (world s)) (VStr s0) options). }
  unfold lruCache_get. munfold. cbn [world self].
  set (s1 := mkState (world s) (set_lruCache _ (self s))).
  assert (HP1 : P (lruCache (self s1))) by (cbn; by apply P_get).
  destruct ((LRUCache.get s0 (lruCache (self s))).1) as [e|].
  { by destruct (truthy (err e)). }
  unfold call_syncProvider. munfold. cbn [world self].
  set (s3 := mkState (add_trace (SyncCall (VStr s0) VUndefined) (world s1)) _).
  assert (HP3 : P (lruCache (self s3))) by done.
  assert (Hgen : ∀ e v (o : completion value),
    P (lruCache (self
      (let (c, s') := _storeResult s0 e v s3 in
       match c with
       | Normal _ =>
           let (c0, s'0) := run_adopted (activeAsyncOperations (self s1) !! s0) e v s' in
           match c0 with
           | Normal _ => (o, s'0)
           | Thrown e0 => (Thrown e0, s'0)
           end
       | Thrown e0 => (Thrown e0, s')
       end).2))).
  { intros e v o. pose proof (lru_inv_storeResult s0 e v s3 HP3) as HP4.
    destruct (_storeResult s0 e v s3) as [[?|?] s4]; [|done]. cbn [snd] in HP4.
    unfold run_adopted. destruct (activeAsyncOperations (self s1) !! s0) as [cbs|].
    - pose proof (lru_inv_runCallbacks cbs e v s4 HP4) as HP5.
      by destruct (runCallbacks cbs e v s4) as [[?|?] s5].
    - done. }
  destruct (syncProvider (trace (world s1)) (VStr s0) VUndefined) as [v|e]; cbn [fst snd].
  - apply (Hgen VUndefined v (Normal v)).
  - apply (Hgen e VUndefined (Thrown e)).
Qed.

Lemma lru_inv_complete i e r s :
  P (lruCache (self s)) → P (lruCache (self (complete i e r s).2)).
Proof.
  intros HP. unfold complete.
  destruct (pending (world s) !! i) as [pc|] eqn:Hi.
  2:{ by rewrite (bind_normal _ _ _ _ _ (take_pending_None s i Hi)). }
  rewrite (bind_normal _ _ _ _ _ (take_pending_lookup s i pc Hi)).
  destruct (pc_callback pc) as [cb|k a].
  - by apply lru_inv_invoke.
  - munfold. cbn [world self].
    set (s2 := mkState _ (set_active _ (self s))).
    assert (HP2 : P (lruCache (self s2))) by done.
    pose proof (lru_inv_storeResult k e r s2 HP2) as HP3.
    destruct (_storeResult k e r s2) as [[?|?] s3]; [|done].
    by apply lru_inv_runCallbacks.
Qed.

Lemma lru_inv_exec ev s :
  P (lruCache (self s)) → P (lruCache (self (exec ev s).2)).
Proof.
  intros HP. destruct ev as [a|path options|i e r|what|what]; cbn [exec].
  - pose proof (lru_inv_provide a s HP) as Hp.
    munfold. by destruct (provide a s) as [[?|?] ?].
  - by apply lru_inv_provideSync.
  - pose proof (lru_inv_complete i e r s HP) as Hp.
    munfold. by destruct (complete i e r s) as [[?|?] ?].
  - munfold. rewrite purge_eq. cbn. by apply P_purge.
  - munfold. destruct (purgeParent_cases what s) as [[e ->]| ->]; [done|].
    cbn. by apply P_purge.
Qed.

Lemma lru_inv_run es s :
  P (lruCache (self s)) → P (lruCache (self (run es s))).
Proof.
  revert s. induction es as [|ev es IH]; intros s HP; [done|].
  cbn [run fold_left]. apply IH. by apply lru_inv_exec.
Qed.

End lru_invariant.

Lemma bounded_with_capacity_reachable (d : Z) es :
  (0 < d)%Z →
  LRUCache.bounded (lruCache (self (run es (init d))))
  ∧ LRUCache.cap (lruCache (self (run es (init d)))) = d.
Proof.
  intros Hd.
  apply (lru_inv_run (λ c, LRUCache.bounded c ∧ LRUCache.cap c = d)).
  - intros c k [Hb Hc]. destruct (LRUFacts.bounded_get c k Hb) as [Hb' Hc']. split; congruence.
  - intros c k v c' [Hb Hc] Hput.
    destruct (LRUFacts.bounded_put c k v Hb) as (c'' & Hput' & Hb' & Hc').
    rewrite Hput in Hput'. injection Hput' as <-. split; congruence.
  - intros c [Hb Hc]. split; [|done]. apply LRUFacts.bounded_purge.
    by destruct Hb as (? & ? & ? & ?).
  - split; [|done]. apply LRUFacts.bounded_new. lia.
Qed.

(** X11: on a backend made with a positive capacity, storing an outcome never
    fails, after whatever calls, completions and purges: the null head of
    line 134 is out of reach, the outcome is in the cache afterwards, and the
    cache never holds more entries than the capacity. *)
Theorem storeResult_never_throws (d : Z) (es : list event) k e r :
  (0 < d)%Z →
  (_storeResult k e r (run es (init d))).1 = Normal tt
  ∧ cached (_storeResult k e r (run es (init d))).2 k = Some (mkEntry e r)
  ∧ (Z.of_nat (LRUCache.size (lruCache (self (run es (init d))))) ≤ d)%Z.
Proof.
  intros Hd. destruct (bounded_with_capacity_reachable d es Hd) as [Hb Hcap].
  destruct (storeResult_bounded k e r _ Hb) as (s' & -> & _ & _ & _ & _ & Hc).
  split_and!; [done|done|].
  rewrite <- Hcap at 2. by apply LRUFacts.bounded_size.
Qed.

(** X19: a [provideSync] that misses the cache while continuations wait for
    its key adopts them: the key leaves the registry, the synchronous
    outcome is stored and handed to each of them in queue order, an error as
    [(err, undefined)].  The caller gets the provider's outcome, unless an
    adopted continuation throws: then that exception reaches the caller
    instead. *)
Theorem provideSync_adopts_queued_continuations k a ids s :
  LRUCache.bounded (lruCache (self s)) →
  cached s k = None →
  activeAsyncOperations (self s) !! k = Some a →
  arrays (world s) !! a = Some (CbUser <$> ids) →
  let o := syncProvider (trace (world s)) (VStr k) VUndefined in
  let s1 := (provideSync (VStr k) VUndefined s).2 in
  delivered (world s1)
  = delivered (world s) ++ deliveries_to ids (sync_err o) (sync_result o)
  ∧ activeAsyncOperations (self s1) !! k = None
  ∧ cached s1 k = Some (mkEntry (sync_err o) (sync_result o))
  ∧ trace (world s1) = trace (world s) ++ [SyncCall (VStr k) VUndefined]
  ∧ pending (world s1) = pending (world s)
  ∧ (provideSync (VStr k) VUndefined s).1
    = match callbacks_outcome ids (sync_err o) (sync_result o) with
      | Thrown x => Thrown x
      | Normal _ => o
      end.
Proof.
  intros Hb Hc Ha Hr o s1.
  destruct (provideSync_adopts k a ids s Hb Hc Ha Hr) as (H1 & H2 & H3 & H4 & _).
  destruct (provideSync_miss_state k s Hb Hc) as (_ & H5 & _).
  fold o s1 in H1, H2, H3, H4, H5. split_and!; try done.
  destruct (lruCache_get_bounded k s Hb) as (s0 & Hg & Hw & Ha0 & _ & Hb0 & Hk).
  rewrite Hc in Hg.
  rewrite (provideSync_miss_eq k VUndefined s s0 eq_refl Hg), Hw, Ha0, Ha.
  fold o. unfold run_adopted.
  set (s3 := mkState (add_trace (SyncCall (VStr k) VUndefined) (world s))
               (set_active (delete k (activeAsyncOperations (self s))) (self s0))).
  assert (Hb3 : LRUCache.bounded (lruCache (self s3))) by done.
  assert (Hgen : ∀ e v (tail : M t value) (o' : completion value),
    (∀ s', (tail s').1 = o') →
    ((_storeResult k e v;; runCallbacks a e v;; tail) s3).1
    = match callbacks_outcome ids e v with
      | Thrown x => Thrown x
      | Normal _ => o'
      end).
  { intros e v tail o' Htail.
    destruct (storeResult_bounded k e v s3 Hb3) as (s4 & Hst & Hw4 & _).
    rewrite (bind_normal _ _ _ _ _ Hst).
    assert (Hr4 : arrays (world s4) !! a = Some (CbUser <$> ids)) by by rewrite Hw4.
    rewrite <- (runCallbacks_users_outcome a ids e v s4 Hr4).
    munfold. destruct (runCallbacks a e v s4) as [[?|?] s5]; [apply Htail|done]. }
  destruct o as [v|e]; cbn [sync_err sync_result]; by apply Hgen.
Qed.

End cache_more.

(** ** Calls with options *)

Section options_bypass.
Context `{Environment}.

(** X12: a call that carries options goes straight to the provider with the
    caller's own callback: the registry and the cache are neither consulted
    nor changed, by the call or by its completion, also when the key is
    cached or has a merged call in flight; [provideSync] with options hands
    back what the synchronous provider gives. *)
Theorem calls_with_options_bypass (k : string) (path options : value) (cb : callback)
    (e r : value) (s : state CacheBackend.t) (m : state OperationMergerBackend.t) :
  truthy options = true →
  let s1 := (CacheBackend.provide (Args3 (VStr k) options cb) s).2 in
  let m1 := (OperationMergerBackend.provide (Args3 path options cb) m).2 in
  (self s1 = self s
   ∧ world s1 = add_trace (AsyncCall (VStr k) options)
                  (set_pending (pending (world s) ++ [mkCall (VStr k) options (KDirect cb)])
                     (world s))
   ∧ CacheBackend.complete (length (pending (world s))) e r s1
     = invoke cb e r
         (mkState (add_trace (AsyncDone (VStr k)) (set_pending (pending (world s)) (world s1)))
                  (self s))
   ∧ self (CacheBackend.complete (length (pending (world s))) e r s1).2 = self s
   ∧ CacheBackend.provideSync (VStr k) options s
     = (syncProvider (trace (world s)) (VStr k) options,
        mkState (add_trace (SyncCall (VStr k) options) (world s)) (self s)))
  ∧ (self m1 = self m
     ∧ world m1 = add_trace (AsyncCall path options)
                    (set_pending (pending (world m) ++ [mkCall path options (KDirect cb)])
                       (world m))
     ∧ OperationMergerBackend.complete (length (pending (world m))) e r m1
       = invoke cb e r
           (mkState (add_trace (AsyncDone path) (set_pending (pending (world m)) (world m1)))
                    (self m))
     ∧ self (OperationMergerBackend.complete (length (pending (world m))) e r m1).2 = self m).
Proof.
  intros Ho s1 m1.
  assert (Hs1 : s1 = mkState (add_trace (AsyncCall (VStr k) options)
                       (set_pending (pending (world s) ++ [mkCall (VStr k) options (KDirect cb)])
                          (world s))) (self s)).
  { subst s1. unfold CacheBackend.provide. cbn [normalize]. by rewrite Ho. }
  assert (Hm1 : m1 = mkState (add_trace (AsyncCall path options)
                       (set_pending (pending (world m) ++ [mkCall path options (KDirect cb)])
                          (world m))) (self m)).
  { subst m1. unfold OperationMergerBackend.provide. cbn [normalize]. by rewrite Ho. }
  assert (Hc : CacheBackend.complete (length (pending (world s))) e r s1
               = invoke cb e r
                   (mkState (add_trace (AsyncDone (VStr k))
                               (set_pending (pending (world s)) (world s1))) (self s))).
  { unfold CacheBackend.complete.
    rewrite (bind_normal _ _ _ _ _
               (take_pending_last s1 (pending (world s)) (mkCall (VStr k) options (KDirect cb))
                  ltac:(by rewrite Hs1))).
    cbn [pc_callback pc_path]. by rewrite Hs1. }
  assert (Hc' : OperationMergerBackend.complete (length (pending (world m))) e r m1
               = invoke cb e r
                   (mkState (add_trace (AsyncDone path)
                               (set_pending (pending (world m)) (world m1))) (self m))).
  { unfold OperationMergerBackend.complete.
    rewrite (bind_normal _ _ _ _ _
               (take_pending_last m1 (pending (world m)) (mkCall path options (KDirect cb))
                  ltac:(by rewrite Hm1))).
    cbn [pc_callback pc_path]. by rewrite Hm1. }
  split; split_and!.
  - by rewrite Hs1.
  - by rewrite Hs1.
  - done.
  - rewrite Hc. by destruct (invoke_frame cb e r
      (mkState (add_trace (AsyncDone (VStr k)) (set_pending (pending (world s)) (world s1)))
         (self s))) as (-> & _).
  - unfold CacheBackend.provideSync. rewrite Ho. unfold call_syncProvider. munfold.
    cbn [world self]. by destruct (syncProvider (trace (world s)) (VStr k) options).
  - by rewrite Hm1.
  - by rewrite Hm1.
  - done.
  - rewrite Hc'. by destruct (invoke_frame cb e r
      (mkState (add_trace (AsyncDone path) (set_pending (pending (world m)) (world m1)))
         (self m))) as (-> & _).
Qed.

End options_bypass.

(** ** More on OperationMergerBackend *)

Section merger_more.
Context `{Environment}.
Import OperationMergerBackend.
Implicit Types (s : state OperationMergerBackend.t).

(** X13: OperationMergerBackend retains nothing: when the merged call has
    completed, the backend is exactly as it was before the calls, the next
    [provide] for the key starts the provider again, and [provideSync] runs
    the synchronous provider on every call. *)
Theorem merger_retains_nothing (k : string) (i0 : nat) (ids : list nat)
    (e r : value) (cb : callback) (s : state OperationMergerBackend.t) :
  activeAsyncOperations (self s) !! k = None →
  let s2 := (complete (length (pending (world s))) e r (provide_each k (i0 :: ids) s)).2 in
  self s2 = self s
  ∧ pending (world s2) = pending (world s)
  ∧ trace (world (provide (Args2 (VStr k) cb) s2).2)
    = trace (world s2) ++ [AsyncCall (VStr k) VUndefined]
  ∧ provideSync (VStr k) VUndefined s2
    = (syncProvider (trace (world s2)) (VStr k) VUndefined,
       mkState (add_trace (SyncCall (VStr k) VUndefined) (world s2)) (self s2)).
Proof.
  intros Ha s2.
  destruct (merger_provide_first k (CbUser i0) s Ha)
    as (s' & Hp & Har & Hpe & Htr & Hde & Hac).
  assert (Hs1 : provide_each k (i0 :: ids) s = provide_each k ids s').
  { unfold provide_each. cbn [fold_left]. by rewrite Hp. }
  destruct (merger_provide_each_join k ids s' (fresh (dom (arrays (world s)))) [i0])
    as (H1 & H2 & H3 & H4 & H5).
  { by rewrite Hac, lookup_insert_eq. }
  { by rewrite Har, lookup_insert_eq. }
  rewrite <- Hs1 in *. rewrite Hpe in H2.
  destruct (merger_complete_merged k _ _ _ e r _ H2 H1) as (G1 & G2 & G3 & G4).
  fold s2 in G1, G2, G3, G4.
  assert (Hself : self s2 = self s).
  { destruct (self s2) as [a2] eqn:E2. destruct (self s) as [a0] eqn:E0.
    simpl in *. f_equal. rewrite G4, H5, Hac. by apply delete_insert_id. }
  split_and!; [done|done| |].
  - destruct (merger_provide_first k cb s2) as (s3 & Hp3 & _ & _ & Ht3 & _).
    { by rewrite Hself. }
    rewrite Hp3. exact Ht3.
  - unfold provideSync, call_syncProvider. munfold. cbn [world self].
    by destruct (syncProvider (trace (world s2)) (VStr k) VUndefined).
Qed.

End merger_more.

Section merger_exclusivity.
Context `{Environment}.
Import OperationMergerBackend.
Implicit Types (s : state OperationMergerBackend.t).

Lemma merger_inv_frame s s' :
  pending (world s') = pending (world s) →
  async_trace (world s') = async_trace (world s) →
  activeAsyncOperations (self s') = activeAsyncOperations (self s) →
  merger_inv_holds s → merger_inv_holds s'.
Proof.
  intros Hp Ht Ha [[H1 H2] H3].
  unfold merger_inv_holds, MergerRun.registry_inv, async_trace_inv, outstanding in *.
  rewrite Hp, Ht, Ha. done.
Qed.

Lemma async_trace_frame {B} (s s' : state B) :
  trace (world s') = trace (world s) → async_trace (world s') = async_trace (world s).
Proof. unfold async_trace. by intros ->. Qed.

Lemma merger_inv_provide a s :
  merger_inv_holds s →
  truthy (normalize a).1.2 = false →
  merger_inv_holds (provide a s).2.
Proof.
  intros Hinv Ho. unfold provide.
  destruct (normalize a) as [[path options] cb]. simpl in Ho. rewrite Ho.
  assert (Hinvoke : ∀ e r, merger_inv_holds (invoke cb e r s).2).
  { intros e r. destruct (invoke_frame cb e r s) as (H1 & H2 & H3 & H4 & _).
    eapply merger_inv_frame; [| | |exact Hinv]; try congruence.
    by apply async_trace_frame. }
  destruct path; try (by apply Hinvoke).
  munfold. cbn [world self].
  destruct (activeAsyncOperations (self s) !! s0) as [r|] eqn:Hact.
  - unfold array_push. munfold. cbn [world self snd].
    eapply merger_inv_frame; [| | |exact Hinv]; done.
  - rewrite new_array_eq. cbn [world self snd].
    unfold call_provider. munfold. cbn [world self snd].
    destruct Hinv as [[Hall Hk] Htr]. split; [split|].
    + cbn [world self pending add_trace set_pending set_arrays].
      apply Forall_app. split; [done|]. apply Forall_singleton. eauto.
    + intros k. specialize (Hk k). unfold outstanding in *.
      cbn [world self pending add_trace set_pending set_arrays activeAsyncOperations].
      rewrite count_path_app, count_path_singleton. cbn [pc_path].
      destruct (decide (s0 = k)) as [->|Hne].
      * rewrite is_path_refl, lookup_insert_eq. rewrite Hact in Hk. lia.
      * rewrite is_path_ne by done. rewrite lookup_insert_ne by done. lia.
    + intros k. specialize (Htr k). specialize (Hk k).
      unfold async_trace, outstanding in *.
      cbn [world self pending trace add_trace set_pending set_arrays].
      rewrite List.filter_app. cbn [List.filter is_async_event].
      rewrite fold_left_app, Htr, count_path_app, count_path_singleton.
      cbn [pc_path fold_left check_exclusive mbind option_bind].
      destruct (decide (s0 = k)) as [->|Hne].
      * rewrite is_path_refl. rewrite Hact in Hk. by rewrite Hk.
      * rewrite is_path_ne by done. by rewrite Nat.add_0_r.
Qed.

Lemma merger_inv_complete i e r s :
  merger_inv_holds s → merger_inv_holds (complete i e r s).2.
Proof.
  intros Hinv. unfold complete.
  destruct (pending (world s) !! i) as [pc|] eqn:Hi.
  2:{ by rewrite (bind_normal _ _ _ _ _ (take_pending_None s i Hi)). }
  rewrite (bind_normal _ _ _ _ _ (take_pending_lookup s i pc Hi)).
  pose proof Hinv as [[Hall Hk] Htr].
  pose proof (proj1 (Forall_lookup _ _) Hall i pc Hi) as (k & a & ->).
  cbn [pc_callback pc_path].
  set (s2 := mkState (add_trace (AsyncDone (VStr k))
                        (set_pending (delete i (pending (world s))) (world s)))
               (mk (delete k (activeAsyncOperations (self s))))).
  assert (Hinv2 : merger_inv_holds s2).
  { split; [split|].
    - subst s2. cbn [world self pending add_trace set_pending]. by apply Forall_delete.
    - intros k'. specialize (Hk k'). unfold outstanding in *. subst s2.
      cbn [world self pending add_trace set_pending activeAsyncOperations].
      pose proof (count_path_delete k' _ i _ Hi) as Hc. cbn [pc_path] in Hc.
      destruct (decide (k = k')) as [->|Hne].
      + rewrite is_path_refl in *. rewrite lookup_delete_eq.
        destruct (activeAsyncOperations (self s) !! k'); lia.
      + rewrite is_path_ne in * by done. rewrite lookup_delete_ne by done. lia.
    - intros k'. specialize (Htr k'). specialize (Hk k').
      unfold async_trace, outstanding in *. subst s2.
      cbn [world self pending trace add_trace set_pending].
      rewrite List.filter_app. cbn [List.filter is_async_event].
      rewrite fold_left_app, Htr.
      pose proof (count_path_delete k' _ i _ Hi) as Hc. cbn [pc_path] in Hc.
      cbn [fold_left check_exclusive mbind option_bind].
      destruct (decide (k = k')) as [->|Hne].
      + rewrite is_path_refl in *. rewrite Hc. f_equal. lia.
      + rewrite is_path_ne in * by done. f_equal. lia. }
  munfold. cbn [world self]. fold s2.
  destruct (runCallbacks_frame a e r s2) as (F1 & F2 & F3).
  eapply merger_inv_frame; [| | |exact Hinv2]; try congruence.
  by apply async_trace_frame.
Qed.

Lemma merger_inv_exec ev s :
  merger_inv_holds s → MergerRun.merges ev = true →
  merger_inv_holds (MergerRun.exec ev s).2.
Proof.
  intros Hinv Hm. destruct ev as [a|path options|i e r|what|what]; cbn [MergerRun.exec].
  - simpl in Hm. apply negb_true_iff in Hm.
    pose proof (merger_inv_provide a s Hinv Hm) as Hp.
    munfold. by destruct (provide a s) as [[?|?] ?].
  - unfold provideSync, call_syncProvider. munfold. cbn [world self].
    assert (Hs : merger_inv_holds
                   (mkState (add_trace (SyncCall path options) (world s)) (self s))).
    { eapply merger_inv_frame; [| | |exact Hinv]; try done.
      unfold async_trace. cbn. rewrite List.filter_app. cbn. by rewrite app_nil_r. }
    by destruct (syncProvider (trace (world s)) path options).
  - pose proof (merger_inv_complete i e r s Hinv) as Hp.
    munfold. by destruct (complete i e r s) as [[?|?] ?].
  - done.
  - done.
Qed.

(** X14: in OperationMergerBackend, calls without options never put two
    asynchronous provider calls for one key side by side, whatever the
    interleaving with completions, purges and synchronous calls: at most one
    is outstanding per key at any time.  (Synchronous calls are not merged:
    each runs the provider, next to an outstanding call or not.) *)
Theorem merger_one_async_call_per_key (es : list MergerRun.event) (k : string) :
  forallb MergerRun.merges es = true →
  outstanding k (world (MergerRun.run es MergerRun.init)) ≤ 1
  ∧ exclusive k (async_trace (world (MergerRun.run es MergerRun.init))) = true.
Proof.
  intros Hm.
  assert (Hgen : ∀ s, merger_inv_holds s → merger_inv_holds (MergerRun.run es s)).
  { induction es as [|ev es IH]; intros s Hinv; [done|].
    simpl in Hm. apply andb_true_iff in Hm as [Hm1 Hm2].
    cbn [MergerRun.run fold_left]. apply (IH Hm2). by apply merger_inv_exec. }
  assert (Hinit : merger_inv_holds MergerRun.init).
  { split; [split|]; [apply Forall_nil_2| |]; intros k'; cbn; by rewrite ?lookup_empty. }
  destruct (Hgen _ Hinit) as [[_ Hk] Htr].
  unfold exclusive. rewrite (Htr k). split; [|done].
  rewrite (Hk k). destruct (activeAsyncOperations _ !! k); lia.
Qed.

End merger_exclusivity.


(** ** The facade *)

Section facade_facts.
Context `{Environment}.
Import Facade.

Lemma purgeParent_purgeable what (s : state CacheBackend.t) :
  purgeable what = true →
  CacheBackend.purgeParent what s
  = (Normal tt,
     mkState (world s)
       (CacheBackend.set_lruCache (LRUCache.purge (CacheBackend.lruCache (self s))) (self s))).
Proof.
  intros Hp. unfold CacheBackend.purgeParent, purgeable in *.
  destruct (negb (truthy what)) eqn:Ht; [apply purge_eq|].
  destruct what; try done; apply purge_eq.
Qed.

Lemma backend_purge_spec what b :
  (backend_purge what b).1 = Normal tt
  ∧ (∀ k, backend_cached (backend_purge what b).2 k = None)
  ∧ backend_in_flight (backend_purge what b).2 = backend_in_flight b.
Proof.
  destruct b as [s|s]; cbn [backend_purge backend_cached backend_in_flight].
  - rewrite purge_eq. done.
  - done.
Qed.

Lemma backend_purgeParent_spec what b :
  purgeable what = true →
  (backend_purgeParent what b).1 = Normal tt
  ∧ (∀ k, backend_cached (backend_purgeParent what b).2 k = None)
  ∧ backend_in_flight (backend_purgeParent what b).2 = backend_in_flight b.
Proof.
  intros Hp. destruct b as [s|s]; cbn [backend_purgeParent backend_cached backend_in_flight].
  - rewrite (purgeParent_purgeable what s Hp). done.
  - done.
Qed.

(** X15: the facade's [purge], handed nothing, a path or an iterable of
    paths, goes through all five backends: it does not throw, no backend has
    anything cached afterwards, and the calls in flight and their queued
    continuations are as before. *)
Theorem facade_purge_clears_every_backend (what : value) (fs : Facade.t) :
  purgeable what = true →
  (purge what fs).1 = Normal tt
  ∧ Forall (λ b, ∀ k, backend_cached b k = None) (backends (purge what fs).2)
  ∧ backend_in_flight <$> backends (purge what fs).2 = backend_in_flight <$> backends fs.
Proof.
  intros Hp. unfold purge.
  destruct (backend_purge_spec what (_statBackend fs)) as (A1 & A2 & A3).
  rewrite A1. cbn [_statBackend _readdirBackend _readFileBackend _readJsonBackend
                   _readlinkBackend].
  destruct (backend_purgeParent_spec what (_readdirBackend fs) Hp) as (B1 & B2 & B3).
  rewrite B1. cbn [_statBackend _readdirBackend _readFileBackend _readJsonBackend
                   _readlinkBackend].
  destruct (backend_purge_spec what (_readFileBackend fs)) as (C1 & C2 & C3).
  rewrite C1. cbn [_statBackend _readdirBackend _readFileBackend _readJsonBackend
                   _readlinkBackend].
  destruct (backend_purge_spec what (_readlinkBackend fs)) as (D1 & D2 & D3).
  rewrite D1. cbn [_statBackend _readdirBackend _readFileBackend _readJsonBackend
                   _readlinkBackend].
  destruct (backend_purge_spec what (_readJsonBackend fs)) as (E1 & E2 & E3).
  cbn [fst snd backends _statBackend _readdirBackend _readFileBackend _readJsonBackend
       _readlinkBackend fmap list_fmap].
  split; [done|]. split.
  - repeat (apply Forall_cons; split; [done|]). apply Forall_nil_2.
  - by rewrite A3, B3, C3, D3, E3.
Qed.

(** X16: handed a number or [true], the facade's [purge] stops half way when
    the backends cache: the stat cache is emptied, the [for ... of] of
    purgeParent throws a TypeError at the readdir backend, and the readFile,
    readlink and readJson caches are not purged. *)
Theorem facade_purge_stops_on_non_iterable (what : value) (fs : Facade.t)
    (sd : state CacheBackend.t) :
  (what = VBool true ∨ ∃ n, n ≠ 0%Z ∧ what = VNum n) →
  _readdirBackend fs = BCaching sd →
  (purge what fs).1 = Thrown (VTypeError "what is not iterable")
  ∧ (∀ k, backend_cached (_statBackend (purge what fs).2) k = None)
  ∧ _readdirBackend (purge what fs).2 = _readdirBackend fs
  ∧ _readFileBackend (purge what fs).2 = _readFileBackend fs
  ∧ _readlinkBackend (purge what fs).2 = _readlinkBackend fs
  ∧ _readJsonBackend (purge what fs).2 = _readJsonBackend fs.
Proof.
  intros Hw Hd. unfold purge.
  destruct (backend_purge_spec what (_statBackend fs)) as (A1 & A2 & A3).
  rewrite A1. cbn [_statBackend _readdirBackend _readFileBackend _readJsonBackend
                   _readlinkBackend].
  rewrite Hd. cbn [backend_purgeParent].
  assert (Hthrow : CacheBackend.purgeParent what sd
                   = (Thrown (VTypeError "what is not iterable"), sd)).
  { unfold CacheBackend.purgeParent.
    destruct Hw as [->|(n & Hn & ->)]; [done|].
    cbn [truthy]. by destruct (Z.eqb_spec n 0). }
  rewrite Hthrow. cbn [fst snd _statBackend _readdirBackend _readFileBackend
                       _readJsonBackend _readlinkBackend].
  split_and!; done.
Qed.

(** Every backend of a facade is of one kind, decided by the duration. *)
Lemma facade_backends_follow_duration (duration : Z) :
  ((0 < duration)%Z →
   Forall (λ b, ∃ s, b = BCaching s
                     ∧ LRUCache.cap (CacheBackend.lruCache (self s)) = duration
                     ∧ LRUCache.bounded (CacheBackend.lruCache (self s)))
          (backends (new duration)))
  ∧ ((duration ≤ 0)%Z →
     Forall (λ b, ∃ s, b = BMerging s) (backends (new duration))
     ∧ ∀ what, purge what (new duration) = (Normal tt, new duration)).
Proof.
  split.
  - intros Hd. unfold new, backends, create, CachedInputFileSystem.createBackend. cbn.
    destruct (Z.gtb_spec duration 0); [|lia].
    repeat (apply Forall_cons; split;
            [eexists; split_and!; [done|done|apply LRUFacts.bounded_new; lia]|]).
    apply Forall_nil_2.
  - intros Hd. unfold new, backends, create, CachedInputFileSystem.createBackend. cbn.
    destruct (Z.gtb_spec duration 0); [lia|]. split; [|done].
    repeat (apply Forall_cons; split; [by eexists|]). apply Forall_nil_2.
Qed.

Lemma provideSync_miss_outcome k (s : state CacheBackend.t) :
  LRUCache.bounded (CacheBackend.lruCache (self s)) →
  CacheBackend.cached s k = None →
  CacheBackend.activeAsyncOperations (self s) !! k = None →
  (CacheBackend.provideSync (VStr k) VUndefined s).1
  = syncProvider (trace (world s)) (VStr k) VUndefined.
Proof.
  intros Hb Hc Ha.
  destruct (lruCache_get_bounded k s Hb) as (s1 & Hg & Hw & Ha1 & _ & Hb1 & Hk).
  rewrite Hc in Hg. rewrite (provideSync_miss_eq k VUndefined s s1 eq_refl Hg), Hw, Ha1, Ha.
  set (s3 := mkState (add_trace (SyncCall (VStr k) VUndefined) (world s))
               (CacheBackend.set_active
                  (delete k (CacheBackend.activeAsyncOperations (self s))) (self s1))).
  assert (Hb3 : LRUCache.bounded (CacheBackend.lruCache (self s3))) by done.
  destruct (syncProvider (trace (world s)) (VStr k) VUndefined) as [v|e].
  - destruct (storeResult_bounded k VUndefined v s3 Hb3) as (s4 & Hst & _).
    by rewrite (bind_normal _ _ _ _ _ Hst).
  - destruct (storeResult_bounded k e VUndefined s3 Hb3) as (s4 & Hst & _).
    by rewrite (bind_normal _ _ _ _ _ Hst).
Qed.

(** X17: the synchronous readJson of lines 371-375, over a caching readFile
    backend, hands on the exception of the read or else what the parse
    returns or throws; unlike the asynchronous one it has no check for an
    empty buffer.  It reads the file once: a second call parses the cached
    buffer again and gives the same outcome without a provider call.  The
    path is neither cached nor in flight at the start, and what the read
    throws is truthy, as an [Error] is (a falsy thrown value is stored as
    no error, and the second call would parse [undefined]). *)
Theorem readJsonSync_reads_once_and_parses k (s : state CacheBackend.t) :
  LRUCache.bounded (CacheBackend.lruCache (self s)) →
  CacheBackend.cached s k = None →
  CacheBackend.activeAsyncOperations (self s) !! k = None →
  (∀ e, syncProvider (trace (world s)) (VStr k) VUndefined = Thrown e → truthy e = true) →
  let readJsonSync := readJsonSync_provider CacheBackend.provideSync (VStr k) in
  (readJsonSync s).1
  = match syncProvider (trace (world s)) (VStr k) VUndefined with
    | Thrown e => Thrown e
    | Normal buffer => parse_json buffer
    end
  ∧ trace (world (readJsonSync s).2) = trace (world s) ++ [SyncCall (VStr k) VUndefined]
  ∧ (readJsonSync (readJsonSync s).2).1 = (readJsonSync s).1
  ∧ trace (world (readJsonSync (readJsonSync s).2).2) = trace (world (readJsonSync s).2).
Proof.
  intros Hb Hc Ha Herr readJsonSync.
  pose proof (provideSync_miss_outcome k s Hb Hc Ha) as Ho.
  destruct (provideSync_miss_state k s Hb Hc) as (Hb1 & Hc1 & Ht1 & _).
  assert (Hunfold : ∀ s0, readJsonSync s0
            = match CacheBackend.provideSync (VStr k) VUndefined s0 with
              | (Normal buffer, s') => (parse_json buffer, s')
              | (Thrown e, s') => (Thrown e, s')
              end).
  { intros s0. unfold readJsonSync, readJsonSync_provider. munfold.
    destruct (CacheBackend.provideSync (VStr k) VUndefined s0) as [[b|e] s'']; [|done].
    by destruct (parse_json b). }
  rewrite !Hunfold.
  destruct (CacheBackend.provideSync (VStr k) VUndefined s) as [o1 s1] eqn:Hp1.
  cbn [fst snd] in *. subst o1.
  destruct (syncProvider (trace (world s)) (VStr k) VUndefined) as [buffer|e] eqn:Hsync;
    cbn [CacheBackend.sync_err CacheBackend.sync_result fst snd] in *.
  - destruct (provideSync_hit_result k s1 _ Hb1 Hc1 eq_refl) as (s2 & -> & Hw2 & _).
    cbn [CacheBackend.result fst snd]. by rewrite Hw2.
  - destruct (provideSync_hit_error k s1 _ Hb1 Hc1 (Herr e eq_refl)) as (s2 & -> & Hw2 & _).
    cbn [CacheBackend.err fst snd]. by rewrite Hw2.
Qed.

End facade_facts.


(** ** The LRU cache after a purge *)

Section lru_purge.
Context {K : Type} `{Countable K} {V : Type}.
Import LRUCache.
Implicit Types (c : LRUCache.t K V).

Lemma run_same_entries ops c1 c2 :
  bounded c1 → bounded c2 → cap c1 = cap c2 → entries c1 = entries c2 →
  ∃ c1' c2', run ops c1 = Some c1' ∧ run ops c2 = Some c2'
             ∧ bounded c1' ∧ bounded c2' ∧ entries c1' = entries c2'.
Proof.
  revert c1 c2. induction ops as [|o ops IH]; intros c1 c2 Hb1 Hb2 Hc He.
  - exists c1, c2. done.
  - destruct o as [k|k v]; simpl.
    + destruct (bounded_get_entries c1 k Hb1) as (Hb1' & Hc1' & _ & He1').
      destruct (bounded_get_entries c2 k Hb2) as (Hb2' & Hc2' & _ & He2').
      apply IH; try done; congruence.
    + destruct (bounded_put_entries c1 k v Hb1) as (c1' & -> & Hb1' & Hc1' & He1').
      destruct (bounded_put_entries c2 k v Hb2) as (c2' & -> & Hb2' & Hc2' & He2').
      simpl. apply IH; try done; congruence.
Qed.

(** X18: a purge is a new start: whatever the cache went through before,
    after [purge] it answers every run of operations as a new cache of the
    same capacity does, with the same entries in the same order; the nodes
    left behind in the store play no part. *)
Theorem lru_purge_is_a_new_start (capacity : Z) (before after : list (op K V)) :
  (1 ≤ capacity)%Z →
  ∃ c c1 c2, run before (new capacity) = Some c
             ∧ run after (purge c) = Some c1
             ∧ run after (new capacity) = Some c2
             ∧ entries c1 = entries c2
             ∧ ∀ k, (get k c1).1 = (get k c2).1.
Proof.
  intros Hcap.
  destruct (LRUFacts.bounded_run before (new capacity) (LRUFacts.bounded_new capacity Hcap))
    as (c & Hrun & Hb & Hc).
  assert (Hbp : bounded (purge c)).
  { apply LRUFacts.bounded_purge. by destruct Hb as (? & ? & ? & ?). }
  destruct (run_same_entries after (purge c) (new capacity) Hbp
              (LRUFacts.bounded_new capacity Hcap))
    as (c1 & c2 & H1 & H2 & Hb1 & Hb2 & He); [done|done|].
  exists c, c1, c2. split_and!; try done.
  intros k.
  destruct (bounded_get_entries c1 k Hb1) as (_ & _ & -> & _).
  destruct (bounded_get_entries c2 k Hb2) as (_ & _ & -> & _).
  by rewrite He.
Qed.

End lru_purge.

(** ** The theorems of this part at work *)

Section more_scenarios.
Import CacheBackend.

Lemma dirname_of_joined_path_witness :
  is_separator "/"%char = true
  ∧ no_separator "index.js" = true
  ∧ dirname "/a/b/index.js" = "/a/b"%string.
Proof.
  assert (H1 : is_separator "/"%char = true) by reflexivity.
  assert (H2 : no_separator "index.js" = true) by reflexivity.
  split_and!; [exact H1|exact H2|].
  exact (dirname_of_joined_path "/a/b" "/"%char "index.js" H1 H2).
Defined.

Lemma lru_entry_survives_fewer_than_capacity_ops_witness :
  let after := [LRUCache.Put "b"%string 2; LRUCache.Get "c"%string] in
  (1 ≤ 3)%Z
  ∧ Forall (λ o, op_key o ≠ "a"%string) after
  ∧ (Z.of_nat (length after) < 3)%Z
  ∧ ∃ c, LRUCache.run ([LRUCache.Put "z"%string 0] ++ LRUCache.Put "a"%string 1 :: after)
           (LRUCache.new 3) = Some c
         ∧ (LRUCache.get "a"%string c).1 = Some 1.
Proof.
  intros after.
  assert (H1 : (1 ≤ 3)%Z) by lia.
  assert (H2 : Forall (λ o, op_key o ≠ "a"%string) after).
  { repeat (apply Forall_cons; split; [done|]). apply Forall_nil_2. }
  assert (H3 : (Z.of_nat (length after) < 3)%Z) by (simpl; lia).
  split_and!; [exact H1|exact H2|exact H3|].
  exact (lru_entry_survives_fewer_than_capacity_ops (K := string) (V := nat) 3
           [LRUCache.Put "z"%string 0] after "a"%string 1 H1 H2 H3).
Defined.

Lemma lru_put_get_round_trip_witness :
  (1 ≤ 1)%Z
  ∧ ∃ c, LRUCache.run [LRUCache.Put "a"%string 1; LRUCache.Put "b"%string 2]
           (LRUCache.new 1) = Some c
         ∧ ∃ c', LRUCache.put "c"%string 3 c = Some c'
                 ∧ (LRUCache.get "c"%string c').1 = Some 3.
Proof.
  assert (H1 : (1 ≤ 1)%Z) by lia.
  split; [exact H1|].
  destruct (lru_put_get_round_trip (K := string) (V := nat) 1
              [LRUCache.Put "a"%string 1; LRUCache.Put "b"%string 2] H1)
    as (c & Hrun & Hput & _).
  exists c. split; [exact Hrun|]. exact (Hput "c"%string 3).
Defined.

Lemma lru_map_and_list_agree_witness :
  (1 ≤ 2)%Z
  ∧ ∃ c, LRUCache.run [LRUCache.Put "a"%string 1; LRUCache.Put "b"%string 2;
                       LRUCache.Put "c"%string 3; LRUCache.Get "b"%string]
           (LRUCache.new 2) = Some c
         ∧ NoDup (LRUCache.entries c).*1
         ∧ length (LRUCache.entries c) = LRUCache.size c.
Proof.
  assert (H1 : (1 ≤ 2)%Z) by lia.
  split; [exact H1|].
  destruct (lru_map_and_list_agree (K := string) (V := nat) 2
              [LRUCache.Put "a"%string 1; LRUCache.Put "b"%string 2;
               LRUCache.Put "c"%string 3; LRUCache.Get "b"%string] H1)
    as (c & Hrun & Hnd & Hlen & _).
  exists c. split_and!; [exact Hrun|exact Hnd|exact Hlen].
Defined.

Lemma lru_put_throws_without_capacity_witness :
  (0 ≤ 0)%Z
  ∧ LRUCache.run [LRUCache.Get "a"%string; LRUCache.Put "a"%string 1] (LRUCache.new 0)
    = None.
Proof.
  assert (H1 : (0 ≤ 0)%Z) by lia.
  split; [exact H1|].
  exact (lru_put_throws_without_capacity (K := string) (V := nat) 0
           [LRUCache.Get "a"%string; LRUCache.Put "a"%string 1] H1).
Defined.

Lemma lru_purge_is_a_new_start_witness :
  (1 ≤ 2)%Z
  ∧ ∃ c c1 c2,
      LRUCache.run [LRUCache.Put "a"%string 1; LRUCache.Put "b"%string 2]
        (LRUCache.new 2) = Some c
      ∧ LRUCache.run [LRUCache.Put "c"%string 3] (LRUCache.purge c) = Some c1
      ∧ LRUCache.run [LRUCache.Put "c"%string 3] (LRUCache.new 2) = Some c2
      ∧ LRUCache.entries c1 = LRUCache.entries c2.
Proof.
  assert (H1 : (1 ≤ 2)%Z) by lia.
  split; [exact H1|].
  destruct (lru_purge_is_a_new_start (K := string) (V := nat) 2
              [LRUCache.Put "a"%string 1; LRUCache.Put "b"%string 2]
              [LRUCache.Put "c"%string 3] H1)
    as (c & c1 & c2 & G1 & G2 & G3 & G4 & _).
  exists c, c1, c2. split_and!; [exact G1|exact G2|exact G3|exact G4].
Defined.

Lemma runCallbacks_delivers_to_all_then_rethrows_witness :
  let s := provide_each (H := throwing_env) "k" [0; 1; 2; 3] (init 10) in
  arrays (world s) !! 0 = Some (CbUser <$> [0; 1; 2; 3])
  ∧ delivered (world (runCallbacks (H := throwing_env) 0 VNull (VObj 7) s).2)
    = deliveries_to [0; 1; 2; 3] VNull (VObj 7)
  ∧ (runCallbacks (H := throwing_env) 0 VNull (VObj 7) s).1 = Thrown (VError "boom").
Proof.
  intros s.
  assert (H1 : arrays (world s) !! 0 = Some (CbUser <$> [0; 1; 2; 3]))
    by (vm_compute; reflexivity).
  destruct (runCallbacks_delivers_to_all_then_rethrows (H := throwing_env)
              0 [0; 1; 2; 3] VNull (VObj 7) s H1) as (G1 & G2 & _).
  split_and!; [exact H1|exact G1|exact G2].
Defined.

Lemma completion_stores_its_outcome_witness :
  let s := run (H := test_env)
             [Provide (Args2 (VStr "a") (CbUser 0)); ProvideSync (VStr "a") VUndefined]
             (init 10) in
  LRUCache.bounded (lruCache (self s))
  ∧ pending (world s) !! 0 = Some (mkCall (VStr "a") VUndefined (KMerged "a" 0))
  ∧ cached s "a" = Some (mkEntry VUndefined (VObj 1))
  ∧ cached (complete (H := test_env) 0 VNull (VObj 7) s).2 "a"
    = Some (mkEntry VNull (VObj 7)).
Proof.
  intros s.
  assert (H1 : LRUCache.bounded (lruCache (self s)))
    by (apply (bounded_reachable (H := test_env)); lia).
  assert (H2 : pending (world s) !! 0 = Some (mkCall (VStr "a") VUndefined (KMerged "a" 0)))
    by (vm_compute; reflexivity).
  assert (H3 : cached s "a" = Some (mkEntry VUndefined (VObj 1)))
    by (vm_compute; reflexivity).
  destruct (completion_stores_its_outcome (H := test_env) "a" 0 0 VNull (VObj 7) s H1 H2)
    as (G1 & _).
  split_and!; [exact H1|exact H2|exact H3|exact G1].
Defined.

Lemma provider_result_is_cached_and_replayed_witness :
  let s := init 10 in
  let s' := (provideSync (H := test_env) (VStr "a") VUndefined s).2 in
  let ls := [ViaProvide 4; ViaProvideSync] in
  truthy VUndefined = false
  ∧ LRUCache.bounded (lruCache (self s))
  ∧ provider_done (H := test_env) "a" VUndefined (VObj 0) s s'
  ∧ outcomes (H := test_env) (lookup_event "a" <$> ls) s'
    = [Normal VUndefined; Normal (VObj 0)]
  ∧ delivered (world (run (H := test_env) (lookup_event "a" <$> ls) s'))
    = delivered (world s') ++ [mkDelivery (CbUser 4) VNull (VObj 0)]
  ∧ trace (world (run (H := test_env) (lookup_event "a" <$> ls) s')) = trace (world s').
Proof.
  intros s s' ls.
  assert (H1 : truthy VUndefined = false) by reflexivity.
  assert (H2 : LRUCache.bounded (lruCache (self s))) by (apply LRUFacts.bounded_new; lia).
  assert (H3 : provider_done (H := test_env) "a" VUndefined (VObj 0) s s').
  { right. split_and!; reflexivity. }
  destruct (provider_result_is_cached_and_replayed (H := test_env)
              "a" VUndefined (VObj 0) s s' ls H1 H2 H3) as (_ & G2 & G3 & G4 & _).
  split_and!; [exact H1|exact H2|exact H3|exact G2|exact G3|exact G4].
Defined.

Lemma purge_leaves_calls_in_flight_witness :
  let s := init 10 in
  let s2 := (purge (VStr "a") (provide_each (H := test_env) "a" [0; 1] s)).2 in
  LRUCache.bounded (lruCache (self s))
  ∧ cached s "a" = None
  ∧ activeAsyncOperations (self s) !! "a" = None
  ∧ delivered (world (complete (H := test_env) 0 VNull (VObj 7) s2).2)
    = deliveries_to [0; 1] VNull (VObj 7)
  ∧ cached (complete (H := test_env) 0 VNull (VObj 7) s2).2 "a"
    = Some (mkEntry VNull (VObj 7)).
Proof.
  intros s s2.
  assert (H1 : LRUCache.bounded (lruCache (self s))) by (apply LRUFacts.bounded_new; lia).
  assert (H2 : cached s "a" = None) by reflexivity.
  assert (H3 : activeAsyncOperations (self s) !! "a" = None) by reflexivity.
  destruct (purge_leaves_calls_in_flight (H := test_env) "a" 0 [1] (VStr "a") VNull (VObj 7)
              s H1 H2 H3) as (_ & _ & _ & G4 & G5).
  split_and!; [exact H1|exact H2|exact H3|exact G4|exact G5].
Defined.

Lemma storeResult_never_throws_witness :
  let es := [ProvideSync (VStr "a") VUndefined; ProvideSync (VStr "b") VUndefined;
             Purge VUndefined; ProvideSync (VStr "c") VUndefined] in
  (0 < 1)%Z
  ∧ (_storeResult "d" VNull (VObj 9) (run (H := test_env) es (init 1))).1 = Normal tt.
Proof.
  intros es.
  assert (H1 : (0 < 1)%Z) by lia.
  destruct (storeResult_never_throws (H := test_env) 1 es "d" VNull (VObj 9) H1) as (G1 & _).
  split; [exact H1|exact G1].
Defined.

Lemma calls_with_options_bypass_witness :
  let s := run (H := test_env) [ProvideSync (VStr "a") VUndefined] (init 10) in
  truthy (VObj 5) = true
  ∧ cached s "a" = Some (mkEntry VUndefined (VObj 0))
  ∧ provideSync (H := test_env) (VStr "a") (VObj 5) s
    = (Normal (VObj 1), mkState (add_trace (SyncCall (VStr "a") (VObj 5)) (world s)) (self s))
  ∧ self (provide (H := test_env) (Args3 (VStr "a") (VObj 5) (CbUser 0)) s).2 = self s.
Proof.
  intros s.
  assert (H1 : truthy (VObj 5) = true) by reflexivity.
  assert (H2 : cached s "a" = Some (mkEntry VUndefined (VObj 0))) by (vm_compute; reflexivity).
  destruct (calls_with_options_bypass (H := test_env) "a" VUndefined (VObj 5) (CbUser 0)
              VNull (VObj 7) s MergerRun.init H1) as [(G1 & _ & _ & _ & G5) _].
  split_and!; [exact H1|exact H2|exact G5|exact G1].
Defined.

Lemma merger_retains_nothing_witness :
  let s := MergerRun.init in
  let s2 := (OperationMergerBackend.complete (H := test_env) 0 VNull (VObj 7)
               (OperationMergerBackend.provide_each (H := test_env) "a" [0; 1] s)).2 in
  OperationMergerBackend.activeAsyncOperations (self s) !! "a" = None
  ∧ self s2 = self s
  ∧ trace (world (OperationMergerBackend.provide (H := test_env)
                    (Args2 (VStr "a") (CbUser 2)) s2).2)
    = trace (world s2) ++ [AsyncCall (VStr "a") VUndefined].
Proof.
  intros s s2.
  assert (H1 : OperationMergerBackend.activeAsyncOperations (self s) !! "a" = None)
    by reflexivity.
  destruct (merger_retains_nothing (H := test_env) "a" 0 [1] VNull (VObj 7) (CbUser 2) s H1)
    as (G1 & _ & G3 & _).
  split_and!; [exact H1|exact G1|exact G3].
Defined.

Lemma merger_one_async_call_per_key_witness :
  let es := [MergerRun.Provide (Args2 (VStr "a") (CbUser 0));
             MergerRun.ProvideSync (VStr "a") VUndefined;
             MergerRun.Provide (Args2 (VStr "a") (CbUser 1));
             MergerRun.Complete 0 VNull (VObj 7);
             MergerRun.Provide (Args2 (VStr "a") (CbUser 2))] in
  forallb MergerRun.merges es = true
  ∧ outstanding "a" (world (MergerRun.run (H := test_env) es MergerRun.init)) ≤ 1.
Proof.
  intros es.
  assert (H1 : forallb MergerRun.merges es = true) by reflexivity.
  destruct (merger_one_async_call_per_key (H := test_env) es "a" H1) as (G1 & _).
  split; [exact H1|exact G1].
Defined.

Lemma facade_purge_clears_every_backend_witness :
  let fs := Facade.new 10 in
  purgeable (VIter ["/a/b"%string]) = true
  ∧ (Facade.purge (VIter ["/a/b"%string]) fs).1 = Normal tt.
Proof.
  intros fs.
  assert (H1 : purgeable (VIter ["/a/b"%string]) = true) by reflexivity.
  destruct (facade_purge_clears_every_backend (VIter ["/a/b"%string]) fs H1)
    as (G1 & _).
  split; [exact H1|exact G1].
Defined.

Lemma facade_purge_stops_on_non_iterable_witness :
  let fs := Facade.new 10 in
  let sd := mkState empty_world (CacheBackend.new 10) in
  (VNum 42 = VBool true ∨ ∃ n, n ≠ 0%Z ∧ VNum 42 = VNum n)
  ∧ Facade._readdirBackend fs = Facade.BCaching sd
  ∧ (Facade.purge (VNum 42) fs).1 = Thrown (VTypeError "what is not iterable").
Proof.
  intros fs sd.
  assert (H1 : VNum 42 = VBool true ∨ ∃ n, n ≠ 0%Z ∧ VNum 42 = VNum n).
  { right. exists 42%Z. split; [lia|reflexivity]. }
  assert (H2 : Facade._readdirBackend fs = Facade.BCaching sd) by reflexivity.
  destruct (facade_purge_stops_on_non_iterable (VNum 42) fs sd H1 H2)
    as (G1 & _).
  split_and!; [exact H1|exact H2|exact G1].
Defined.

Lemma readJsonSync_reads_once_and_parses_witness :
  let s := init 10 in
  let readJsonSync :=
    Facade.readJsonSync_provider (H := test_env) (provideSync (H := test_env))
      (VStr "p.json") in
  LRUCache.bounded (lruCache (self s))
  ∧ cached s "p.json" = None
  ∧ activeAsyncOperations (self s) !! "p.json" = None
  ∧ (∀ e, test_syncProvider (trace (world s)) (VStr "p.json") VUndefined = Thrown e
          → truthy e = true)
  ∧ (readJsonSync s).1 = Thrown (VError "Unexpected token")
  ∧ trace (world (readJsonSync (readJsonSync s).2).2) = trace (world (readJsonSync s).2).
Proof.
  intros s readJsonSync.
  assert (H1 : LRUCache.bounded (lruCache (self s))) by (apply LRUFacts.bounded_new; lia).
  assert (H2 : cached s "p.json" = None) by reflexivity.
  assert (H3 : activeAsyncOperations (self s) !! "p.json" = None) by reflexivity.
  assert (H4 : ∀ e, test_syncProvider (trace (world s)) (VStr "p.json") VUndefined = Thrown e
                    → truthy e = true) by (intros e He; discriminate He).
  destruct (readJsonSync_reads_once_and_parses (H := test_env) "p.json" s H1 H2 H3 H4)
    as (G1 & _ & _ & G4).
  split_and!; [exact H1|exact H2|exact H3|exact H4|exact G1|exact G4].
Defined.

Lemma provideSync_adopts_queued_continuations_witness :
  let s := provide_each (H := throwing_env) "k" [0; 2] (init 10) in
  LRUCache.bounded (lruCache (self s))
  ∧ cached s "k" = None
  ∧ activeAsyncOperations (self s) !! "k" = Some 0
  ∧ arrays (world s) !! 0 = Some (CbUser <$> [0; 2])
  ∧ delivered (world (provideSync (H := throwing_env) (VStr "k") VUndefined s).2)
    = deliveries_to [0; 2] VUndefined (VObj 1)
  ∧ (provideSync (H := throwing_env) (VStr "k") VUndefined s).1 = Thrown (VError "boom").
Proof.
  intros s.
  assert (H1 : LRUCache.bounded (lruCache (self s))).
  { subst s. unfold provide_each. cbn [fold_left].
    do 2 apply (bounded_provide (H := throwing_env)).
    apply LRUFacts.bounded_new. lia. }
  assert (H2 : cached s "k" = None) by (vm_compute; reflexivity).
  assert (H3 : activeAsyncOperations (self s) !! "k" = Some 0) by (vm_compute; reflexivity).
  assert (H4 : arrays (world s) !! 0 = Some (CbUser <$> [0; 2])) by (vm_compute; reflexivity).
  destruct (provideSync_adopts_queued_continuations (H := throwing_env) "k" 0 [0; 2] s
              H1 H2 H3 H4) as (G1 & _ & _ & _ & _ & G6).
  split_and!; [exact H1|exact H2|exact H3|exact H4|exact G1|exact G6].
Defined.

End more_scenarios.

(** ** Concurrent calls for one key, under any interleaving *)

Section counting.
Context {A : Type} (f : A → bool).




End counting.

Section registry_facts.












End registry_facts.

Section lru_other_key.
Context {K : Type} `{Countable K} {V : Type}.
Import LRUCache.


End lru_other_key.

Section concurrent_cache_facts.
Context `{Environment}.
Import CacheBackend.
Implicit Types (s : state CacheBackend.t).























End concurrent_cache_facts.

Section concurrent_merger_facts.
Context `{Environment}.
Import OperationMergerBackend.
Implicit Types (s : state OperationMergerBackend.t).














End concurrent_merger_facts.

Section merge_correctness.
Context `{Environment}.


End merge_correctness.

(** ** Concurrent calls on the model *)

Section concurrent_scenarios.
Import CacheBackend.



End concurrent_scenarios.
